(** * Decision-tree builder: indentation parser, connector renderer,
      connector importer and diagram layout (src/src/App.tsx)

    A shallow embedding of the pure core of [App.tsx] and the properties
    of its specification.

    Conventions of the embedding.
    - A JavaScript string is the list of its UTF-16 code units
      ([str := list N]); [length], [indexOf] and [slice] count code units,
      as in the source.  The box-drawing characters of the connector text
      are single code units.
    - Arrays are lists; [out.push(x)] is [out ++ [x]].
    - [Node] objects that are mutated after they were stored somewhere
      else (the parser's stack and the [children] arrays, the flattener's
      [entry.childrenIds]) live in an explicit store and are referred to
      by their index.
    - The indent size is a natural number; the source divides by it, and
      every statement below is about a positive indent size. *)

From Stdlib Require Import ZArith NArith QArith Qround Qabs Lia Lqa Ascii
  String.
From stdpp Require Import base list strings gmap.

Local Open Scope N_scope.

(** ** JavaScript strings *)

Abbreviation char := N.
Abbreviation str := (list N).

Definition TAB : char := 9.
Definition NL : char := 10.
Definition CR : char := 13.
Definition SP : char := 32.
Definition BAR : char := 0x2502.   (* │ *)
Definition TEE : char := 0x251C.   (* ├ *)
Definition DASH : char := 0x2500.  (* ─ *)
Definition ELL : char := 0x2514.   (* └ *)

(** Decoding of a UTF-8 byte sequence into UTF-16 code units; it is only
    used to write string literals. *)
Fixpoint utf8_decode (bs : list N) : str :=
  match bs with
  | [] => []
  | b :: r =>
    if b <? 0x80 then b :: utf8_decode r
    else if b <? 0xE0 then
      match r with
      | c1 :: r1 => ((b - 0xC0) * 64 + (c1 - 0x80)) :: utf8_decode r1
      | _ => []
      end
    else if b <? 0xF0 then
      match r with
      | c1 :: c2 :: r2 =>
        ((b - 0xE0) * 4096 + (c1 - 0x80) * 64 + (c2 - 0x80)) :: utf8_decode r2
      | _ => []
      end
    else
      match r with
      | c1 :: c2 :: c3 :: r3 =>
        let cp := (b - 0xF0) * 262144 + (c1 - 0x80) * 4096
                  + (c2 - 0x80) * 64 + (c3 - 0x80) in
        let v := cp - 0x10000 in
        (0xD800 + v / 1024) :: (0xDC00 + v mod 1024) :: utf8_decode r3
      | _ => []
      end
  end.

(** The escapes [\n], [\r], [\t] and [\\] of a JavaScript literal. *)
Fixpoint unescape (s : str) : str :=
  match s with
  | [] => []
  | c :: r =>
    if c =? 92 then
      match r with
      | d :: r' =>
        (if d =? 110 then NL else if d =? 114 then CR
         else if d =? 116 then TAB else d) :: unescape r'
      | [] => [c]
      end
    else c :: unescape r
  end.

Fixpoint bytes_of (s : string) : list N :=
  match s with
  | EmptyString => []
  | String a r => N_of_ascii a :: bytes_of r
  end.

(** [js "..."] is the JavaScript string written ["..."] in the source. *)
Definition js (s : string) : str := unescape (utf8_decode (bytes_of s)).

(** [\s] of a regular expression, which is also what [trim] removes:
    WhiteSpace and LineTerminator of ECMAScript. *)
Definition is_space (c : char) : bool :=
  (c =? 9) || (c =? 10) || (c =? 11) || (c =? 12) || (c =? 13) || (c =? 32)
  || (c =? 0xA0) || (c =? 0x1680) || ((0x2000 <=? c) && (c <=? 0x200A))
  || (c =? 0x2028) || (c =? 0x2029) || (c =? 0x202F) || (c =? 0x205F)
  || (c =? 0x3000) || (c =? 0xFEFF).

(** The string without its leading white space. *)
Fixpoint trimStart (s : str) : str :=
  match s with
  | c :: r => if is_space c then trimStart r else s
  | [] => []
  end.

(** [s.replace(/\s+$/g, empty)] *)
Fixpoint trimEnd (s : str) : str :=
  match s with
  | [] => []
  | c :: r =>
    match trimEnd r with
    | [] => if is_space c then [] else [c]
    | r' => c :: r'
    end
  end.

(** [s.trim()] *)
Definition trim (s : str) : str := trimEnd (trimStart s).

(** [s.split(sep)] for a one-character separator; the result is never
    empty. *)
Fixpoint split (sep : char) (s : str) : list str :=
  match s with
  | [] => [[]]
  | c :: r =>
    if c =? sep then [] :: split sep r
    else match split sep r with
         | l :: ls => (c :: l) :: ls
         | [] => [[c]]
         end
  end.

(** [ls.join(sep)] *)
Fixpoint join (sep : str) (ls : list str) : str :=
  match ls with
  | [] => []
  | [l] => l
  | l :: ls' => l ++ sep ++ join sep ls'
  end.

(** [c.repeat(n)] for a one-character string. *)
Definition repeat_char (c : char) (n : nat) : str := replicate n c.

Fixpoint starts_with (p s : str) : bool :=
  match p, s with
  | [], _ => true
  | a :: p', b :: s' => (a =? b) && starts_with p' s'
  | _ :: _, [] => false
  end.

(** [s.indexOf(p)]: the first position at which [p] occurs, or [-1]. *)
Fixpoint indexOf (p s : str) : Z :=
  if starts_with p s then 0%Z
  else match s with
       | [] => (-1)%Z
       | _ :: r => let i := indexOf p r in
                   if (i <? 0)%Z then (-1)%Z else (i + 1)%Z
       end.

(** [s.slice(0, i)] and [s.slice(i)] for [0 <= i]. *)
Definition slice_to (i : Z) (s : str) : str := take (Z.to_nat i) s.
Definition slice_from (i : Z) (s : str) : str := drop (Z.to_nat i) s.

(** ** The tree *)

Local Unset Elimination Schemes.
Inductive Node := mkNode { text : str; children : list Node }.
Local Set Elimination Schemes.

(** ** countLeadingSpaces *)

Fixpoint countLeadingSpaces (s : str) : nat :=
  match s with
  | c :: r => if c =? SP then S (countLeadingSpaces r) else 0%nat
  | [] => 0%nat
  end.

(** ** parseIndentedTree *)

(** The [Node] objects of the parser are mutable and shared between the
    stack and the [children] array of their parent: they live in a store,
    in allocation order, and are named by their index.  Index 0 is the
    virtual root. *)
Record Obj := mkObj { otext : str; ochildren : list nat }.
Abbreviation Store := (list Obj).

Definition ROOT_TEXT : str := js "__ROOT__".

(** [input.replace(/\t/g, " ".repeat(indentSize))] *)
Definition expandTabs (indentSize : nat) (s : str) : str :=
  flat_map (fun c => if c =? TAB then repeat_char SP indentSize else [c]) s.

(** The lines of the input that the loop visits. *)
Definition parseLines (input : str) (indentSize : nat) : list str :=
  filter (fun l => (0 <? length (trim l))%nat = true)
         (map trimEnd (split NL (expandTabs indentSize input))).

(** [while (stack.length && stack[stack.length - 1].level >= level)
    stack.pop()]; the top of the stack is the head of the list. *)
Fixpoint popWhile (level : Z) (stack : list (Z * nat)) : list (Z * nat) :=
  match stack with
  | (l, _) :: rest => if (level <=? l)%Z then popWhile level rest else stack
  | [] => []
  end.

(** [parent.children.push(node)] *)
Definition pushChild (parent child : nat) (st : Store) : Store :=
  alter (fun o => mkObj (otext o) (ochildren o ++ [child])) parent st.

(** One iteration of the loop over the lines. *)
Definition parseStep (indentSize : nat) (state : Store * list (Z * nat))
    (raw : str) : Store * list (Z * nat) :=
  let '(st, stack) := state in
  let lead := countLeadingSpaces raw in
  let level := Z.of_nat (lead / indentSize) in
  let text := trim raw in
  let node := length st in
  let st := st ++ [mkObj text []] in
  let stack := popWhile level stack in
  let parent := match stack with (_, p) :: _ => p | [] => 0%nat end in
  let st := pushChild parent node st in
  (st, (level, node) :: stack).

(** Reading a [Node] value off the store; the [fuel] bounds the depth. *)
Fixpoint readNode (fuel : nat) (st : Store) (i : nat) : option Node :=
  match fuel with
  | O => None
  | S fuel =>
    o ← st !! i;
    cs ← mapM (readNode fuel st) (ochildren o);
    Some (mkNode (otext o) cs)
  end.

Definition parseState (input : str) (indentSize : nat)
    : Store * list (Z * nat) :=
  foldl (parseStep indentSize) ([mkObj ROOT_TEXT []], [((-1)%Z, 0%nat)])
        (parseLines input indentSize).

(** [return root.children] *)
Definition parseIndentedTree (input : str) (indentSize : nat)
    : option (list Node) :=
  let st := fst (parseState input indentSize) in
  o ← st !! 0%nat;
  mapM (readNode (length st) st) (ochildren o).

(** ** renderAsciiTree *)

Definition CONN_LAST : str := [ELL; DASH; SP].   (* "└─ " *)
Definition CONN_MID : str := [TEE; DASH; SP].    (* "├─ " *)

Fixpoint render (node : Node) (prefix : str) (isLast : bool)
    (out : list str) : list str :=
  match node with
  | mkNode text children =>
    let connector := if isLast then CONN_LAST else CONN_MID in
    let out := out ++ [prefix ++ connector ++ text] in
    match children with
    | [] => out
    | _ =>
      let childPrefix := prefix ++ (if isLast then [SP; SP; SP]
                                    else [BAR; SP; SP]) in
      let out := out ++ [childPrefix ++ [BAR]] in
      (fix loop (cs : list Node) (out : list str) : list str :=
         match cs with
         | [] => out
         | child :: rest =>
           let childIsLast := match rest with [] => true | _ => false end in
           let out := render child childPrefix childIsLast out in
           let out := if childIsLast then out
                      else out ++ [childPrefix ++ [BAR]] in
           loop rest out
         end) children out
    end
  end.

(** [root.children.forEach(...)]: every child is rendered with the empty
    prefix, the last one with [isLast]. *)
Fixpoint renderRootChildren (cs : list Node) (out : list str) : list str :=
  match cs with
  | [] => out
  | child :: rest =>
    renderRootChildren rest
      (render child [] (match rest with [] => true | _ => false end) out)
  end.

Fixpoint renderRoots (nodes : list Node) (out : list str) : list str :=
  match nodes with
  | [] => out
  | root :: rest =>
    let out := out ++ [text root] in
    let out := match children root with
               | [] => out
               | cs => renderRootChildren cs (out ++ [[BAR]])
               end in
    let out := match rest with [] => out | _ => out ++ [[]] end in
    renderRoots rest out
  end.

Definition renderAsciiTree (nodes : list Node) : str :=
  join [NL] (renderRoots nodes []).

(** ** importJiraToIndented *)

(** Case-insensitive match of an ASCII letter of a pattern with the [i]
    flag. *)
Definition eq_ci (p c : char) : bool :=
  (c =? p) || ((97 <=? p) && (p <=? 122) && (c =? p - 32)).

(** [starts_ci p s]: the rest of [s] after a case-insensitive occurrence
    of [p] at its start. *)
Fixpoint starts_ci (p s : str) : option str :=
  match p, s with
  | [], _ => Some s
  | a :: p', b :: s' => if eq_ci a b then starts_ci p' s' else None
  | _ :: _, [] => None
  end.

(** The rest of [s] after its first [c]. *)
Fixpoint after_first (c : char) (s : str) : option str :=
  match s with
  | [] => None
  | d :: r => if d =? c then Some r else after_first c r
  end.

Definition LBRACE : char := 123.
Definition RBRACE : char := 125.
Definition COLON : char := 58.

(** The first [replace] of [raw].  Its regular expression, with flag [i],
    is the sequence of [^\s*], [\{code], an optional group made of [:] and
    [[^}]*], then [\}], [\s*] and [\n?]; the replacement is the empty
    string.  The match is anchored at the start: white space, [{code],
    then either [}] or [:] followed by everything up to the first [}]
    (the class [[^}]] also matches line ends), then all the white space
    that follows, which leaves nothing for [\n?]. *)
Definition stripOpenFence (raw : str) : str :=
  match starts_ci (LBRACE :: js "code") (trimStart raw) with
  | Some (c :: r) =>
    if c =? RBRACE then trimStart r
    else if c =? COLON then
      match after_first RBRACE r with
      | Some r' => trimStart r'
      | None => raw
      end
    else raw
  | _ => raw
  end.

(** The second [replace], with [/\n?\s*\{code\}\s*$/i] and the empty
    string.  A match ends at the end of
    the string, so [s] ends with [{code}] and white space; the leftmost
    match starts at the beginning of the white space before [{code}]. *)
Definition stripCloseFence (s : str) : str :=
  match starts_ci (rev (LBRACE :: js "code" ++ [RBRACE])) (rev (trimEnd s)) with
  | Some r => trimEnd (rev r)
  | None => s
  end.

Definition withoutCode (raw : str) : str :=
  stripCloseFence (stripOpenFence raw).

(** [s.replace(/\r\n/g, "\n")]: every CR LF becomes LF. *)
Fixpoint normalizeNewlines (s : str) : str :=
  match s with
  | [] => []
  | c :: r =>
    match r with
    | d :: r' =>
      if (c =? CR) && (d =? NL) then NL :: normalizeNewlines r'
      else c :: normalizeNewlines r
    | [] => [c]
    end
  end.

(** [/^[│\s]+$/.test(s)] *)
Definition isConnectorOnly (s : str) : bool :=
  (0 <? length s)%nat && forallb (fun c => (c =? BAR) || is_space c) s.

(** [idx] of the loop body: [idxA >= 0 ? idxA : idxB]. *)
Definition markerIndex (line : str) : Z :=
  let idxA := indexOf CONN_MID line in
  let idxB := indexOf CONN_LAST line in
  if (0 <=? idxA)%Z then idxA else idxB.

(** The body of the loop over the lines. *)
Definition importLine (indentSize : nat) (out : list str) (line : str)
    : list str :=
  let trimmed := trim line in
  if (length trimmed =? 0)%nat then out ++ [[]]
  else if isConnectorOnly trimmed then out
  else
    let idx := markerIndex line in
    if (idx <? 0)%Z then out ++ [trimmed]
    else
      let prefix := slice_to idx line in
      let text := trim (slice_from (idx + 3) line) in
      let level := Z.max 0 (Z.of_nat (length prefix) / 3 + 1) in
      out ++ [repeat_char SP (Z.to_nat level * indentSize) ++ text].

(** The final [while] loop: [out.pop()] as long as the last entry is
    blank. *)
Fixpoint popBlank (out : list str) : list str :=
  match out with
  | [] => []
  | l :: r =>
    match popBlank r with
    | [] => match trim l with [] => [] | _ => [l] end
    | r' => l :: r'
    end
  end.

Definition importJiraToIndented (raw : str) (indentSize : nat) : str :=
  let lines := map trimEnd (split NL (normalizeNewlines (withoutCode raw))) in
  let out := foldl (importLine indentSize) [] lines in
  join [NL] (popBlank out).

(** ** flattenTree *)

Record FlatNode := mkFlat {
  fid : nat;
  ftext : str;
  fdepth : nat;
  fparentId : option nat;
  fchildrenIds : list nat
}.

(** [entry.childrenIds.push(childId)]: [entry] is the element of [flat]
    that was pushed at index [at_]. *)
Definition pushChildId (at_ childId : nat) (flat : list FlatNode)
    : list FlatNode :=
  alter (fun e => mkFlat (fid e) (ftext e) (fdepth e) (fparentId e)
                         (fchildrenIds e ++ [childId])) at_ flat.

(** [walk] threads the counter [id] and the array [flat], and returns
    [myId]. *)
Fixpoint walk (node : Node) (depth : nat) (parentId : option nat)
    (s : nat * list FlatNode) : nat * (nat * list FlatNode) :=
  match node with
  | mkNode text children =>
    let '(id, flat) := s in
    let myId := id in
    let id := S id in
    let at_ := length flat in
    let flat := flat ++ [mkFlat myId text depth parentId []] in
    let s :=
      (fix loop (cs : list Node) (s : nat * list FlatNode) :=
         match cs with
         | [] => s
         | child :: rest =>
           let '(childId, (id, flat)) := walk child (S depth) (Some myId) s in
           loop rest (id, pushChildId at_ childId flat)
         end) children (id, flat) in
    (myId, s)
  end.

Definition flattenTree (roots : list Node) : list FlatNode :=
  snd (foldl (fun s r => snd (walk r 0 None s)) (1%nat, []) roots).

(** ** JavaScript numbers

    A number is a finite value, an infinity or NaN.  Finite values are
    exact rationals: the rounding of the binary floating-point format is
    not modelled, and neither is the sign of zero. *)

Inductive num := Fin (q : Q) | PInf | NInf | NaN.

Definition nneg (a : num) : num :=
  match a with
  | Fin x => Fin (- x)
  | PInf => NInf
  | NInf => PInf
  | NaN => NaN
  end.

Definition nadd (a b : num) : num :=
  match a, b with
  | NaN, _ | _, NaN => NaN
  | Fin x, Fin y => Fin (x + y)
  | PInf, NInf | NInf, PInf => NaN
  | PInf, _ | _, PInf => PInf
  | NInf, _ | _, NInf => NInf
  end.

Definition nsub (a b : num) : num := nadd a (nneg b).

(** The sign of a number: [Some true] positive, [Some false] negative,
    [None] zero or NaN. *)
Definition nsign (a : num) : option bool :=
  match a with
  | Fin x => if Qlt_le_dec 0 x then Some true
             else if Qlt_le_dec x 0 then Some false else None
  | PInf => Some true
  | NInf => Some false
  | NaN => None
  end.

Definition nmul (a b : num) : num :=
  match a, b with
  | NaN, _ | _, NaN => NaN
  | Fin x, Fin y => Fin (x * y)
  | _, _ =>
    match nsign a, nsign b with
    | Some s, Some t => if Bool.eqb s t then PInf else NInf
    | _, _ => NaN
    end
  end.

Definition ndiv (a b : num) : num :=
  match a, b with
  | NaN, _ | _, NaN => NaN
  | Fin x, Fin y =>
    if Qeq_bool y 0 then
      match nsign a with
      | Some true => PInf
      | Some false => NInf
      | None => NaN
      end
    else Fin (x / y)
  | Fin _, _ => Fin 0
  | _, Fin _ =>
    match nsign a, nsign b with
    | Some s, Some false => if s then NInf else PInf
    | _, _ => a
    end
  | _, _ => NaN
  end.

(** [a < b] and [a <= b]; false as soon as one side is NaN. *)
Definition nlt (a b : num) : bool :=
  match a, b with
  | NaN, _ | _, NaN => false
  | Fin x, Fin y => if Qlt_le_dec x y then true else false
  | NInf, NInf | PInf, _ => false
  | NInf, _ => true
  | Fin _, PInf => true
  | Fin _, NInf => false
  end.

Definition nle (a b : num) : bool :=
  match a, b with
  | NaN, _ | _, NaN => false
  | Fin x, Fin y => if Qlt_le_dec y x then false else true
  | NInf, _ | _, PInf => true
  | _, _ => false
  end.

(** [Math.max(a, b)] and [Math.min(a, b)] *)
Definition nmax (a b : num) : num :=
  match a, b with
  | NaN, _ | _, NaN => NaN
  | _, _ => if nlt a b then b else a
  end.

Definition nmin (a b : num) : num :=
  match a, b with
  | NaN, _ | _, NaN => NaN
  | _, _ => if nlt b a then b else a
  end.

(** [Math.max(...xs)] and [Math.min(...xs)] *)
Definition nmaxl (xs : list num) : num := foldl nmax NInf xs.
Definition nminl (xs : list num) : num := foldl nmin PInf xs.

(** The truth value of a number in a condition. *)
Definition truthy (a : num) : bool :=
  match a with
  | Fin x => negb (Qeq_bool x 0)
  | NaN => false
  | _ => true
  end.

Definition of_nat (n : nat) : num := Fin (inject_Z (Z.of_nat n)).

(** [m.get(k)] of a [Map] of numbers whose result is only used in
    arithmetic: a missing entry is [undefined], which arithmetic turns
    into NaN. *)
Definition getNum (m : gmap nat num) (k : nat) : num := default NaN (m !! k).

(** ** wrapTextToLinesPx and layoutTreeForSvg

    [measureTextPx] asks the platform (a canvas) for the rendered width
    of a text; the platform is not part of the repository, so the
    function is a parameter.  It returns a finite number. *)

Section Layout.

Variable measureTextPx : str -> str -> Q.

(** [s.replace(/\s+/g, " ")]: every run of white space becomes one
    space. *)
Fixpoint collapseSpaces (s : str) : str :=
  match s with
  | [] => []
  | c :: r =>
    if is_space c then
      match r with
      | d :: _ => if is_space d then collapseSpaces r
                  else SP :: collapseSpaces r
      | [] => [SP]
      end
    else c :: collapseSpaces r
  end.

Definition cleanText (s : str) : str := trim (collapseSpaces s).

(** The soft break characters [- / : +]. *)
Definition isSoftBreak (c : char) : bool :=
  (c =? 45) || (c =? 47) || (c =? 58) || (c =? 43).

(** [word.split(/([\-\/:\+])/g)]: the pieces between the delimiters,
    and the delimiters themselves. *)
Fixpoint splitSoft (s : str) : list str :=
  match s with
  | [] => [[]]
  | c :: r =>
    if isSoftBreak c then [] :: [c] :: splitSoft r
    else match splitSoft r with
         | l :: ls => (c :: l) :: ls
         | [] => [[c]]
         end
  end.

(** [out[out.length - 1] = out[out.length - 1] + p] *)
Fixpoint appendToLast (p : str) (out : list str) : list str :=
  match out with
  | [] => []
  | [l] => [l ++ p]
  | l :: r => l :: appendToLast p r
  end.

Definition splitWordWithSoftBreaks (word : str) : list str :=
  let parts := filter (fun p => (0 <? length p)%nat = true) (splitSoft word) in
  foldl (fun out p =>
           match p with
           | [c] => if isSoftBreak c then
                      match out with
                      | [] => out ++ [p]
                      | _ => appendToLast p out
                      end
                    else out ++ [p]
           | _ => out ++ [p]
           end) [] parts.

(** The characters that [for (const ch of token)] visits: a surrogate
    pair is one character. *)
Fixpoint codePoints (s : str) : list str :=
  match s with
  | [] => []
  | c :: r =>
    match r with
    | d :: r' =>
      if (0xD800 <=? c) && (c <=? 0xDBFF) && (0xDC00 <=? d) && (d <=? 0xDFFF)
      then [c; d] :: codePoints r'
      else [c] :: codePoints r
    | [] => [[c]]
    end
  end.

Definition fits (font : str) (maxWidthPx : num) (s : str) : bool :=
  nle (Fin (measureTextPx s font)) maxWidthPx.

Definition nonBlank (s : str) : bool := (0 <? length (trim s))%nat.

(** The state of [wrapTextToLinesPx] is [(lines, current)]. *)
Definition wrapPush (s : list str * str) : list str * str :=
  let '(lines, current) := s in
  let t := trim current in
  ((if (0 <? length t)%nat then lines ++ [t] else lines), []).

Definition pushToken (font : str) (maxWidthPx : num) (s : list str * str)
    (token : str) (withLeadingSpace : bool) : list str * str :=
  let '(lines, current) := s in
  let prefixed := if withLeadingSpace && (0 <? length current)%nat
                  then SP :: token else token in
  let candidate := match current with [] => token | _ => current ++ prefixed end in
  if fits font maxWidthPx candidate then (lines, candidate)
  else
    let retry := nonBlank current in
    let '(lines, current) := if retry then wrapPush (lines, current)
                             else (lines, current) in
    if retry && fits font maxWidthPx token then (lines, token)
    else
      let '(lines, chunk) :=
        foldl (fun (lc : list str * str) (ch : str) =>
                 let '(lines, chunk) := lc in
                 let next := chunk ++ ch in
                 if fits font maxWidthPx next then (lines, next)
                 else ((match chunk with [] => lines | _ => lines ++ [chunk] end),
                       ch))
              (lines, []) (codePoints token) in
      let lines := match chunk with
                   | [] => lines
                   | _ => if nonBlank current then lines else lines ++ [chunk]
                   end in
      (lines, []).

(** The two nested loops over the words and their parts. *)
Definition pushWord (font : str) (maxWidthPx : num) (s : list str * str)
    (w : str) : list str * str :=
  snd (foldl (fun (a : bool * (list str * str)) (part : str) =>
                 (false, pushToken font maxWidthPx (snd a) part (fst a)))
             (true, s) (splitWordWithSoftBreaks w)).

Definition wrapTextToLinesPx (text : str) (maxWidthPx : num) (font : str)
    : list str :=
  let clean := cleanText text in
  match clean with
  | [] => [[]]
  | _ =>
    let words := split SP clean in
    let s := foldl (pushWord font maxWidthPx) ([], []) words in
    match fst (wrapPush s) with
    | [] => [clean]
    | lines => lines
    end
  end.

Definition MIN_NODE_W : num := Fin 120.
Definition MAX_NODE_W : num := Fin 210.
Definition FONT : str :=
  js "13px ui-monospace, SFMono-Regular, Menlo, Monaco, Consolas, 'Liberation Mono', 'Courier New', monospace".
Definition PADDING_X : num := Fin 12.
Definition PADDING_Y : num := Fin 10.
Definition LINE_H : num := Fin 16.
Definition MAX_LINES : nat := 7.
Definition GAP_X : num := Fin 54.
Definition GAP_Y : num := Fin 50.
Definition MARGIN : num := Fin 20.
Definition MIN_CANVAS_W : num := Fin 900.
Definition MIN_CANVAS_H : num := Fin 600.
Definition SLOT_W : num := MAX_NODE_W.

Definition clampW (w : num) : num := nmax MIN_NODE_W (nmin MAX_NODE_W w).

(** [lines.length > MAX_LINES]: keep the first lines and mark the last
    one kept. *)
Definition capLines (lines : list str) : list str :=
  if (MAX_LINES <? length lines)%nat
  then take (MAX_LINES - 1) lines
       ++ [default [] (lines !! (MAX_LINES - 1)%nat) ++ js " …"]
  else lines.

(** The body of the first loop: the lines, width and height of a node. *)
Definition nodeBox (n : FlatNode) : list str * num * num :=
  let clean := cleanText (ftext n) in
  let two := nmul PADDING_X (Fin 2) in
  let oneLineW := clampW (nadd (Fin (measureTextPx clean FONT)) two) in
  let w := oneLineW in
  let innerW := nmax (Fin 40) (nsub w two) in
  let lines := capLines (wrapTextToLinesPx clean innerW FONT) in
  let needsWrap := nlt MAX_NODE_W (nadd (Fin (measureTextPx clean FONT)) two) in
  let finalW := if needsWrap then MAX_NODE_W else w in
  let finalInnerW := nmax (Fin 40) (nsub finalW two) in
  let lines := if needsWrap
               then capLines (wrapTextToLinesPx clean finalInnerW FONT)
               else lines in
  (lines, finalW,
   nadd (nadd (nmul PADDING_Y (Fin 2)) (nmul (of_nat (length lines)) LINE_H))
        (Fin 8)).

Record PositionedNode := mkPos {
  pnode : FlatNode;
  px : num;
  py : num;
  pw : num;
  ph : num;
  plines : list str
}.

Record LayoutResult := mkLayout {
  positioned : list PositionedNode;
  width : num;
  height : num
}.

Definition isLeaf (byId : gmap nat FlatNode) (id : nat) : bool :=
  (length (default [] (fchildrenIds <$> byId !! id)) =? 0)%nat.

(** [ids.forEach(f)] for an [f] that may fail. *)
Definition forEachM {S : Type} (f : nat -> S -> option S) (ids : list nat)
    (s : S) : option S :=
  foldl (fun acc id => acc ≫= f id) (Some s) ids.

(** [assignLeaves] threads [(leafCursor, leafX)].  The recursion follows
    the ids of the array, so it is bounded by [fuel]; [None] stands for a
    recursion that does not return. *)
Fixpoint assignLeaves (fuel : nat) (byId : gmap nat FlatNode) (id : nat)
    (s : nat * gmap nat num) : option (nat * gmap nat num) :=
  match fuel with
  | O => None
  | S fuel =>
    if isLeaf byId id then Some (S (fst s), <[id := of_nat (fst s)]> (snd s))
    else
      n ← byId !! id;
      forEachM (assignLeaves fuel byId) (fchildrenIds n) s
  end.

(** [computeX] threads [xUnit]; [None] also stands for the exception of
    [byId.get(id)!.childrenIds] at an id that is not in the array. *)
Fixpoint computeX (fuel : nat) (byId : gmap nat FlatNode)
    (leafX : gmap nat num) (id : nat) (xUnit : gmap nat num)
    : option (gmap nat num) :=
  match fuel with
  | O => None
  | S fuel =>
    n ← byId !! id;
    xUnit ← forEachM (computeX fuel byId leafX) (fchildrenIds n) xUnit;
    if isLeaf byId id then Some (<[id := getNum leafX id]> xUnit)
    else
      let xs := map (getNum xUnit) (fchildrenIds n) in
      Some (<[id := ndiv (foldl nadd (Fin 0) xs) (of_nat (length xs))]> xUnit)
  end.

(** [yTopByDepth]: the running sum of the row heights and gaps. *)
Fixpoint yTops (accY : num) (maxHPerDepth : list num) : list num :=
  match maxHPerDepth with
  | [] => []
  | h :: r => accY :: yTops (nadd accY (nadd h GAP_Y)) r
  end.

Definition pxX (u : num) : num :=
  nadd (Fin 30) (nmul u (nadd SLOT_W GAP_X)).

Definition shift (dx dy : num) (p : PositionedNode) : PositionedNode :=
  mkPos (pnode p) (nadd (px p) dx) (nadd (py p) dy) (pw p) (ph p) (plines p).

Definition shiftX (dx : num) (p : PositionedNode) : PositionedNode :=
  mkPos (pnode p) (nadd (px p) dx) (py p) (pw p) (ph p) (plines p).

(** [byId]: the last element with a given id wins. *)
Definition byIdOf (flat : list FlatNode) : gmap nat FlatNode :=
  foldl (λ m n, <[fid n := n]> m) ∅ flat.

(** The first loop fills [linesById], [widthById] and [heightById]. *)
Definition linesByIdOf (flat : list FlatNode) : gmap nat (list str) :=
  foldl (λ m n, <[fid n := (nodeBox n).1.1]> m) ∅ flat.

Definition widthByIdOf (flat : list FlatNode) : gmap nat num :=
  foldl (λ m n, <[fid n := (nodeBox n).1.2]> m) ∅ flat.

Definition heightByIdOf (flat : list FlatNode) : gmap nat num :=
  foldl (λ m n, <[fid n := (nodeBox n).2]> m) ∅ flat.

(** [roots], [leafX] and [xUnit]: [roots.forEach(assignLeaves)], then
    [roots.forEach(computeX)].  The depth of the recursion is bounded by
    the number of ids of the array. *)
Definition xUnitOf (flat : list FlatNode) : option (gmap nat num) :=
  let byId := byIdOf flat in
  let roots := map fid (filter (λ n, fparentId n = None) flat) in
  let fuel := S (S (length flat)) in
  '(_, leafX) ← forEachM (assignLeaves fuel byId) roots (0%nat, ∅);
  forEachM (computeX fuel byId leafX) roots ∅.

(** [maxDepth] and [maxHPerDepth] *)
Definition maxDepthOf (flat : list FlatNode) : nat :=
  foldl Nat.max 0%nat (map fdepth flat).

Definition maxHPerDepthOf (flat : list FlatNode) : list num :=
  foldl (λ a n, <[fdepth n := nmax (default NaN (a !! fdepth n))
                                   (getNum (heightByIdOf flat) (fid n))]> a)
        (replicate (S (maxDepthOf flat)) (Fin 0)) flat.

(** [positioned], as first computed by [flat.map]. *)
Definition place (flat : list FlatNode) (xUnit : gmap nat num)
    : list PositionedNode :=
  let yTopByDepth := yTops (Fin 30) (maxHPerDepthOf flat) in
  map (λ n,
         let cx := pxX (getNum xUnit (fid n)) in
         let w := getNum (widthByIdOf flat) (fid n) in
         let x := nsub cx (ndiv w (Fin 2)) in
         let y := default NaN (yTopByDepth !! fdepth n) in
         let lines := default [] (linesByIdOf flat !! fid n) in
         let h := getNum (heightByIdOf flat) (fid n) in
         mkPos n x y w h lines) flat.

(** The rest of the function: the shift to the margin, the horizontal
    centring and the size of the canvas. *)
Definition normalize (positioned : list PositionedNode) : LayoutResult :=
  let minX := nminl (map px positioned) in
  let minY := nminl (map py positioned) in
  let dx := if nlt minX MARGIN then nsub MARGIN minX else Fin 0 in
  let dy := if nlt minY MARGIN then nsub MARGIN minY else Fin 0 in
  let positioned := if truthy dx || truthy dy
                    then map (shift dx dy) positioned else positioned in
  let contentMinX := nminl (map px positioned) in
  let contentMaxX := nmaxl (map (λ p, nadd (px p) (pw p)) positioned) in
  let contentWidth := nsub contentMaxX contentMinX in
  let canvasWidth := nadd (nmax contentMaxX MIN_CANVAS_W) MARGIN in
  let desiredMinX := nmax MARGIN (ndiv (nsub canvasWidth contentWidth) (Fin 2)) in
  let dxCenter := nsub desiredMinX contentMinX in
  let positioned := if truthy dxCenter
                    then map (shiftX dxCenter) positioned
                    else positioned in
  let maxX := nmaxl (map (λ p, nadd (px p) (pw p)) positioned ++ [MIN_CANVAS_W]) in
  let maxY := nmaxl (map (λ p, nadd (py p) (ph p)) positioned ++ [MIN_CANVAS_H]) in
  mkLayout positioned (nadd maxX MARGIN) (nadd maxY MARGIN).

Definition layoutTreeForSvg (flat : list FlatNode) : option LayoutResult :=
  xUnit ← xUnitOf flat;
  Some (normalize (place flat xUnit)).

End Layout.

(** The fallback of [measureTextPx] when no canvas is available:
    [text.length * 7]. *)
Definition fallbackMeasure (t : str) (font : str) : Q :=
  inject_Z (Z.of_nat (length t) * 7).

Local Close Scope N_scope.

(** ** getLineIndentBeforeCursor and the Enter key of the input area *)

(** The last position of [c] in [s], or [-1]. *)
Fixpoint lastIndexIn (c : char) (s : str) : Z :=
  match s with
  | [] => (-1)%Z
  | d :: r =>
    let i := lastIndexIn c r in
    if (0 <=? i)%Z then (i + 1)%Z
    else if (d =? c)%N then 0%Z else (-1)%Z
  end.

(** [s.lastIndexOf(c, position)] for a one-character string [c]: the
    last occurrence that starts at or before [position], which is first
    clamped between [0] and [s.length - 1]. *)
Definition lastIndexOf (c : char) (s : str) (position : Z) : Z :=
  match s with
  | [] => (-1)%Z
  | _ =>
    let start := Z.min (Z.max position 0) (Z.of_nat (length s) - 1) in
    lastIndexIn c (take (S (Z.to_nat start)) s)
  end.

(** The loop counts the spaces from [lineStart] on. *)
Definition getLineIndentBeforeCursor (text : str) (cursor : Z) : nat :=
  let lineStart := (lastIndexOf NL text (cursor - 1) + 1)%Z in
  countLeadingSpaces (drop (Z.to_nat lineStart) text).

Definition INDENT_SIZE : nat := 2.

(** [onInputKeyDown] for the Enter key: the new text and the new
    position of the caret, from the text and the selection
    [start .. end_]. *)
Definition onInputKeyDown (input : str) (start end_ : nat) : str * nat :=
  let indent := getLineIndentBeforeCursor input (Z.of_nat start) in
  let insert := NL :: repeat_char SP (indent + INDENT_SIZE) in
  let next := take start input ++ insert ++ drop end_ input in
  (next, start + length insert).

(** ** wrapForJira *)

(** The template literal: [{code:], the language, [}], a line break, the
    code, a line break and [{code}]. *)
Definition wrapForJira (code language : str) : str :=
  js "{code:" ++ language ++ js "}\n" ++ code ++ js "\n{code}".

(** ** wrapTextToLines

    The wrapping by a number of characters.  [maxCharsPerLine] is a
    natural number.  The state of the function is [(lines, current)];
    the [while] loop that cuts a long word is bounded by [fuel], and
    [None] stands for a loop that does not end. *)

Definition pushCurrent (s : list str * str) : list str * str :=
  let '(lines, current) := s in
  ((if 0 <? length (trim current) then lines ++ [trim current] else lines),
   []).

(** [while (chunk.length > maxCharsPerLine) { ... }] *)
Fixpoint chunkLoop (fuel maxCharsPerLine : nat) (lines : list str)
    (chunk : str) : option (list str * str) :=
  match fuel with
  | O => None
  | S fuel =>
    if maxCharsPerLine <? length chunk
    then chunkLoop fuel maxCharsPerLine
           (lines ++ [take maxCharsPerLine chunk]) (drop maxCharsPerLine chunk)
    else Some (lines, chunk)
  end.

(** The body of the loop over the words. *)
Definition wrapWord (fuel maxCharsPerLine : nat) (s : list str * str)
    (w : str) : option (list str * str) :=
  if maxCharsPerLine <? length w then
    '(lines, chunk) ← chunkLoop fuel maxCharsPerLine (pushCurrent s).1 w;
    Some ((if 0 <? length chunk then lines ++ [chunk] else lines), [])
  else
    let '(lines, current) := s in
    let candidate := match current with
                     | [] => w
                     | _ => current ++ SP :: w
                     end in
    if length candidate <=? maxCharsPerLine then Some (lines, candidate)
    else Some ((pushCurrent s).1, w).

Definition wrapTextToLines (fuel : nat) (text : str) (maxCharsPerLine : nat)
    : option (list str) :=
  let clean := cleanText text in
  match clean with
  | [] => Some [[]]
  | _ =>
    s ← foldl (λ acc w, acc ≫= λ s, wrapWord fuel maxCharsPerLine s w)
              (Some ([], [])) (split SP clean);
    Some (match (pushCurrent s).1 with
          | [] => [clean]
          | lines => lines
          end)
  end.

(** ** deriveTitleFromInput *)

(** [text.split(/\r?\n/)]: the text is cut at every line break, and a
    carriage return just before a line break goes with it. *)
Fixpoint splitLines (s : str) : list str :=
  match s with
  | [] => [[]]
  | c :: r =>
    if (c =? NL)%N then [] :: splitLines r
    else
      match r with
      | d :: r' =>
        if ((c =? CR) && (d =? NL))%N then [] :: splitLines r'
        else match splitLines r with
             | l :: ls => (c :: l) :: ls
             | [] => [[c]]
             end
      | [] => [[c]]
      end
  end.

Definition EMPTY_TITLE : str := js "(пусто)".

(** The first line that is not blank, trimmed, or the fallback. *)
Definition deriveTitleFromInput (text : str) : str :=
  match filter (λ l, (0 <? length l) = true) (map trim (splitLines text)) with
  | l :: _ => l
  | [] => EMPTY_TITLE
  end.

(** ** The history of the inputs

    [pushToHistory] reads the stored history, the clock and a random
    number, and stores the new history.  The result of [loadHistory()]
    is the argument [current], [Date.now()] is [now], the id made of the
    time and the random number is [newId]; the result is the list given
    to [persistHistory] and [setHistory], or [None] when the function
    returns without storing anything. *)

Definition DEFAULT_INPUT : str :=
  js "Схема принятия решений  \n  Действия\n    Опишите схему текстом с отступами\n      Import. Восстановите текст из ASCII-схемы\n      History. Вернитесь к ранее созданным схемам\n  ASCII\n    Получите готовую ASCII-схему\n      Используйте {code}, чтобы Jira корректно отображала схему\n  Диаграмма\n    Просмотрите визуальную диаграмму\n      Масштабируйте и перемещайте\n      Экспортируейте диаграмму в PNG".

Record HistoryEntry := mkEntry {
  eid : str;
  ecreatedTs : num;
  ets : num;
  etitle : str;
  etext : str
}.

Definition HISTORY_MAX : nat := 50.
Definition HOUR_MS : num := Fin (60 * 60 * 1000).

Definition pushToHistory (now : num) (newId : str)
    (current : list HistoryEntry) (text : str)
    : option (list HistoryEntry) :=
  if length (trim text) =? 0 then None
  else if bool_decide (text = DEFAULT_INPUT) then None
  else
    let title := deriveTitleFromInput text in
    let fresh :=
      Some (take HISTORY_MAX
              (mkEntry newId now now title text
                 :: filter (λ e, etext e ≠ text) current)) in
    let duplicate := match current !! 0 with
                     | Some last => bool_decide (etext last = text)
                     | None => false
                     end in
    if duplicate then None
    else
      match list_find (λ e, etitle e = title) current with
      | Some (sameTitleIdx, existing) =>
        let created := ecreatedTs existing in
        let ageMs := nsub now created in
        if bool_decide (etext existing = text) then None
        else if nlt ageMs HOUR_MS then
          let updated := mkEntry (eid existing) created now title text in
          Some (take HISTORY_MAX
                  (updated
                     :: filter (λ e, etext e ≠ text)
                          (delete sameTitleIdx current)))
        else fresh
      | None => fresh
      end.

(** ** The zoom of the diagram and the frame of the exported image *)

(** [Math.abs], [Math.floor] and [Math.ceil] *)
Definition nabs (a : num) : num :=
  match a with
  | Fin x => Fin (Qabs x)
  | NInf => PInf
  | _ => a
  end.

Definition nfloor (a : num) : num :=
  match a with
  | Fin x => Fin (inject_Z (Qfloor x))
  | _ => a
  end.

Definition nceil (a : num) : num :=
  match a with
  | Fin x => Fin (inject_Z (Qceiling x))
  | _ => a
  end.

(** [Number(a.toFixed(digits))]: a finite number below [10^21] in
    absolute value is rounded to [digits] decimals, a tie away from zero;
    any other number is written in full and read back.  The number that
    is rounded here is the exact rational: where the floating-point
    value of the code lies on the other side of a tie (as the product
    [1.15 * 1.15] does), the last decimal differs from the code's. *)
Definition toFixedNumber (digits : nat) (a : num) : num :=
  match a with
  | Fin x =>
    if Qle_bool (inject_Z (10 ^ 21)) (Qabs x) then Fin x
    else
      let scale := inject_Z (10 ^ Z.of_nat digits) in
      let n := Qfloor (Qabs x * scale + (1 # 2)) in
      let r := (inject_Z n / scale)%Q in
      Fin (if Qlt_le_dec x 0 then (- r)%Q else r)
  | _ => a
  end.

(** [clamp(v, lo, hi)] *)
Definition clamp (v lo hi : num) : num := nmax lo (nmin hi v).

Definition ZOOM_MIN : num := Fin (4 # 10).
Definition ZOOM_MAX : num := Fin 5.

(** The updates of the zoom: the two buttons and the wheel. *)
Definition zoomIn (z : num) : num :=
  clamp (toFixedNumber 3 (nmul z (Fin (115 # 100)))) ZOOM_MIN ZOOM_MAX.

Definition zoomOut (z : num) : num :=
  clamp (toFixedNumber 3 (ndiv z (Fin (115 # 100)))) ZOOM_MIN ZOOM_MAX.

Definition onGraphWheel (deltaY z : num) : num :=
  let dy := deltaY in
  let intensity := nmin (Fin 1) (ndiv (nabs dy) (Fin 60)) in
  let step := nadd (Fin (1 # 100)) (nmul intensity (Fin (5 # 100))) in
  let next := if nlt (Fin 0) dy then nsub (Fin 1) step
              else nadd (Fin 1) step in
  clamp (toFixedNumber 4 (nmul z next)) ZOOM_MIN ZOOM_MAX.

(** The frame of the exported image in [saveGraphPng], when there is a
    node: [(vbX, vbY, vbW, vbH)]. *)
Definition PAD : num := Fin 32.

Definition cropBox (positioned : list PositionedNode)
    : option (num * num * num * num) :=
  match positioned with
  | [] => None
  | _ =>
    let xs := flat_map (λ p, [px p; nadd (px p) (pw p)]) positioned in
    let ys := flat_map (λ p, [py p; nadd (py p) (ph p)]) positioned in
    let minX := nminl xs in
    let maxX := nmaxl xs in
    let minY := nminl ys in
    let maxY := nmaxl ys in
    let vbX := nfloor (nsub minX PAD) in
    let vbY := nfloor (nsub minY PAD) in
    let vbW := nceil (nadd (nsub maxX minX) (nmul PAD (Fin 2))) in
    let vbH := nceil (nadd (nsub maxY minY) (nmul PAD (Fin 2))) in
    Some (vbX, vbY, vbW, vbH)
  end.

(** * Specification vocabulary *)

(** Predicates, reference functions and sample inputs in which the
    properties below are stated. *)

(** Every node of a tree, the tree itself included. *)
Fixpoint subnodes (t : Node) : list Node :=
  match t with
  | mkNode _ cs => t :: flat_map subnodes cs
  end.

Definition nodes_of (roots : list Node) : list Node := flat_map subnodes roots.

(** The children of an object were allocated after it. *)
Definition wf_store (st : Store) : Prop :=
  ∀ i o, st !! i = Some o → Forall (λ c, i < c < length st) (ochildren o).

Definition stack_ok (st : Store) (stack : list (Z * nat)) : Prop :=
  Forall (λ e, e.2 < length st) stack.

Definition labels_ok (P : str → Prop) (st : Store) : Prop :=
  ∀ i o, st !! S i = Some o → P (otext o).

(** What is known of a state of the loop of [parseIndentedTree]. *)
Record parse_inv (P : str → Prop) (s : Store * list (Z * nat)) : Prop := {
  inv_root : 0 < length s.1;
  inv_wf : wf_store s.1;
  inv_stack : stack_ok s.1 s.2;
  inv_labels : labels_ok P s.1
}.

(** What the parser guarantees of every label. *)
Definition label_wf (s : str) : Prop :=
  s ≠ [] ∧ trim s = s ∧ (NL ∉ s) ∧ (TAB ∉ s).

(** The loop over the children inside [render]. *)
Fixpoint renderChildren (cs : list Node) (childPrefix : str)
    (out : list str) : list str :=
  match cs with
  | [] => out
  | child :: rest =>
    let childIsLast := match rest with [] => true | _ => false end in
    let out := render child childPrefix childIsLast out in
    let out := if childIsLast then out else out ++ [childPrefix ++ [BAR]] in
    renderChildren rest childPrefix out
  end.

Definition connector (isLast : bool) : str :=
  if isLast then CONN_LAST else CONN_MID.

Definition childPrefixOf (prefix : str) (isLast : bool) : str :=
  prefix ++ (if isLast then [SP; SP; SP] else [BAR; SP; SP]).

(** What one root adds to [out]. *)
Definition rootLines (r : Node) (rest : list Node) : list str :=
  (text r :: match children r with
             | [] => []
             | cs => [BAR] :: renderRootChildren cs []
             end)
    ++ match rest with [] => [] | _ => [[]] end.

(** Prefixes of the renderer: bars and spaces. *)
Definition bars (p : str) : Prop := Forall (λ c, c = BAR ∨ c = SP) p.

(** Whether a label contains a connector marker. *)
Definition hasMarker (s : str) : bool :=
  (0 <=? indexOf CONN_MID s)%Z || (0 <=? indexOf CONN_LAST s)%Z.

(** The indented lines of a tree whose root is at depth [d]. *)
Fixpoint ilines (indentSize d : nat) (t : Node) : list str :=
  match t with
  | mkNode txt cs =>
    (repeat_char SP (d * indentSize) ++ txt)
      :: flat_map (ilines indentSize (S d)) cs
  end.

(** The indented text of a forest: a blank line separates the roots. *)
Fixpoint olines (indentSize : nat) (roots : list Node) : list str :=
  match roots with
  | [] => []
  | r :: rest =>
    ilines indentSize 0 r
      ++ match rest with [] => [] | _ => [] :: olines indentSize rest end
  end.

Definition tree_ok (P : str → Prop) (t : Node) : Prop :=
  Forall (λ n, P (text n)) (subnodes t).

(** The labels on which the importer inverts the renderer. *)
Definition label_imp (lab : str) : Prop :=
  lab ≠ [] ∧ trim lab = lab ∧ hasMarker lab = false.

(** A root label has to be told from a connector line as well. *)
Definition root_ok (r : Node) : Prop :=
  isConnectorOnly (text r) = false ∧ tree_ok label_imp r.

(** A line keeps its shape through [join], [split] and the trimming of
    its end. *)
Definition line_ok (l : str) : Prop := (NL ∉ l) ∧ trimEnd l = l.

(** The lines of the indented text. *)
Definition iline_ok (l : str) : Prop :=
  line_ok l ∧ (TAB ∉ l) ∧ trim l ≠ [].

(** [reads st t i]: the object at index [i] of the store is the root of
    the tree [t], and the children of every object come after it. *)
Fixpoint reads (st : Store) (t : Node) (i : nat) : Prop :=
  match t with
  | mkNode txt cs =>
    ∃ o, st !! i = Some o ∧ otext o = txt ∧
      (fix all (cs : list Node) (ids : list nat) : Prop :=
         match cs, ids with
         | [], [] => True
         | c :: cs', j :: ids' => i < j ∧ reads st c j ∧ all cs' ids'
         | _, _ => False
         end) cs (ochildren o)
  end.

(** The effect of the lines of a forest [ts] at depth [d] below the
    object [p]. *)
Definition forest_parsed (indentSize d : nat) (ts : list Node) : Prop :=
  ∀ st extra lp p rest op,
    Forall (λ e, (Z.of_nat d ≤ e.1)%Z) extra → (lp < Z.of_nat d)%Z →
    st !! p = Some op →
    ∃ st' extra' ids,
      foldl (parseStep indentSize) (st, extra ++ (lp, p) :: rest)
            (flat_map (ilines indentSize d) ts)
      = (st', extra' ++ (lp, p) :: rest)
      ∧ Forall (λ e, (Z.of_nat d ≤ e.1)%Z) extra'
      ∧ length st ≤ length st'
      ∧ st' !! p = Some (mkObj (otext op) (ochildren op ++ ids))
      ∧ (∀ j o, j < length st → j ≠ p → st !! j = Some o → st' !! j = Some o)
      ∧ Forall2 (λ c j, p < j ∧ reads st' c j) ts ids.

Definition tree_parsed (indentSize d : nat) (t : Node) : Prop :=
  ∀ st extra lp p rest op,
    Forall (λ e, (Z.of_nat d ≤ e.1)%Z) extra → (lp < Z.of_nat d)%Z →
    st !! p = Some op →
    ∃ st' extra',
      foldl (parseStep indentSize) (st, extra ++ (lp, p) :: rest)
            (ilines indentSize d t)
      = (st', extra' ++ (lp, p) :: rest)
      ∧ Forall (λ e, (Z.of_nat d ≤ e.1)%Z) extra'
      ∧ length st < length st'
      ∧ st' !! p = Some (mkObj (otext op) (ochildren op ++ [length st]))
      ∧ (∀ j o, j < length st → j ≠ p → st !! j = Some o → st' !! j = Some o)
      ∧ reads st' t (length st).

Definition leaf (s : string) : Node := mkNode (js s) [].

(** The tree of scenario 1: [A] with the children [B] and [C]. *)
Definition treeABC : list Node := [mkNode (js "A") [leaf "B"; leaf "C"]].

(** The earliest occurrence of either connector marker in a line, as
    the specification words the split position; [-1] when there is
    none. *)
Definition earliestMarker (line : str) : Z :=
  let idxA := indexOf CONN_MID line in
  let idxB := indexOf CONN_LAST line in
  if (idxA <? 0)%Z then idxB
  else if (idxB <? 0)%Z then idxA
  else Z.min idxA idxB.

Definition sampleInput : str :=
  js "Root\n  yes: go/on\n    deeper │ still\n\n  no\t\nSecond root\n      far".

Definition sampleForest : list Node :=
  [mkNode (js "Root")
     [mkNode (js "yes: go/on") [leaf "deeper │ still"]; leaf "no"];
   mkNode (js "Second root") [leaf "far"]].

Fixpoint size (t : Node) : nat :=
  match t with
  | mkNode _ cs => S (list_sum (map size cs))
  end.

(** The number of leaves of a tree. *)
Fixpoint leaves (t : Node) : nat :=
  match t with
  | mkNode _ cs => match cs with [] => 1 | _ => list_sum (map leaves cs) end
  end.

(** The ids of the trees [cs] when the first one is numbered [j]. *)
Fixpoint childIds (cs : list Node) (j : nat) : list nat :=
  match cs with
  | [] => []
  | c :: r => j :: childIds r (j + size c)
  end.

(** The unit position of the root of [t] when its first leaf is the
    leaf number [c]: a leaf sits at [c], an inner node at the mean of its
    children. *)
Fixpoint unit (t : Node) (c : nat) : Q :=
  match t with
  | mkNode _ cs =>
    match cs with
    | [] => inject_Z (Z.of_nat c)
    | _ =>
      let us :=
        (fix units (cs : list Node) (c : nat) : list Q :=
           match cs with
           | [] => []
           | k :: r => unit k c :: units r (c + leaves k)
           end) cs c in
      Qdiv (foldl Qplus 0%Q us) (inject_Z (Z.of_nat (length cs)))
    end
  end.

Fixpoint units (cs : list Node) (c : nat) : list Q :=
  match cs with
  | [] => []
  | k :: r => unit k c :: units r (c + leaves k)
  end.

(** The entries of the flat array for the tree [t] numbered from [i], at
    depth [d] below [par], each with its unit position, when the first
    leaf of [t] is the leaf number [c]. *)
Fixpoint slist (t : Node) (i d : nat) (par : option nat) (c : nat)
    : list (FlatNode * Q) :=
  match t with
  | mkNode txt cs =>
    (mkFlat i txt d par (childIds cs (S i)), unit t c)
      :: (fix forest (cs : list Node) (j c : nat) : list (FlatNode * Q) :=
            match cs with
            | [] => []
            | k :: r =>
              slist k j (S d) (Some i) c
                ++ forest r (j + size k) (c + leaves k)
            end) cs (S i) c
  end.

Fixpoint sforest (cs : list Node) (j d : nat) (par : option nat) (c : nat)
    : list (FlatNode * Q) :=
  match cs with
  | [] => []
  | k :: r => slist k j d par c ++ sforest r (j + size k) d par (c + leaves k)
  end.

(** The loop over the children inside [walk]. *)
Fixpoint walkChildren (cs : list Node) (depth myId at_ : nat)
    (s : nat * list FlatNode) : nat * list FlatNode :=
  match cs with
  | [] => s
  | child :: rest =>
    let '(childId, (id, flat)) := walk child (S depth) (Some myId) s in
    walkChildren rest depth myId at_ (id, pushChildId at_ childId flat)
  end.

(** [sub] is the part of the list [S] that starts at the id [i]. *)
Definition emb (S sub : list (FlatNode * Q)) (i : nat) : Prop :=
  ∃ pre post, S = pre ++ sub ++ post ∧ i = Datatypes.S (length pre).

Definition specList (roots : list Node) : list (FlatNode * Q) :=
  sforest roots 1 0 None 0.

(** The state after [assignLeaves] at the root of an embedded tree. *)
Definition leaves_assigned (roots : list Node) (t : Node) : Prop :=
  ∀ i d par c, emb (specList roots) (slist t i d par c) i →
  ∀ fuel m, size t ≤ fuel →
  ∃ m', assignLeaves fuel (byIdOf (specList roots).*1) i (c, m)
        = Some (c + leaves t, m')
        ∧ (∀ k, k < i ∨ i + size t ≤ k → m' !! k = m !! k)
        ∧ (∀ e u, (e, u) ∈ slist t i d par c → fchildrenIds e = [] →
                  m' !! fid e = Some (Fin u)).

(** The state after [computeX] at the root of an embedded tree. *)
Definition units_computed (roots : list Node) (leafX : gmap nat num)
    (t : Node) : Prop :=
  ∀ i d par c, emb (specList roots) (slist t i d par c) i →
  ∀ fuel m, size t ≤ fuel →
  ∃ m', computeX fuel (byIdOf (specList roots).*1) leafX i m = Some m'
        ∧ (∀ k, k < i ∨ i + size t ≤ k → m' !! k = m !! k)
        ∧ (∀ e u, (e, u) ∈ slist t i d par c → m' !! fid e = Some (Fin u)).

Definition iq (n : nat) : Q := inject_Z (Z.of_nat n).

Definition unit_in_range (t : Node) : Prop :=
  ∀ c, (iq c <= unit t c ∧ unit t c <= iq (c + leaves t) - 1)%Q.

(** Every entry of the list lies at depth [d] or below, and its unit
    position among the [n] leaves that start at [c]. *)
Definition inrange (S : list (FlatNode * Q)) (d c n : nat) : Prop :=
  ∀ e u, (e, u) ∈ S →
         d ≤ fdepth e ∧ (iq c <= u ∧ u <= iq (c + n) - 1)%Q.

(** Two entries at the same depth are at least one unit apart, in the
    order of the list. *)
Definition separated (S : list (FlatNode * Q)) : Prop :=
  ∀ k1 k2 e1 u1 e2 u2,
    k1 < k2 → S !! k1 = Some (e1, u1) → S !! k2 = Some (e2, u2) →
    fdepth e1 = fdepth e2 → (u1 + 1 <= u2)%Q.

(** The unit position of an inner node is the mean of those of its
    children. *)
Definition mean (us : list Q) : Q := (foldl Qplus 0 us / iq (length us))%Q.

Definition centered (S : list (FlatNode * Q)) : Prop :=
  ∀ e u, (e, u) ∈ S → fchildrenIds e ≠ [] →
  ∃ us, Forall2 (λ k u', ∃ e', (e', u') ∈ S ∧ fid e' = k) (fchildrenIds e) us
        ∧ u = mean us.

Definition fin_num (a : num) : Prop := ∃ q, a = Fin q.

(** A positioned node with finite coordinates and sizes. *)
Definition finP (p : PositionedNode) : Prop :=
  fin_num (px p) ∧ fin_num (py p) ∧ fin_num (pw p) ∧ fin_num (ph p).

(** [p'] is [p] moved by [(DX, DY)]. *)
Definition shifted (DX DY : Q) (p p' : PositionedNode) : Prop :=
  pnode p' = pnode p ∧ pw p' = pw p ∧ ph p' = ph p
  ∧ ∃ x y x' y', px p = Fin x ∧ py p = Fin y
                 ∧ px p' = Fin x' ∧ py p' = Fin y'
                 ∧ (x' == x + DX)%Q ∧ (y' == y + DY)%Q.

(** [tops acc hs]: the tops of the rows of heights [hs], from [acc]. *)
Fixpoint tops (acc : Q) (hs : list Q) : list Q :=
  match hs with
  | [] => []
  | h :: r => acc :: tops (acc + (h + 50)) r
  end.

Definition rowStep (hgt : FlatNode → num) (a : list num) (n : FlatNode)
    : list num :=
  <[fdepth n := nmax (default NaN (a !! fdepth n)) (hgt n)]> a.

(** [(e, u)] of the specification list is placed as [p]: the centre of
    [p] is at the unit position [u], its width is within the bounds, its
    top is the top of the row of its depth and its height at most the
    height of that row; all of it moved by [(DX, DY)]. *)
Definition placed (hs : list Q) (DX DY : Q) (eu : FlatNode * Q)
    (p : PositionedNode) : Prop :=
  pnode p = eu.1
  ∧ ∃ x y w h y0 H,
      px p = Fin x ∧ py p = Fin y ∧ pw p = Fin w ∧ ph p = Fin h
      ∧ (x + w / 2 == 30 + eu.2 * 264 + DX)%Q
      ∧ (120 <= w ∧ w <= 210)%Q
      ∧ tops 30 hs !! fdepth eu.1 = Some y0 ∧ (y == y0 + DY)%Q
      ∧ hs !! fdepth eu.1 = Some H ∧ (0 <= h ∧ h <= H)%Q.

Definition specFlat (roots : list Node) : list FlatNode :=
  (specList roots).*1.

(** The rectangles of [p] and [q] do not meet: one of them ends before
    the other starts, horizontally or vertically. *)
Definition apart (p q : PositionedNode) : bool :=
  nlt (nadd (px p) (pw p)) (px q) || nlt (nadd (px q) (pw q)) (px p)
  || nlt (nadd (py p) (ph p)) (py q) || nlt (nadd (py q) (ph q)) (py p).

(** [a] is an ancestor of [b]: [a] is reached from [b] along [parentId],
    in at most [fuel] steps. *)
Fixpoint isAncestor (fuel : nat) (flat : list FlatNode) (a b : nat) : bool :=
  match fuel with
  | O => false
  | S fuel =>
    match byIdOf flat !! b with
    | Some n =>
      match fparentId n with
      | Some p => (p =? a) || isAncestor fuel flat a p
      | None => false
      end
    | None => false
    end
  end.

Definition ancestor (flat : list FlatNode) (a b : nat) : bool :=
  isAncestor (length flat) flat a b.

(** The horizontal centre of a node and the mean of a list of numbers. *)
Definition centerX (p : PositionedNode) : num :=
  nadd (px p) (ndiv (pw p) (Fin 2)).

Definition nmean (xs : list num) : num :=
  ndiv (foldl nadd (Fin 0) xs) (of_nat (length xs)).

(** Equality of two numbers; finite numbers are compared as rationals. *)
Definition num_eq (a b : num) : Prop :=
  match a, b with
  | Fin x, Fin y => (x == y)%Q
  | PInf, PInf | NInf, NInf => True
  | _, _ => False
  end.

(** A line that the importer keeps as a line of text: neither blank nor
    made of connector bars. *)
Definition keptLine (l : str) : bool :=
  negb (length (trim l) =? 0) && negb (isConnectorOnly (trim l)).

(** The store and the stack after lines at level 0 only. *)
Definition flatStore (labels : list str) : Store :=
  mkObj ROOT_TEXT (seq 1 (length labels)) :: map (λ t, mkObj t []) labels.

Definition flatStack (labels : list str) : list (Z * nat) :=
  match labels with
  | [] => [((-1)%Z, 0)]
  | _ => [(0%Z, length labels); ((-1)%Z, 0)]
  end.

(** The links of the entry [n] of a list of entries [L]: its parent, if
    any, is an earlier entry one level up that lists [n] among its
    children, and each of its children is an entry that names [n] as its
    parent. *)
Definition parentLinked (L : list FlatNode) (n : FlatNode) : Prop :=
  match fparentId n with
  | None => fdepth n = 0
  | Some p =>
    ∃ m, L !! (p - 1) = Some m ∧ fid m = p ∧ 0 < p < fid n
         ∧ fdepth n = S (fdepth m) ∧ fid n ∈ fchildrenIds m
  end.

Definition childrenLinked (L : list FlatNode) (n : FlatNode) : Prop :=
  ∀ cid, cid ∈ fchildrenIds n →
         ∃ q, L !! (cid - 1) = Some q ∧ fid q = cid
              ∧ fparentId q = Some (fid n).

(** Every entry is the head of its list or has its parent in the list;
    every child of an entry is in the list. *)
Definition linksIn (L : list (FlatNode * Q)) (heads : list nat)
    (par : option nat) (d : nat) : Prop :=
  ∀ n u, (n, u) ∈ L →
    ((fid n ∈ heads ∧ fparentId n = par ∧ fdepth n = d)
     ∨ ∃ m u', (m, u') ∈ L ∧ fparentId n = Some (fid m) ∧ fid m < fid n
               ∧ fdepth n = S (fdepth m) ∧ fid n ∈ fchildrenIds m)
    ∧ ∀ cid, cid ∈ fchildrenIds n →
             ∃ q u', (q, u') ∈ L ∧ fid q = cid ∧ fparentId q = Some (fid n).

(** The node [p] lies in the canvas of width [W] and height [H], at
    least a margin of 20 away from each side. *)
Definition inCanvas (W H : Q) (p : PositionedNode) : Prop :=
  ∃ x y w h, px p = Fin x ∧ py p = Fin y ∧ pw p = Fin w ∧ ph p = Fin h
             ∧ (20 <= x ∧ 20 <= y ∧ x + w + 20 <= W ∧ y + h + 20 <= H)%Q.

(** The characters of a text that are not white space, in order. *)
Definition visible (s : str) : str := filter (λ c, is_space c = false) s.

(** A string that is one character for [for (const ch of token)]. *)
Definition oneChar (l : str) : Prop := codePoints l = [l].

(** The loop over the characters of a token inside [pushToken]. *)
Definition charStep (measureTextPx : str → str → Q) (font : str)
    (maxWidthPx : num) (lc : list str * str) (ch : str) : list str * str :=
  let '(lines, chunk) := lc in
  let next := chunk ++ ch in
  if fits measureTextPx font maxWidthPx next then (lines, next)
  else (match chunk with [] => lines | _ => lines ++ [chunk] end, ch).

(** A line that fits the width, or else holds a single character. *)
Definition goodLine (measureTextPx : str → str → Q) (font : str)
    (maxWidthPx : num) (l : str) : Prop :=
  l ≠ [] ∧ (fits measureTextPx font maxWidthPx l = true ∨ oneChar l).

(** What holds of the state [(lines, current)] of [wrapTextToLinesPx]. *)
Definition wrapInv (measureTextPx : str → str → Q) (font : str)
    (maxWidthPx : num) (s : list str * str) : Prop :=
  Forall (goodLine measureTextPx font maxWidthPx) s.1
  ∧ (s.2 = [] ∨ (trim s.2 = s.2
                 ∧ fits measureTextPx font maxWidthPx s.2 = true)).

(** A token: not empty and without white space. *)
Definition tokenOk (t : str) : Prop :=
  t ≠ [] ∧ ∀ c, c ∈ t → is_space c = false.

(** The objects of the store for the tree [t] when its root is the
    object number [i]: the nodes in preorder, each with the numbers of
    its children. *)
Fixpoint objs (t : Node) (i : nat) : list Obj :=
  match t with
  | mkNode txt cs =>
    mkObj txt (childIds cs (S i))
      :: (fix forest (cs : list Node) (j : nat) : list Obj :=
            match cs with
            | [] => []
            | k :: r => objs k j ++ forest r (j + size k)
            end) cs (S i)
  end.

Fixpoint objsF (cs : list Node) (j : nat) : list Obj :=
  match cs with
  | [] => []
  | k :: r => objs k j ++ objsF r (j + size k)
  end.

(** The open nodes of the parser, from the virtual root down to the
    node of the last line: each with its level, its label and those of
    its children that are complete. *)
Abbreviation Spine := (list (Z * str * list Node)).

(** The tree that a spine stands for (a list of at most one tree). *)
Fixpoint closeSpine (sp : Spine) : list Node :=
  match sp with
  | [] => []
  | (_, txt, kids) :: deeper => [mkNode txt (kids ++ closeSpine deeper)]
  end.

(** The stack of the parser for a spine whose first node is the object
    number [i]; [acc] holds the entries of the nodes above. *)
Fixpoint spineStack (i : nat) (sp : Spine) (acc : list (Z * nat))
    : list (Z * nat) :=
  match sp with
  | [] => acc
  | (l, _, kids) :: deeper =>
    spineStack (S i + list_sum (map size kids)) deeper ((l, i) :: acc)
  end.

(** The number of objects of a spine. *)
Definition spineLen (sp : Spine) : nat :=
  list_sum (map (λ e : Z * str * list Node, S (list_sum (map size e.2))) sp).

(** What holds of the state of the loop of the parser: the store is the
    tree of a spine in preorder, and the stack is that spine. *)
Definition spineInv (s : Store * list (Z * nat)) : Prop :=
  ∃ kids deeper,
    s.1 = objsF (closeSpine (((-1)%Z, ROOT_TEXT, kids) :: deeper)) 0
    ∧ s.2 = spineStack 0 (((-1)%Z, ROOT_TEXT, kids) :: deeper) [].

(** A zoom factor within its bounds. *)
Definition zoomOk (z : num) : Prop :=
  ∃ q, z = Fin q ∧ (4 # 10 <= q ∧ q <= 5)%Q.

(** A node inside the frame at [(X, Y)] of size [W] by [H]: its four
    edges are at least 32 after the start of the frame and more than 31
    before its end. *)
Definition inFrame (X Y W H : Z) (p : PositionedNode) : Prop :=
  ∃ x y w h, px p = Fin x ∧ py p = Fin y ∧ pw p = Fin w ∧ ph p = Fin h
    ∧ (inject_Z X + 32 <= x ∧ x + 31 < inject_Z X + inject_Z W
       ∧ inject_Z X + 32 <= x + w ∧ x + w + 31 < inject_Z X + inject_Z W
       ∧ inject_Z Y + 32 <= y ∧ y + 31 < inject_Z Y + inject_Z H
       ∧ inject_Z Y + 32 <= y + h ∧ y + h + 31 < inject_Z Y + inject_Z H)%Q.

(** The level of a line: [Math.floor(lead / indentSize)]. *)
Definition lineLevel (indentSize : nat) (l : str) : nat :=
  countLeadingSpaces l / indentSize.

(** The level of the object number [q] of the store of the parser: the
    virtual root has the level [-1], and the object number [k + 1] is
    the node of the line number [k]. *)
Definition objLevel (indentSize : nat) (lines : list str) (q : nat) : Z :=
  match q with
  | 0 => (-1)%Z
  | S k =>
    match lines !! k with
    | Some l => Z.of_nat (lineLevel indentSize l)
    | None => 0%Z
    end
  end.

(** The entries [stk] of the stack, from the top, below an object
    numbered [hi] at level [L]: the top entry is an earlier object at a
    smaller level, every object between the two is at the level [L] at
    least, and so on down to the virtual root. *)
Fixpoint chain (lv : nat → Z) (hi : nat) (L : Z) (stk : list (Z * nat))
    : Prop :=
  match stk with
  | [] => False
  | (l, p) :: rest =>
    p < hi ∧ (l < L)%Z ∧ l = lv p ∧ (∀ q, p < q < hi → (L ≤ lv q)%Z)
    ∧ match p with 0 => rest = [] | _ => chain lv p l rest end
  end.

(** What holds of the state of the parser after [n] lines: the last
    object is on top of the stack, the stack is a chain, and an object
    is among the children of the nearest earlier object at a smaller
    level. *)
Definition parentInv (lv : nat → Z) (n : nat) (s : Store * list (Z * nat))
    : Prop :=
  length s.1 = S n
  ∧ (∃ rest, s.2 = (lv n, n) :: rest
             ∧ match n with 0 => rest = [] | _ => chain lv n (lv n) rest end)
  ∧ ∀ p c, c ≤ n → p < c → (lv p < lv c)%Z →
           (∀ q, p < q < c → (lv c ≤ lv q)%Z) →
           ∃ o, s.1 !! p = Some o ∧ c ∈ ochildren o.



(** * Properties *)

(** ** Strings *)

Lemma trimStart_spec (s : str) :
  trimStart s = [] ∨ ∃ c r, trimStart s = c :: r ∧ is_space c = false.
Proof.
  induction s as [|c r IH]; simpl; [by left|].
  destruct (is_space c) eqn:E; [exact IH|]. right. by exists c, r.
Qed.

Lemma trimStart_nonspace (c : char) (r : str) :
  is_space c = false → trimStart (c :: r) = c :: r.
Proof. intros E. simpl. by rewrite E. Qed.

Lemma trimStart_spaces (n : nat) (s : str) :
  trimStart (repeat_char SP n ++ s) = trimStart s.
Proof. induction n as [|n IH]; [done|]. exact IH. Qed.

Lemma trimEnd_snoc (s : str) (c : char) :
  is_space c = false → trimEnd (s ++ [c]) = s ++ [c].
Proof.
  intros E. induction s as [|d s IH]; simpl.
  - by rewrite E.
  - rewrite IH. by destruct s.
Qed.

Lemma trimEnd_cons_ne (c : char) (s : str) :
  trimEnd s ≠ [] → trimEnd (c :: s) = c :: trimEnd s.
Proof. intros H. simpl. by destruct (trimEnd s). Qed.

Lemma trimEnd_spec (s : str) :
  trimEnd s = [] ∨ ∃ r c, trimEnd s = r ++ [c] ∧ is_space c = false.
Proof.
  induction s as [|d s IH]; simpl; [by left|].
  destruct IH as [-> | (r & c & -> & E)].
  - destruct (is_space d) eqn:Ed; [by left|]. right. by exists [], d.
  - right. exists (d :: r), c. split; [|done]. by destruct r.
Qed.

Lemma trimEnd_app_fix (p s : str) :
  s ≠ [] → trimEnd s = s → trimEnd (p ++ s) = p ++ s.
Proof.
  intros Hne Hs. destruct (trimEnd_spec s) as [H | (r & c & H & E)].
  - congruence.
  - rewrite Hs in H. subst s. rewrite app_assoc. by apply trimEnd_snoc.
Qed.

Lemma trimEnd_idem (s : str) : trimEnd (trimEnd s) = trimEnd s.
Proof.
  destruct (trimEnd_spec s) as [-> | (r & c & -> & E)]; [done|].
  by apply trimEnd_snoc.
Qed.

Lemma trimEnd_head (s : str) (c : char) (r : str) :
  trimEnd s = c :: r → ∃ r', s = c :: r'.
Proof.
  destruct s as [|d s]; simpl; [done|].
  destruct (trimEnd s); [destruct (is_space d)|]; intros [= <- <-]; eauto.
Qed.

Lemma trimEnd_sublist (s : str) (c : char) : c ∈ trimEnd s → c ∈ s.
Proof.
  induction s as [|d s IH]; simpl; [done|].
  destruct (trimEnd s) eqn:E.
  - destruct (is_space d); [by intros ?%elem_of_nil|].
    intros ->%list_elem_of_singleton. left.
  - intros [->|H]%elem_of_cons; [left|right; by apply IH].
Qed.

Lemma trimStart_sublist (s : str) (c : char) : c ∈ trimStart s → c ∈ s.
Proof.
  induction s as [|d s IH]; simpl; [done|].
  destruct (is_space d); [right; by apply IH|done].
Qed.

Lemma trim_sublist (s : str) (c : char) : c ∈ trim s → c ∈ s.
Proof. intros H. by apply trimStart_sublist, trimEnd_sublist. Qed.

(** A string is trimmed when [trim] leaves it as it is. *)
Lemma trim_idem (s : str) : trim (trim s) = trim s.
Proof.
  unfold trim. destruct (trimStart_spec s) as [-> | (c & r & E & Hc)]; [done|].
  rewrite E. destruct (trimEnd (c :: r)) as [|d r'] eqn:E'; [done|].
  destruct (trimEnd_head _ _ _ E') as [r'' [= <- <-]].
  rewrite trimStart_nonspace by done.
  pose proof (trimEnd_idem (c :: r)) as H. by rewrite E' in H.
Qed.

Lemma trimmed_head (s : str) (c : char) (r : str) :
  trim s = s → s = c :: r → is_space c = false.
Proof.
  intros H ->. unfold trim in H.
  destruct (is_space c) eqn:E; [|done]. exfalso.
  assert (length (trimEnd (trimStart (c :: r))) ≤ length r) as Hl.
  { simpl. rewrite E. clear.
    assert (∀ s : str, length (trimEnd s) ≤ length s) as A.
    { induction s as [|d s IH]; simpl; [done|].
      destruct (trimEnd s); [destruct (is_space d)|]; simpl in *; lia. }
    assert (∀ s : str, length (trimStart s) ≤ length s) as B.
    { induction s as [|d s IH]; simpl; [done|].
      destruct (is_space d); simpl; lia. }
    etrans; [apply A|apply B]. }
  rewrite H in Hl. simpl in Hl. lia.
Qed.

Lemma trimmed_trimEnd (s : str) : trim s = s → trimEnd s = s.
Proof.
  intros H. destruct s as [|c r]; [done|].
  pose proof (trimmed_head _ _ _ H eq_refl) as E.
  unfold trim in H. by rewrite trimStart_nonspace in H.
Qed.

Lemma trim_indented (n : nat) (s : str) :
  trim s = s → trim (repeat_char SP n ++ s) = s.
Proof.
  intros H. unfold trim. rewrite trimStart_spaces.
  destruct s as [|c r]; [done|].
  rewrite trimStart_nonspace by (by eapply trimmed_head).
  by apply trimmed_trimEnd.
Qed.

Lemma countLeadingSpaces_indented (n : nat) (s : str) :
  trim s = s → countLeadingSpaces (repeat_char SP n ++ s) = n.
Proof.
  intros H. unfold repeat_char.
  induction n as [|n IH]; simpl; [|by rewrite IH].
  destruct s as [|c r]; [done|]. simpl.
  pose proof (trimmed_head _ _ _ H eq_refl) as E.
  destruct (N.eqb_spec c SP) as [->|]; [done|done].
Qed.

(** [split] and [join] *)

Lemma split_nonempty (sep : char) (s : str) : split sep s ≠ [].
Proof.
  destruct s as [|c r]; simpl; [done|].
  destruct (c =? sep)%N; [done|]. by destruct (split sep r).
Qed.

Lemma split_no_sep (sep : char) (s : str) :
  Forall (λ l, sep ∉ l) (split sep s).
Proof.
  induction s as [|c r IH]; simpl.
  - constructor; [apply not_elem_of_nil|constructor].
  - destruct (N.eqb_spec c sep) as [->|Hne].
    + constructor; [apply not_elem_of_nil|done].
    + destruct (split sep r) as [|l ls]; inversion IH; subst.
      * constructor; [|constructor]. by intros ->%list_elem_of_singleton.
      * constructor; [|done]. intros [->|?]%elem_of_cons; done.
Qed.

Lemma split_elem (sep : char) (s l : str) (c : char) :
  l ∈ split sep s → c ∈ l → c ∈ s.
Proof.
  revert l. induction s as [|d r IH]; simpl; intros l Hl Hc.
  - apply list_elem_of_singleton in Hl as ->. done.
  - destruct (d =? sep)%N.
    + apply elem_of_cons in Hl as [->|Hl]; [by apply elem_of_nil in Hc|].
      right. by eapply IH.
    + destruct (split sep r) as [|l0 ls] eqn:E.
      * apply list_elem_of_singleton in Hl as ->.
        apply list_elem_of_singleton in Hc as ->. left.
      * apply elem_of_cons in Hl as [->|Hl].
        -- apply elem_of_cons in Hc as [->|Hc]; [left|right].
           eapply IH; [left|done].
        -- right. eapply IH; [by right|done].
Qed.

Lemma split_single (sep : char) (l : str) : sep ∉ l → split sep l = [l].
Proof.
  induction l as [|c r IH]; simpl; [done|]. intros H.
  apply not_elem_of_cons in H as [Hc Hr].
  destruct (N.eqb_spec c sep); [done|]. by rewrite IH.
Qed.

Lemma split_app (sep : char) (l s : str) :
  sep ∉ l → split sep (l ++ sep :: s) = l :: split sep s.
Proof.
  induction l as [|c r IH]; simpl; intros H.
  - by rewrite N.eqb_refl.
  - apply not_elem_of_cons in H as [Hc Hr].
    destruct (N.eqb_spec c sep); [done|]. by rewrite IH.
Qed.

Lemma split_join (sep : char) (ls : list str) :
  ls ≠ [] → Forall (λ l, sep ∉ l) ls → split sep (join [sep] ls) = ls.
Proof.
  induction ls as [|l ls IH]; [done|]. intros _ H.
  inversion H as [|? ? Hl Hls]; subst.
  destruct ls as [|l' ls]; simpl.
  - by apply split_single.
  - rewrite split_app by done. f_equal. by apply IH.
Qed.

Lemma expandTabs_id (n : nat) (s : str) : TAB ∉ s → expandTabs n s = s.
Proof.
  induction s as [|c r IH]; [done|]. intros H.
  apply not_elem_of_cons in H as [Hc Hr]. unfold expandTabs in *. simpl.
  destruct (N.eqb_spec c TAB); [done|]. simpl. by rewrite IH.
Qed.

Lemma expandTabs_no_tab (n : nat) (s : str) : TAB ∉ expandTabs n s.
Proof.
  induction s as [|c r IH]; unfold expandTabs in *; simpl.
  - apply not_elem_of_nil.
  - intros [H|H]%elem_of_app; [|done].
    destruct (N.eqb_spec c TAB).
    + apply elem_of_replicate in H as [H _]. done.
    + apply list_elem_of_singleton in H. done.
Qed.

(** ** The store of the parser *)

Lemma Node_ind' (P : Node → Prop) :
  (∀ t cs, Forall P cs → P (mkNode t cs)) → ∀ n, P n.
Proof.
  intros H. fix IH 1. intros [t cs]. apply H.
  induction cs as [|c cs IHcs]; constructor; [apply IH|apply IHcs].
Qed.

Lemma popWhile_suffix (level : Z) (stack : list (Z * nat)) :
  popWhile level stack `suffix_of` stack.
Proof.
  induction stack as [|[l i] rest IH]; simpl; [done|].
  destruct (level <=? l)%Z; [by apply suffix_cons_r|done].
Qed.

Lemma pushChild_length (p c : nat) (st : Store) :
  length (pushChild p c st) = length st.
Proof. unfold pushChild. by rewrite length_alter. Qed.

Lemma pushChild_lookup_eq (p c : nat) (st : Store) (o : Obj) :
  st !! p = Some o →
  pushChild p c st !! p = Some (mkObj (otext o) (ochildren o ++ [c])).
Proof. intros H. unfold pushChild. by rewrite list_lookup_alter_eq, H. Qed.

Lemma pushChild_lookup_ne (p c i : nat) (st : Store) :
  p ≠ i → pushChild p c st !! i = st !! i.
Proof. intros H. unfold pushChild. by rewrite list_lookup_alter_ne. Qed.

Lemma parent_lt (st : Store) (stack : list (Z * nat)) (level : Z) :
  0 < length st → stack_ok st stack →
  match popWhile level stack with (_, p) :: _ => p | [] => 0 end < length st.
Proof.
  intros H0 Hs. pose proof (popWhile_suffix level stack) as [k Hk].
  destruct (popWhile level stack) as [|[l p] rest]; [done|].
  unfold stack_ok in Hs. rewrite Hk in Hs.
  apply Forall_app in Hs as [_ Hs]. by inversion Hs.
Qed.

Lemma parseStep_inv (P : str → Prop) (indentSize : nat)
    (s : Store * list (Z * nat)) (raw : str) :
  parse_inv P s → P (trim raw) → parse_inv P (parseStep indentSize s raw).
Proof.
  destruct s as [st stack]. intros [H0 Hwf Hst Hl] HP. simpl in *.
  pose proof (parent_lt st stack
    (Z.of_nat (countLeadingSpaces raw / indentSize)) H0 Hst) as Hp.
  pose proof (popWhile_suffix
    (Z.of_nat (countLeadingSpaces raw / indentSize)) stack) as [k Hk].
  set (stack' := popWhile _ stack) in *.
  set (p := match stack' with (_, p) :: _ => p | [] => 0 end) in *.
  split; simpl.
  - rewrite pushChild_length, length_app. simpl. lia.
  - intros i o Hi. rewrite pushChild_length, length_app. simpl.
    destruct (decide (p = i)) as [<-|Hne].
    + assert (is_Some (st !! p)) as [o' Ho'] by by apply lookup_lt_is_Some.
      erewrite pushChild_lookup_eq in Hi
        by (rewrite lookup_app_l by done; exact Ho').
      injection Hi as <-. simpl. apply Forall_app. split.
      * eapply Forall_impl; [by apply (Hwf p o')|]. simpl. lia.
      * repeat constructor; lia.
    + rewrite pushChild_lookup_ne in Hi by done.
      apply lookup_app_Some in Hi as [Hi | [Hge Hi]].
      * eapply Forall_impl; [by apply (Hwf i o)|]. simpl. lia.
      * apply list_lookup_singleton_Some in Hi as [_ <-]. constructor.
  - constructor; simpl.
    + rewrite pushChild_length, length_app. simpl. lia.
    + unfold stack_ok in *. rewrite Hk in Hst.
      apply Forall_app in Hst as [_ Hst].
      eapply Forall_impl; [exact Hst|]. intros e He.
      rewrite pushChild_length, length_app. simpl in *. lia.
  - intros i o Hi.
    destruct (decide (p = S i)) as [Hp'|Hne].
    + assert (is_Some (st !! p)) as [o' Ho'] by by apply lookup_lt_is_Some.
      rewrite <- Hp' in Hi.
      erewrite pushChild_lookup_eq in Hi
        by (rewrite lookup_app_l by done; exact Ho').
      injection Hi as <-. simpl. apply (Hl i). by rewrite <- Hp'.
    + rewrite pushChild_lookup_ne in Hi by done.
      apply lookup_app_Some in Hi as [Hi | [Hge Hi]]; [by apply (Hl i)|].
      apply list_lookup_singleton_Some in Hi as [_ <-]. done.
Qed.

Lemma parse_foldl_inv (P : str → Prop) (indentSize : nat) (lines : list str)
    (s : Store * list (Z * nat)) :
  parse_inv P s → Forall (λ raw, P (trim raw)) lines →
  parse_inv P (foldl (parseStep indentSize) s lines).
Proof.
  revert s. induction lines as [|raw lines IH]; intros s Hs Hl; [done|].
  inversion Hl; subst. simpl. apply IH; [|done]. by apply parseStep_inv.
Qed.

Lemma parse_init_inv (P : str → Prop) :
  parse_inv P ([mkObj ROOT_TEXT []], [((-1)%Z, 0)]).
Proof.
  split; simpl.
  - lia.
  - intros [|i] o; [intros [= <-]; constructor|done].
  - repeat constructor.
  - intros i o. done.
Qed.

Lemma readNode_total (st : Store) :
  wf_store st →
  ∀ fuel i, i < length st → length st ≤ fuel + i →
            is_Some (readNode fuel st i).
Proof.
  intros Hwf. induction fuel as [|fuel IH]; intros i Hi Hf; [lia|].
  simpl. destruct (lookup_lt_is_Some_2 st i Hi) as [o Ho]. rewrite Ho. simpl.
  assert (is_Some (mapM (readNode fuel st) (ochildren o))) as [cs ->]; [|done].
  apply mapM_is_Some. eapply Forall_impl; [by apply (Hwf i o)|].
  intros c Hc. simpl in *. apply IH; lia.
Qed.

Lemma readNode_labels (P : str → Prop) (st : Store) :
  wf_store st → labels_ok P st →
  ∀ fuel i t, 0 < i → readNode fuel st i = Some t →
              Forall (λ n, P (text n)) (subnodes t).
Proof.
  intros Hwf Hl. induction fuel as [|fuel IH]; intros i t Hi Hr; [done|].
  simpl in Hr. destruct (st !! i) as [o|] eqn:Ho; [|done]. simpl in Hr.
  destruct (mapM (readNode fuel st) (ochildren o)) as [cs|] eqn:Hcs; [|done].
  injection Hr as <-. simpl. constructor.
  - simpl. destruct i as [|i]; [lia|]. by apply (Hl i).
  - apply mapM_Some in Hcs. pose proof (Hwf i o Ho) as Hc.
    revert Hcs Hc. generalize (ochildren o). intros ids Hcs Hc.
    induction Hcs as [|c t' ids cs Hct _ IHc]; simpl; [constructor|].
    inversion Hc; subst. apply Forall_app. split; [|by apply IHc].
    apply (IH c); [lia|done].
Qed.

Lemma parseLines_spec (input : str) (indentSize : nat) (raw : str) :
  raw ∈ parseLines input indentSize →
  trim raw ≠ [] ∧ (NL ∉ raw) ∧ (TAB ∉ raw).
Proof.
  unfold parseLines. intros [Hf Hin]%list_elem_of_filter.
  apply list_elem_of_fmap in Hin as (l & -> & Hin). split; [|split].
  - intros E. rewrite E in Hf. done.
  - intros H%trimEnd_sublist.
    pose proof (split_no_sep NL (expandTabs indentSize input)) as Hs.
    rewrite Forall_forall in Hs. by apply (Hs l).
  - intros H%trimEnd_sublist. eapply expandTabs_no_tab, split_elem; done.
Qed.

Lemma parse_total_labels (input : str) (indentSize : nat) :
  ∃ roots, parseIndentedTree input indentSize = Some roots
           ∧ Forall (λ n, label_wf (text n)) (nodes_of roots).
Proof.
  unfold parseIndentedTree, parseState.
  pose proof (parse_foldl_inv label_wf indentSize (parseLines input indentSize)
                _ (parse_init_inv label_wf)) as Hinv.
  destruct Hinv as [H0 Hwf Hst Hl].
  { apply Forall_forall. intros raw (Hne & Hnl & Htab)%parseLines_spec.
    split; [done|]. split; [apply trim_idem|].
    split; intros ?%trim_sublist; done. }
  set (st := (foldl _ _ _).1) in *.
  destruct (lookup_lt_is_Some_2 st 0 H0) as [o Ho]. rewrite Ho. simpl.
  assert (Forall (λ c, ∃ t, readNode (length st) st c = Some t
                            ∧ Forall (λ n, label_wf (text n)) (subnodes t))
                 (ochildren o)) as Hc.
  { eapply Forall_impl; [by apply (Hwf 0 o)|]. intros c Hc. simpl in Hc.
    destruct (readNode_total st Hwf (length st) c) as [t Ht]; [lia..|].
    exists t. split; [done|].
    eapply (readNode_labels label_wf); [done..| |exact Ht]. lia. }
  clear Ho. induction Hc as [|c cs (t & Ht & Hlab) _ (roots & Hr & Hn)].
  - exists []. split; [done|constructor].
  - exists (t :: roots). split.
    + simpl. rewrite Ht. simpl. simpl in Hr. by rewrite Hr.
    + unfold nodes_of. simpl. apply Forall_app. done.
Qed.

(** ** The lines of the renderer *)

Lemma render_loop_eq (childPrefix : str) (cs : list Node) (out : list str) :
  (fix loop (cs : list Node) (out : list str) : list str :=
     match cs with
     | [] => out
     | child :: rest =>
       let childIsLast := match rest with [] => true | _ => false end in
       let out := render child childPrefix childIsLast out in
       let out := if childIsLast then out
                  else out ++ [childPrefix ++ [BAR]] in
       loop rest out
     end) cs out = renderChildren cs childPrefix out.
Proof.
  revert out. induction cs as [|c cs IH]; intros out; [done|].
  simpl. by rewrite IH.
Qed.

Lemma render_unfold (t : str) (cs : list Node) (prefix : str) (isLast : bool)
    (out : list str) :
  render (mkNode t cs) prefix isLast out =
  match cs with
  | [] => out ++ [prefix ++ connector isLast ++ t]
  | _ => renderChildren cs (childPrefixOf prefix isLast)
           ((out ++ [prefix ++ connector isLast ++ t])
              ++ [childPrefixOf prefix isLast ++ [BAR]])
  end.
Proof.
  destruct cs as [|c cs]; [done|]. rewrite <- render_loop_eq. done.
Qed.

Lemma renderChildren_app_aux (cs : list Node) (cp : str) :
  Forall (λ c, ∀ p l out, render c p l out = out ++ render c p l []) cs →
  ∀ out, renderChildren cs cp out = out ++ renderChildren cs cp [].
Proof.
  induction 1 as [|c cs Hc _ IH]; intros out; [by rewrite app_nil_r|].
  simpl. rewrite IH. symmetry. rewrite IH. symmetry.
  rewrite (Hc _ _ out). destruct cs; by rewrite <- ?app_assoc.
Qed.

Lemma render_app (n : Node) :
  ∀ prefix isLast out,
    render n prefix isLast out = out ++ render n prefix isLast [].
Proof.
  induction n as [t cs IH] using Node_ind'. intros prefix isLast out.
  rewrite !render_unfold. destruct cs as [|c cs]; [done|].
  rewrite renderChildren_app_aux by done. symmetry.
  rewrite renderChildren_app_aux by done. by rewrite <- !app_assoc.
Qed.

Lemma renderChildren_app (cs : list Node) (cp : str) (out : list str) :
  renderChildren cs cp out = out ++ renderChildren cs cp [].
Proof.
  apply renderChildren_app_aux, Forall_forall. intros c _. apply render_app.
Qed.

Lemma renderChildren_cons (c : Node) (cs : list Node) (cp : str) :
  renderChildren (c :: cs) cp [] =
  render c cp (match cs with [] => true | _ => false end) []
    ++ match cs with
       | [] => []
       | _ => [cp ++ [BAR]] ++ renderChildren cs cp []
       end.
Proof.
  change (renderChildren (c :: cs) cp [])
    with (renderChildren cs cp
            (if match cs with [] => true | _ => false end
             then render c cp (match cs with [] => true | _ => false end) []
             else render c cp (match cs with [] => true | _ => false end) []
                    ++ [cp ++ [BAR]])).
  rewrite renderChildren_app.
  destruct cs; [done|]. by rewrite <- app_assoc.
Qed.

Lemma render_nil (t : str) (cs : list Node) (prefix : str) (isLast : bool) :
  render (mkNode t cs) prefix isLast [] =
  (prefix ++ connector isLast ++ t)
    :: match cs with
       | [] => []
       | _ => (childPrefixOf prefix isLast ++ [BAR])
                :: renderChildren cs (childPrefixOf prefix isLast) []
       end.
Proof.
  rewrite render_unfold. destruct cs as [|c cs]; [done|].
  by rewrite renderChildren_app.
Qed.

Lemma renderRootChildren_app (cs : list Node) (out : list str) :
  renderRootChildren cs out = out ++ renderRootChildren cs [].
Proof.
  revert out. induction cs as [|c cs IH]; intros out; [by rewrite app_nil_r|].
  simpl. rewrite IH. symmetry. rewrite IH. symmetry.
  rewrite (render_app c _ _ out). by rewrite <- app_assoc.
Qed.

Lemma renderRootChildren_cons (c : Node) (cs : list Node) :
  renderRootChildren (c :: cs) [] =
  render c [] (match cs with [] => true | _ => false end) []
    ++ renderRootChildren cs [].
Proof. simpl. by rewrite renderRootChildren_app. Qed.

Lemma renderRoots_step (r : Node) (rest : list Node) (out : list str) :
  renderRoots (r :: rest) out = renderRoots rest (out ++ rootLines r rest).
Proof.
  change (renderRoots (r :: rest) out) with
    (renderRoots rest
       (let out1 := match children r with
                    | [] => out ++ [text r]
                    | cs => renderRootChildren cs ((out ++ [text r]) ++ [[BAR]])
                    end in
        match rest with [] => out1 | _ => out1 ++ [[]] end)).
  f_equal. unfold rootLines.
  destruct (children r) as [|c cs].
  - destruct rest; simpl; by rewrite <- ?app_assoc, ?app_nil_r.
  - rewrite (renderRootChildren_app (c :: cs)).
    rewrite (renderRootChildren_app (c :: cs) []).
    destruct rest; simpl; by rewrite <- ?app_assoc, ?app_nil_r.
Qed.

Lemma renderRoots_app (nodes : list Node) (out : list str) :
  renderRoots nodes out = out ++ renderRoots nodes [].
Proof.
  revert out. induction nodes as [|r rest IH]; intros out;
    [by rewrite app_nil_r|].
  rewrite !renderRoots_step. rewrite IH. symmetry. rewrite IH.
  by rewrite app_assoc.
Qed.

Lemma renderRoots_cons (r : Node) (rest : list Node) :
  renderRoots (r :: rest) [] = rootLines r rest ++ renderRoots rest [].
Proof. rewrite renderRoots_step. by rewrite renderRoots_app. Qed.

(** ** The importer, line by line *)

Lemma elem_trimStart (s : str) (c : char) :
  c ∈ s → is_space c = false → c ∈ trimStart s.
Proof.
  intros H E. induction s as [|d s IH]; simpl; [done|].
  destruct (is_space d) eqn:Ed; [|done].
  apply elem_of_cons in H as [->|H]; [congruence|by apply IH].
Qed.

Lemma elem_trimEnd (s : str) (c : char) :
  c ∈ s → is_space c = false → c ∈ trimEnd s.
Proof.
  intros H E. induction s as [|d s IH]; simpl; [done|].
  apply elem_of_cons in H as [->|H].
  - rewrite E. destruct (trimEnd s); left.
  - specialize (IH H). destruct (trimEnd s); [by apply elem_of_nil in IH|].
    by right.
Qed.

Lemma elem_trim (s : str) (c : char) :
  c ∈ s → is_space c = false → c ∈ trim s.
Proof. intros H E. apply elem_trimEnd; [by apply elem_trimStart|done]. Qed.

Lemma forallb_elem_false {A} (f : A → bool) (l : list A) (x : A) :
  x ∈ l → f x = false → forallb f l = false.
Proof.
  intros H E. induction l as [|y l IH]; [by apply elem_of_nil in H|].
  simpl. apply elem_of_cons in H as [->|H]; [by rewrite E|].
  rewrite IH by done. apply andb_false_r.
Qed.

Lemma starts_with_app (p s : str) : starts_with p (p ++ s) = true.
Proof. induction p as [|c p IH]; [done|]. simpl. by rewrite N.eqb_refl. Qed.

Lemma indexOf_head (p s : str) : starts_with p s = true → indexOf p s = 0%Z.
Proof. intros H. destruct s; simpl; by rewrite H. Qed.

Lemma indexOf_range (p s : str) :
  indexOf p s = (-1)%Z ∨ (0 ≤ indexOf p s)%Z.
Proof.
  induction s as [|c s IH]; simpl.
  - destruct (starts_with p []); [by right|by left].
  - destruct (starts_with p (c :: s)); [by right|].
    destruct (Z.ltb_spec (indexOf p s) 0); [by left|right; lia].
Qed.

(** A prefix without the first character of the pattern is skipped. *)
Lemma indexOf_skip (c : char) (p pre s : str) :
  c ∉ pre →
  indexOf (c :: p) (pre ++ s) =
  if (indexOf (c :: p) s <? 0)%Z then (-1)%Z
  else (indexOf (c :: p) s + Z.of_nat (length pre))%Z.
Proof.
  intros H. induction pre as [|d pre IH].
  - simpl. destruct (indexOf_range (c :: p) s) as [->|H0]; [done|].
    destruct (Z.ltb_spec (indexOf (c :: p) s) 0); lia.
  - apply not_elem_of_cons in H as [Hd Hpre].
    change (indexOf (c :: p) ((d :: pre) ++ s)) with
      (if starts_with (c :: p) (d :: pre ++ s) then 0%Z
       else let i := indexOf (c :: p) (pre ++ s) in
            if (i <? 0)%Z then (-1)%Z else (i + 1)%Z).
    simpl starts_with. destruct (N.eqb_spec c d); [done|]. simpl andb. cbv iota.
    rewrite IH by done. cbv zeta.
    destruct (indexOf_range (c :: p) s) as [->|H0]; [done|].
    destruct (Z.ltb_spec (indexOf (c :: p) s) 0); [lia|].
    destruct (Z.ltb_spec (indexOf (c :: p) s + Z.of_nat (length pre)) 0);
      [lia|]. simpl length. lia.
Qed.

Lemma bars_childPrefix (p : str) (isLast : bool) :
  bars p → bars (childPrefixOf p isLast).
Proof.
  intros H. apply Forall_app. split; [done|].
  destruct isLast; repeat (apply Forall_cons; split; [by auto|]);
    apply Forall_nil_2.
Qed.

Lemma bars_not_elem (p : str) (c : char) : bars p → c ≠ BAR → c ≠ SP → c ∉ p.
Proof.
  intros H H1 H2 Hc. unfold bars in H. rewrite Forall_forall in H.
  destruct (H c Hc); congruence.
Qed.

Lemma importLine_blank (indentSize : nat) (out : list str) :
  importLine indentSize out [] = out ++ [[]].
Proof. done. Qed.

Lemma importLine_bar (indentSize : nat) (out : list str) (cp : str) :
  bars cp → importLine indentSize out (cp ++ [BAR]) = out.
Proof.
  intros H. unfold importLine.
  assert (BAR ∈ trim (cp ++ [BAR])) as Hin.
  { apply elem_trim; [|done]. apply elem_of_app. right. left. }
  destruct (trim (cp ++ [BAR])) as [|c r] eqn:E; [by apply elem_of_nil in Hin|].
  simpl length. simpl Nat.eqb. cbv iota.
  assert (isConnectorOnly (c :: r) = true) as ->; [|done].
  unfold isConnectorOnly. apply andb_true_iff. split; [done|].
  apply forallb_forall. intros x Hx%list_elem_of_In. rewrite <- E in Hx.
  apply trim_sublist, elem_of_app in Hx as [Hx|Hx%list_elem_of_singleton].
  - unfold bars in H. rewrite Forall_forall in H.
    destruct (H x Hx) as [->| ->]; done.
  - by subst.
Qed.

Lemma importLine_root (indentSize : nat) (out : list str) (lab : str) :
  lab ≠ [] → trim lab = lab → isConnectorOnly lab = false →
  hasMarker lab = false →
  importLine indentSize out lab = out ++ [lab].
Proof.
  intros Hne Ht Hc Hm. unfold importLine. rewrite Ht, Hc.
  destruct lab as [|c r]; [done|]. simpl length. simpl Nat.eqb. cbv iota.
  unfold hasMarker in Hm. apply orb_false_iff in Hm as [HA HB].
  unfold markerIndex. rewrite HA.
  apply Z.leb_gt in HB. apply Z.ltb_lt in HB. by rewrite HB.
Qed.

Lemma markerIndex_label (p lab : str) (isLast : bool) :
  bars p → hasMarker lab = false →
  markerIndex (p ++ connector isLast ++ lab) = Z.of_nat (length p).
Proof.
  intros Hp Hm. unfold hasMarker in Hm. apply orb_false_iff in Hm as [HA HB].
  apply Z.leb_gt in HA, HB. unfold markerIndex.
  destruct isLast; unfold connector; unfold CONN_MID, CONN_LAST in *.
  - assert (indexOf [TEE; DASH; SP] (p ++ [ELL; DASH; SP] ++ lab) = (-1)%Z)
      as ->.
    { rewrite app_assoc, indexOf_skip.
      - destruct (Z.ltb_spec (indexOf [TEE; DASH; SP] lab) 0); [done|lia].
      - intros [H|H]%elem_of_app.
        + by apply (bars_not_elem p TEE) in H.
        + by repeat apply elem_of_cons in H as [H|H];
            [..|by apply elem_of_nil in H]. }
    simpl Z.leb. cbv iota. rewrite indexOf_skip.
    + rewrite indexOf_head by apply starts_with_app. simpl. lia.
    + by apply bars_not_elem.
  - assert (indexOf [TEE; DASH; SP] (p ++ [TEE; DASH; SP] ++ lab)
            = Z.of_nat (length p)) as ->.
    { rewrite indexOf_skip.
      + rewrite indexOf_head by apply starts_with_app. simpl. lia.
      + by apply bars_not_elem. }
    destruct (Z.leb_spec 0 (Z.of_nat (length p))); [done|lia].
Qed.

Lemma importLine_label (indentSize : nat) (out : list str) (p lab : str)
    (isLast : bool) (k : nat) :
  bars p → length p = 3 * k →
  lab ≠ [] → trim lab = lab → hasMarker lab = false →
  importLine indentSize out (p ++ connector isLast ++ lab)
  = out ++ [repeat_char SP (S k * indentSize) ++ lab].
Proof.
  intros Hp Hk Hne Ht Hm. unfold importLine.
  set (line := p ++ connector isLast ++ lab).
  assert (∃ c, c ∈ line ∧ is_space c = false ∧ (c =? BAR)%N = false)
    as (c & Hc & Hsp & Hbar).
  { exists (if isLast then ELL else TEE). split; [|by destruct isLast].
    apply elem_of_app. right. apply elem_of_app. left.
    destruct isLast; left. }
  pose proof (elem_trim _ _ Hc Hsp) as Hct.
  destruct (trim line) as [|d r] eqn:E; [by apply elem_of_nil in Hct|].
  simpl length. simpl Nat.eqb. cbv iota.
  assert (isConnectorOnly (d :: r) = false) as ->.
  { unfold isConnectorOnly. apply andb_false_iff. right.
    eapply forallb_elem_false; [exact Hct|]. by rewrite Hbar, Hsp. }
  unfold line. rewrite markerIndex_label by done.
  destruct (Z.ltb_spec (Z.of_nat (length p)) 0); [lia|].
  unfold slice_to, slice_from. rewrite Nat2Z.id.
  replace (Z.to_nat (Z.of_nat (length p) + 3)) with (length p + 3) by lia.
  rewrite take_app_length.
  rewrite <- drop_drop, drop_app_length.
  replace (drop 3 (connector isLast ++ lab)) with lab by by destruct isLast.
  rewrite Ht. do 3 f_equal. rewrite Hk.
  replace (Z.of_nat (3 * k)) with (Z.of_nat k * 3)%Z by lia.
  rewrite Z.div_mul by done. do 2 f_equal. lia.
Qed.

(** ** The importer on the lines of the renderer *)

Lemma tree_ok_node (P : str → Prop) (t : str) (cs : list Node) :
  tree_ok P (mkNode t cs) ↔ P t ∧ Forall (tree_ok P) cs.
Proof.
  unfold tree_ok. simpl. rewrite Forall_cons. simpl.
  apply and_iff_compat_l. induction cs as [|c cs IH]; simpl.
  - split; constructor.
  - rewrite Forall_app, Forall_cons, IH. done.
Qed.

Lemma forest_ok_nodes (P : str → Prop) (roots : list Node) :
  Forall (λ n, P (text n)) (nodes_of roots) ↔ Forall (tree_ok P) roots.
Proof.
  unfold nodes_of. induction roots as [|r roots IH]; simpl.
  - split; constructor.
  - rewrite Forall_app, Forall_cons, IH. done.
Qed.

Lemma foldl_step {A B} (f : A → B → A) (a : A) (x : B) (l : list B) :
  foldl f a (x :: l) = foldl f (f a x) l.
Proof. done. Qed.

Section ImportRender.

Variable indentSize : nat.

Lemma import_children (cs : list Node) (cp : str) (k : nat) :
  Forall (λ c, ∀ p isLast k out, bars p → length p = 3 * k →
               foldl (importLine indentSize) out (render c p isLast [])
               = out ++ ilines indentSize (S k) c) cs →
  bars cp → length cp = 3 * k →
  ∀ out, foldl (importLine indentSize) out (renderChildren cs cp [])
         = out ++ flat_map (ilines indentSize (S k)) cs.
Proof.
  intros Hcs Hb Hk. induction Hcs as [|c cs Hc _ IH]; intros out.
  - by rewrite app_nil_r.
  - rewrite renderChildren_cons, foldl_app, (Hc cp _ k) by done.
    simpl flat_map. rewrite app_assoc. destruct cs as [|c' cs]; [done|].
    rewrite foldl_app, foldl_step, importLine_bar by done.
    apply IH.
Qed.

Lemma import_render (t : Node) :
  tree_ok label_imp t →
  ∀ p isLast k out, bars p → length p = 3 * k →
    foldl (importLine indentSize) out (render t p isLast [])
    = out ++ ilines indentSize (S k) t.
Proof.
  induction t as [txt cs IH] using Node_ind'.
  intros [(Hne & Ht & Hm) Hcs]%tree_ok_node p isLast k out Hb Hk.
  rewrite render_nil, foldl_step, (importLine_label _ _ _ _ _ k) by done.
  change (ilines indentSize (S k) (mkNode txt cs)) with
    ([repeat_char SP (S k * indentSize) ++ txt]
       ++ flat_map (ilines indentSize (S (S k))) cs).
  rewrite (app_assoc out).
  destruct cs as [|c cs]; [by rewrite app_nil_r|].
  rewrite foldl_step, importLine_bar by by apply bars_childPrefix.
  apply (import_children _ _ (S k)).
  - rewrite Forall_forall in IH, Hcs. apply Forall_forall.
    intros c' Hc'. apply IH; [done|]. by apply Hcs.
  - by apply bars_childPrefix.
  - unfold childPrefixOf. rewrite length_app. destruct isLast; simpl; lia.
Qed.

Lemma import_root_children (cs : list Node) (out : list str) :
  Forall (tree_ok label_imp) cs →
  foldl (importLine indentSize) out (renderRootChildren cs [])
  = out ++ flat_map (ilines indentSize 1) cs.
Proof.
  intros Hcs. revert out. induction Hcs as [|c cs Hc _ IH]; intros out.
  - by rewrite app_nil_r.
  - rewrite renderRootChildren_cons, foldl_app.
    rewrite (import_render c Hc [] _ 0) by (done || constructor).
    rewrite IH. simpl. by rewrite app_assoc.
Qed.

Lemma import_roots (roots : list Node) (out : list str) :
  Forall root_ok roots →
  foldl (importLine indentSize) out (renderRoots roots [])
  = out ++ olines indentSize roots.
Proof.
  intros Hr. revert out. induction Hr as [|r rest [Hc Hok] _ IH]; intros out.
  - by rewrite app_nil_r.
  - rewrite renderRoots_cons, foldl_app. unfold rootLines.
    rewrite foldl_app. destruct r as [txt cs]. simpl text. simpl children.
    apply tree_ok_node in Hok as [(Hne & Ht & Hm) Hcs]. simpl in Hc.
    rewrite foldl_step, importLine_root by done.
    assert (foldl (importLine indentSize) (out ++ [txt])
              match cs with
              | [] => []
              | n :: l => [BAR] :: renderRootChildren (n :: l) []
              end
            = out ++ ilines indentSize 0 (mkNode txt cs)) as ->.
    { change (ilines indentSize 0 (mkNode txt cs)) with
        ([txt] ++ flat_map (ilines indentSize 1) cs).
      rewrite (app_assoc out).
      destruct cs as [|c cs]; [by rewrite app_nil_r|].
      rewrite foldl_step, (importLine_bar _ _ []) by constructor.
      by apply import_root_children. }
    change (olines indentSize (mkNode txt cs :: rest)) with
      (ilines indentSize 0 (mkNode txt cs)
         ++ match rest with [] => [] | _ => [] :: olines indentSize rest end).
    destruct rest as [|r' rest]; [by rewrite app_nil_r|].
    rewrite foldl_step, importLine_blank, IH.
    change (foldl (importLine indentSize) ?a []) with a.
    by rewrite <- !app_assoc.
Qed.

End ImportRender.

(** ** Lines, joined and split again *)

Lemma normalizeNewlines_id (s : str) :
  NL ∉ s → normalizeNewlines s = s.
Proof.
  induction s as [|c r IH]; [done|]. intros H.
  apply not_elem_of_cons in H as [Hc Hr]. simpl.
  destruct r as [|d r']; [done|].
  apply not_elem_of_cons in Hr as [Hd Hr'].
  destruct (N.eqb_spec d NL) as [->|_]; [done|].
  rewrite andb_false_r. f_equal. apply IH.
  by apply not_elem_of_cons.
Qed.

Lemma normalizeNewlines_line (l rest : str) :
  NL ∉ l → trimEnd l = l →
  normalizeNewlines (l ++ NL :: rest) = l ++ NL :: normalizeNewlines rest.
Proof.
  intros Hnl Ht. induction l as [|c r IH].
  - simpl. by destruct rest.
  - apply not_elem_of_cons in Hnl as [Hc Hr].
    assert (trimEnd r = r) as Hr'.
    { simpl in Ht. destruct (trimEnd r) eqn:E.
      - destruct (is_space c); [done|]. by injection Ht as <-.
      - by injection Ht. }
    change (normalizeNewlines ((c :: r) ++ NL :: rest)) with
      (match r ++ NL :: rest with
       | d :: r' => if (c =? CR)%N && (d =? NL)%N
                    then NL :: normalizeNewlines r'
                    else c :: normalizeNewlines (r ++ NL :: rest)
       | [] => [c]
       end).
    destruct r as [|d r'] eqn:Er.
    + simpl app at 1. cbv iota.
      destruct (N.eqb_spec c CR) as [->|_]; [done|].
      simpl andb. cbv iota. simpl. by destruct rest.
    + simpl app at 1. cbv iota.
      pose proof Hr as [Hd _]%not_elem_of_cons.
      destruct (N.eqb_spec d NL) as [->|_]; [done|].
      rewrite andb_false_r. rewrite <- Er in *. rewrite IH by done. done.
Qed.

Lemma normalizeNewlines_join (ls : list str) :
  Forall line_ok ls → normalizeNewlines (join [NL] ls) = join [NL] ls.
Proof.
  induction 1 as [|l ls [Hnl Ht] _ IH]; [done|].
  destruct ls as [|l' ls].
  - simpl. by apply normalizeNewlines_id.
  - change (join [NL] (l :: l' :: ls)) with (l ++ NL :: join [NL] (l' :: ls)).
    rewrite normalizeNewlines_line by done. by rewrite IH.
Qed.

Lemma import_lines (ls : list str) :
  ls ≠ [] → Forall line_ok ls →
  map trimEnd (split NL (normalizeNewlines (join [NL] ls))) = ls.
Proof.
  intros Hne Hok. rewrite normalizeNewlines_join by done.
  rewrite split_join; [|done|by eapply Forall_impl; [exact Hok|intros ? []]].
  induction Hok as [|l ls [_ Ht] _ IH]; [done|]. simpl. rewrite Ht. f_equal.
  destruct ls; [done|]. by apply IH.
Qed.

Lemma elem_join (sep c : char) (ls : list str) :
  c ∈ join [sep] ls → c = sep ∨ ∃ l, l ∈ ls ∧ c ∈ l.
Proof.
  induction ls as [|l ls IH]; [by intros ?%elem_of_nil|].
  destruct ls as [|l' ls].
  - simpl. intros H. right. exists l. split; [left|done].
  - change (join [sep] (l :: l' :: ls))
      with (l ++ sep :: join [sep] (l' :: ls)).
    intros [H|[->|H]%elem_of_cons]%elem_of_app.
    + right. exists l. split; [left|done].
    + by left.
    + destruct (IH H) as [->|(l0 & Hl0 & Hc)]; [by left|].
      right. exists l0. split; [by right|done].
Qed.

Lemma popBlank_snoc (ls : list str) (l : str) :
  trim l ≠ [] → popBlank (ls ++ [l]) = ls ++ [l].
Proof.
  intros H. induction ls as [|l' ls IH]; simpl.
  - by destruct (trim l).
  - rewrite IH. by destruct ls.
Qed.

Lemma iline_ok_indented (n : nat) (lab : str) :
  label_wf lab → iline_ok (repeat_char SP n ++ lab).
Proof.
  intros (Hne & Ht & Hnl & Htab). repeat split.
  - intros [H|H]%elem_of_app; [|done].
    by apply elem_of_replicate in H as [? _].
  - apply trimEnd_app_fix; [done|]. by apply trimmed_trimEnd.
  - intros [H|H]%elem_of_app; [|done].
    by apply elem_of_replicate in H as [? _].
  - by rewrite trim_indented.
Qed.

Lemma ilines_ok (indentSize : nat) (t : Node) :
  tree_ok label_wf t → ∀ d, Forall iline_ok (ilines indentSize d t).
Proof.
  induction t as [txt cs IH] using Node_ind'.
  intros [Hl Hcs]%tree_ok_node d. simpl. constructor.
  - by apply iline_ok_indented.
  - revert IH. induction Hcs as [|c cs Hc _ IHcs]; intros IH; [constructor|].
    inversion IH; subst. simpl. apply Forall_app. split; [auto|].
    by apply IHcs.
Qed.

Lemma ilines_nonempty (indentSize d : nat) (t : Node) :
  ilines indentSize d t ≠ [].
Proof. by destruct t. Qed.

Lemma olines_ok (indentSize : nat) (roots : list Node) :
  Forall (tree_ok label_wf) roots →
  Forall (λ l, line_ok l ∧ (TAB ∉ l)) (olines indentSize roots).
Proof.
  induction 1 as [|r rest Hr _ IH]; [constructor|].
  simpl. apply Forall_app. split.
  - eapply Forall_impl; [by apply ilines_ok|]. by intros l [? [? _]].
  - destruct rest; [constructor|]. constructor; [|done].
    repeat split; apply not_elem_of_nil.
Qed.

Lemma olines_last (indentSize : nat) (roots : list Node) :
  Forall (tree_ok label_wf) roots → roots ≠ [] →
  ∃ ls l, olines indentSize roots = ls ++ [l] ∧ trim l ≠ [].
Proof.
  induction 1 as [|r rest Hr Hrest IH]; [done|]. intros _.
  destruct rest as [|r' rest].
  - simpl. rewrite app_nil_r.
    pose proof (ilines_ok indentSize r Hr 0) as Hok.
    pose proof (ilines_nonempty indentSize 0 r) as Hne.
    destruct (ilines indentSize 0 r) as [|x l] using rev_ind; [done|].
    apply Forall_app in Hok as [_ Hx]. inversion Hx as [|? ? (_ & _ & ?)].
    by exists l, x.
  - destruct IH as (ls & l & E & Hl); [done|].
    exists (ilines indentSize 0 r ++ [] :: ls), l. split; [|done].
    change (olines indentSize (r :: r' :: rest)) with
      (ilines indentSize 0 r ++ [] :: olines indentSize (r' :: rest)).
    rewrite E. by rewrite <- app_assoc.
Qed.

Lemma olines_parseLines (indentSize : nat) (roots : list Node) :
  Forall (tree_ok label_wf) roots → roots ≠ [] →
  parseLines (join [NL] (olines indentSize roots)) indentSize
  = flat_map (ilines indentSize 0) roots.
Proof.
  intros Hok Hne. unfold parseLines.
  pose proof (olines_ok indentSize roots Hok) as Hl.
  rewrite expandTabs_id.
  2:{ intros [H|(l & Hin & Hc)]%elem_join; [done|].
      rewrite Forall_forall in Hl. by destruct (Hl l Hin) as [_ ?]. }
  rewrite split_join.
  2:{ destruct roots as [|[txt cs] rest]; done. }
  2:{ eapply Forall_impl; [exact Hl|]. by intros l [[? _] _]. }
  clear Hne Hl. induction Hok as [|r rest Hr _ IH]; [done|].
  simpl. rewrite fmap_app, filter_app. f_equal.
  - pose proof (ilines_ok indentSize r Hr 0) as Hi.
    induction Hi as [|l ls ((_ & Ht) & _ & Hb) _ IHi]; [done|].
    rewrite fmap_cons, Ht, filter_cons_True; [by rewrite IHi|].
    destruct (trim l); done.
  - destruct rest as [|r' rest]; [done|].
    rewrite fmap_cons, filter_cons_False by done. apply IH.
Qed.

(** ** The parser on the indented lines of a forest *)

Lemma reads_node (st : Store) (txt : str) (cs : list Node) (i : nat) :
  reads st (mkNode txt cs) i ↔
  ∃ o, st !! i = Some o ∧ otext o = txt
       ∧ Forall2 (λ c j, i < j ∧ reads st c j) cs (ochildren o).
Proof.
  simpl. apply exist_proper. intros o. do 2 apply and_iff_compat_l.
  generalize (ochildren o). induction cs as [|c cs IH]; intros [|j ids].
  - split; [constructor|done].
  - split; [done|inversion 1].
  - split; [done|inversion 1].
  - rewrite IH. split.
    + intros (? & ? & ?). by constructor.
    + inversion 1; subst. tauto.
Qed.

Lemma reads_frame (st st' : Store) (t : Node) :
  ∀ i, reads st t i →
       (∀ j o, i ≤ j → st !! j = Some o → st' !! j = Some o) →
       reads st' t i.
Proof.
  induction t as [txt cs IH] using Node_ind'. intros i Hr Hf.
  apply reads_node in Hr as (o & Ho & Ht & Hcs). apply reads_node.
  exists o. split; [apply Hf; [lia|done]|]. split; [done|].
  clear Ho. induction Hcs as [|c j cs ids [Hij Hc] _ IHcs]; [constructor|].
  inversion IH; subst. constructor; [|by apply IHcs].
  split; [done|]. apply H1; [done|]. intros j' o' Hj'. apply Hf. lia.
Qed.

Lemma reads_readNode (st : Store) (t : Node) :
  ∀ i fuel t', reads st t i → readNode fuel st i = Some t' → t' = t.
Proof.
  induction t as [txt cs IH] using Node_ind'. intros i [|fuel] t' Hr Hn; [done|].
  apply reads_node in Hr as (o & Ho & Ht & Hcs). simpl in Hn.
  rewrite Ho in Hn. simpl in Hn.
  destruct (mapM (readNode fuel st) (ochildren o)) as [cs'|] eqn:Hm; [|done].
  injection Hn as <-. rewrite Ht. f_equal.
  apply mapM_Some in Hm. revert cs' Hm.
  induction Hcs as [|c j cs ids [Hij Hc] _ IHcs]; intros cs' Hm.
  - by inversion Hm.
  - inversion Hm as [|? c' ? cs'' Hc' Hm']; subst. inversion IH; subst.
    f_equal; [by eapply H1|by apply IHcs].
Qed.

Lemma popWhile_extra (level lp : Z) (p : nat) (extra rest : list (Z * nat)) :
  Forall (λ e, (level ≤ e.1)%Z) extra → (lp < level)%Z →
  popWhile level (extra ++ (lp, p) :: rest) = (lp, p) :: rest.
Proof.
  intros He Hlp. induction He as [|[l i] extra Hl _ IH]; simpl in *.
  - destruct (Z.leb_spec level lp); [lia|done].
  - destruct (Z.leb_spec level l); [done|lia].
Qed.

Section ParseForest.

Variable indentSize : nat.
Hypothesis indent_pos : 0 < indentSize.

(** The step of the loop on the line of a node at depth [d]. *)
Lemma parseStep_line (d : nat) (lab : str) (st : Store)
    (extra rest : list (Z * nat)) (lp : Z) (p : nat) :
  label_wf lab →
  Forall (λ e, (Z.of_nat d ≤ e.1)%Z) extra → (lp < Z.of_nat d)%Z →
  parseStep indentSize (st, extra ++ (lp, p) :: rest)
            (repeat_char SP (d * indentSize) ++ lab)
  = (pushChild p (length st) (st ++ [mkObj lab []]),
     (Z.of_nat d, length st) :: (lp, p) :: rest).
Proof using indent_pos.
  intros (Hne & Ht & _) He Hlp. unfold parseStep.
  rewrite countLeadingSpaces_indented, trim_indented by done.
  rewrite Nat.div_mul by lia. by rewrite popWhile_extra.
Qed.

Lemma forest_of_trees (d : nat) (ts : list Node) :
  Forall (tree_parsed indentSize d) ts → forest_parsed indentSize d ts.
Proof using indent_pos.
  induction 1 as [|t ts Ht _ IH]; intros st extra lp p rest op He Hlp Hp.
  - exists st, extra, []. repeat split; [done|done| |done|constructor].
    rewrite app_nil_r. by destruct op.
  - simpl flat_map. rewrite foldl_app.
    destruct (Ht st extra lp p rest op He Hlp Hp)
      as (st1 & extra1 & -> & He1 & Hlen1 & Hp1 & Hf1 & Hr1).
    destruct (IH st1 extra1 lp p rest _ He1 Hlp Hp1)
      as (st2 & extra2 & ids & -> & He2 & Hlen2 & Hp2 & Hf2 & Hr2).
    assert (p < length st) as Hpl by by eapply lookup_lt_Some.
    exists st2, extra2, (length st :: ids).
    repeat split; [done|lia| | |].
    + rewrite Hp2. simpl. by rewrite <- app_assoc.
    + intros j o Hj Hne Ho. apply Hf2; [lia|done|]. by apply Hf1.
    + constructor; [|done]. split; [done|].
      eapply reads_frame; [exact Hr1|]. intros j o Hj Ho.
      apply Hf2; [by eapply lookup_lt_Some|lia|done].
Qed.

Lemma tree_is_parsed (t : Node) :
  tree_ok label_wf t → ∀ d, tree_parsed indentSize d t.
Proof using indent_pos.
  induction t as [txt cs IH] using Node_ind'.
  intros [Hl Hcs]%tree_ok_node d st extra lp p rest op He Hlp Hp.
  assert (p < length st) as Hpl by by eapply lookup_lt_Some.
  change (ilines indentSize d (mkNode txt cs)) with
    ((repeat_char SP (d * indentSize) ++ txt)
       :: flat_map (ilines indentSize (S d)) cs).
  rewrite foldl_step, parseStep_line by done.
  set (n := length st). set (st1 := pushChild p n (st ++ [mkObj txt []])).
  assert (length st1 = S n) as Hlen1.
  { unfold st1. rewrite pushChild_length, length_app. simpl. lia. }
  assert (st1 !! n = Some (mkObj txt [])) as Hn1.
  { unfold st1. rewrite pushChild_lookup_ne by lia.
    rewrite lookup_app_r by done. by rewrite Nat.sub_diag. }
  assert (forest_parsed indentSize (S d) cs) as Hforest.
  { apply forest_of_trees. rewrite Forall_forall in IH, Hcs.
    apply Forall_forall. intros c Hc. apply IH; [done|]. by apply Hcs. }
  destruct (Hforest st1 [] (Z.of_nat d) n ((lp, p) :: rest) _
              (Forall_nil_2 _) ltac:(lia) Hn1)
    as (st2 & extra2 & ids & E & He2 & Hlen2 & Hn2 & Hf2 & Hr2).
  simpl app in E at 1. rewrite E.
  exists st2, (extra2 ++ [(Z.of_nat d, n)]). rewrite <- app_assoc.
  split; [done|]. split; [|split; [lia|split; [|split]]].
  - apply Forall_app. split.
    + eapply Forall_impl; [exact He2|]. simpl. lia.
    + repeat constructor. simpl. lia.
  - apply Hf2; [lia|lia|]. unfold st1.
    erewrite pushChild_lookup_eq; [done|]. by rewrite lookup_app_l.
  - intros j o Hj Hne Ho. apply Hf2; [lia|lia|]. unfold st1.
    rewrite pushChild_lookup_ne by done. by rewrite lookup_app_l.
  - apply reads_node. eexists. split; [exact Hn2|]. split; [done|].
    simpl. exact Hr2.
Qed.

Lemma parse_ilines (roots : list Node) :
  Forall (tree_ok label_wf) roots →
  ∃ st stack ids,
    foldl (parseStep indentSize) ([mkObj ROOT_TEXT []], [((-1)%Z, 0)])
          (flat_map (ilines indentSize 0) roots) = (st, stack)
    ∧ st !! 0 = Some (mkObj ROOT_TEXT ids)
    ∧ Forall2 (λ c j, reads st c j) roots ids.
Proof using indent_pos.
  intros Hok.
  assert (forest_parsed indentSize 0 roots) as Hf.
  { apply forest_of_trees. eapply Forall_impl; [exact Hok|].
    intros t Ht. by apply tree_is_parsed. }
  destruct (Hf [mkObj ROOT_TEXT []] [] (-1)%Z 0 [] (mkObj ROOT_TEXT [])
              (Forall_nil_2 _) ltac:(lia) eq_refl)
    as (st & extra & ids & E & _ & _ & H0 & _ & Hr).
  exists st, (extra ++ [((-1)%Z, 0)]), ids. repeat split; [done|done|].
  eapply Forall2_impl; [exact Hr|]. by intros c j [_ ?].
Qed.

End ParseForest.

(** ** The lines of the renderer keep their shape *)

Lemma line_ok_label (p lab : str) (isLast : bool) :
  bars p → label_wf lab → line_ok (p ++ connector isLast ++ lab).
Proof.
  intros Hp (Hne & Ht & Hnl & _). split.
  - intros [H|[H|H]%elem_of_app]%elem_of_app; [|destruct isLast|done].
    + by apply (bars_not_elem p NL) in H.
    + by repeat apply elem_of_cons in H as [H|H];
        [..|by apply elem_of_nil in H].
    + by repeat apply elem_of_cons in H as [H|H];
        [..|by apply elem_of_nil in H].
  - rewrite app_assoc. apply trimEnd_app_fix; [done|].
    by apply trimmed_trimEnd.
Qed.

Lemma line_ok_bar (cp : str) : bars cp → line_ok (cp ++ [BAR]).
Proof.
  intros Hp. split.
  - intros [H|H%list_elem_of_singleton]%elem_of_app; [|done].
    by apply (bars_not_elem cp NL) in H.
  - by apply trimEnd_snoc.
Qed.

Lemma renderChildren_ok (cs : list Node) (cp : str) :
  Forall (λ c, ∀ p isLast, bars p → Forall line_ok (render c p isLast [])) cs →
  bars cp → Forall line_ok (renderChildren cs cp []).
Proof.
  intros Hcs Hb. induction Hcs as [|c cs Hc _ IH]; [constructor|].
  rewrite renderChildren_cons. apply Forall_app. split; [by apply Hc|].
  destruct cs as [|c' cs]; [constructor|].
  apply Forall_app. split; [|done].
  constructor; [by apply line_ok_bar|constructor].
Qed.

Lemma render_ok (t : Node) :
  tree_ok label_wf t →
  ∀ p isLast, bars p → Forall line_ok (render t p isLast []).
Proof.
  induction t as [txt cs IH] using Node_ind'.
  intros [Hl Hcs]%tree_ok_node p isLast Hb. rewrite render_nil.
  constructor; [by apply line_ok_label|].
  destruct cs as [|c cs]; [constructor|].
  constructor; [by apply line_ok_bar, bars_childPrefix|].
  apply renderChildren_ok; [|by apply bars_childPrefix].
  rewrite Forall_forall in IH, Hcs. apply Forall_forall.
  intros c' Hc'. apply IH; [done|]. by apply Hcs.
Qed.

Lemma renderRootChildren_ok (cs : list Node) :
  Forall (tree_ok label_wf) cs → Forall line_ok (renderRootChildren cs []).
Proof.
  induction 1 as [|c cs Hc _ IH]; [constructor|].
  rewrite renderRootChildren_cons. apply Forall_app. split; [|done].
  apply render_ok; [done|constructor].
Qed.

Lemma renderRoots_ok (roots : list Node) :
  Forall (tree_ok label_wf) roots → Forall line_ok (renderRoots roots []).
Proof.
  induction 1 as [|[txt cs] rest Hr _ IH]; [constructor|].
  rewrite renderRoots_cons. apply Forall_app. split.
  - unfold rootLines. cbn [text children].
    apply tree_ok_node in Hr as [Hl Hcs]. apply Forall_app. split.
    + constructor.
      { destruct Hl as (Hne & Ht & Hnl & _). split; [done|].
        by apply trimmed_trimEnd. }
      destruct cs as [|c cs]; [constructor|].
      constructor; [apply (line_ok_bar []); constructor|].
      by apply renderRootChildren_ok.
    + destruct rest; [constructor|]. constructor; [|constructor].
      split; [apply not_elem_of_nil|done].
  - done.
Qed.

Lemma renderRoots_nonempty (r : Node) (rest : list Node) :
  renderRoots (r :: rest) [] ≠ [].
Proof. rewrite renderRoots_cons. unfold rootLines. done. Qed.

(** ** The round trip *)

(** The result of the parser, from the final store. *)
Lemma parse_from_store (input : str) (indentSize : nat) (roots : list Node)
    (ids : list nat) :
  (parseState input indentSize).1 !! 0 = Some (mkObj ROOT_TEXT ids) →
  Forall2 (λ c j, reads (parseState input indentSize).1 c j) roots ids →
  parseIndentedTree input indentSize = Some roots.
Proof.
  intros H0 Hr.
  destruct (parse_total_labels input indentSize) as (roots' & E & _).
  rewrite E. f_equal. unfold parseIndentedTree in E. rewrite H0 in E.
  simpl in E. apply mapM_Some in E. clear H0. revert roots' E.
  induction Hr as [|c j cs ids' Hc _ IH]; intros roots' E.
  - by inversion E.
  - inversion E as [|? c' ? cs' Hc' E']; subst.
    f_equal; [by eapply reads_readNode|by apply IH].
Qed.

(** The round trip on a forest: only a root label has to be told from a
    connector line, since every other label follows a marker. *)
Lemma roundtrip_forest (roots : list Node) (indentSize : nat) :
  0 < indentSize →
  Forall (tree_ok label_wf) roots →
  Forall (λ r, isConnectorOnly (text r) = false) roots →
  Forall (tree_ok (λ lab, hasMarker lab = false)) roots →
  withoutCode (renderAsciiTree roots) = renderAsciiTree roots →
  parseIndentedTree
    (importJiraToIndented (renderAsciiTree roots) indentSize) indentSize
  = Some roots.
Proof.
  intros Hpos Hwf Hroot Hplain Hfence.
  destruct roots as [|r rest]; [done|].
  unfold importJiraToIndented. rewrite Hfence. unfold renderAsciiTree.
  rewrite import_lines
    by (by apply renderRoots_nonempty || by apply renderRoots_ok).
  rewrite (import_roots indentSize _ []).
  2:{ apply Forall_forall. intros t Ht.
      rewrite Forall_forall in Hwf, Hplain, Hroot.
      specialize (Hwf t Ht). specialize (Hplain t Ht). split; [by apply Hroot|].
      unfold tree_ok in *. rewrite Forall_forall in Hwf, Hplain.
      apply Forall_forall. intros n Hn.
      destruct (Hwf n Hn) as (? & ? & _). split; [done|]. split; [done|].
      by apply Hplain. }
  rewrite app_nil_l.
  destruct (olines_last indentSize (r :: rest) Hwf) as (ls & l & E & Hl);
    [done|].
  rewrite E, popBlank_snoc, <- E by done.
  destruct (parse_ilines indentSize Hpos (r :: rest) Hwf)
    as (st & stack & ids & Hst & H0 & Hr).
  apply (parse_from_store _ _ _ ids); unfold parseState;
    rewrite olines_parseLines, Hst by done; done.
Qed.

Lemma roots_in_nodes (roots : list Node) (r : Node) :
  r ∈ roots → r ∈ nodes_of roots.
Proof.
  intros H. unfold nodes_of. apply list_elem_of_In, in_flat_map.
  exists r. split; [by apply list_elem_of_In|]. destruct r. by left.
Qed.

(** ** The claims about the parser, the renderer and the importer *)

(** C10.  For every input and every positive indent size the parser
    returns a forest, and every node of it, at any depth, has a label
    that is neither empty nor made of white space only. *)
Theorem parse_labels_nonempty (input : str) (indentSize : nat) :
  0 < indentSize →
  ∃ roots, parseIndentedTree input indentSize = Some roots
           ∧ ∀ n, n ∈ nodes_of roots →
                  text n ≠ [] ∧ forallb is_space (text n) = false.
Proof.
  intros _. destruct (parse_total_labels input indentSize) as (roots & E & H).
  exists roots. split; [done|]. intros n Hn.
  rewrite Forall_forall in H. destruct (H n Hn) as (Hne & Ht & _).
  split; [done|]. destruct (text n) as [|c r] eqn:E'; [done|].
  simpl. by rewrite (trimmed_head _ _ _ Ht eq_refl).
Qed.

Lemma parse_labels_nonempty_witness :
  ∃ roots, parseIndentedTree (js "A\n \n  B \n\tC") 2 = Some roots
           ∧ ∀ n, n ∈ nodes_of roots →
                  text n ≠ [] ∧ forallb is_space (text n) = false.
Proof. apply (parse_labels_nonempty (js "A\n \n  B \n\tC") 2). lia. Defined.

(** C1, as amended.  For every tree that the parser produces with a
    positive indent size, if no label is a pure-connector string, no
    label contains a connector marker, and the fence stripping of the
    importer leaves the rendered text as it is, then importing the
    rendered text and parsing it again gives the same tree. *)
Theorem roundtrip_plain_labels (input : str) (indentSize : nat)
    (roots : list Node) :
  0 < indentSize →
  parseIndentedTree input indentSize = Some roots →
  (∀ n, n ∈ nodes_of roots →
        isConnectorOnly (text n) = false ∧ hasMarker (text n) = false) →
  withoutCode (renderAsciiTree roots) = renderAsciiTree roots →
  parseIndentedTree
    (importJiraToIndented (renderAsciiTree roots) indentSize) indentSize
  = Some roots.
Proof.
  intros Hpos Hparse Hplain Hfence.
  destruct (parse_total_labels input indentSize) as (roots' & E & Hwf).
  rewrite Hparse in E. injection E as <-.
  apply roundtrip_forest; [done| | | |done].
  - by apply forest_ok_nodes.
  - apply Forall_forall. intros r Hr. by apply Hplain, roots_in_nodes.
  - apply forest_ok_nodes, Forall_forall. intros n Hn. by apply Hplain.
Qed.

Lemma roundtrip_plain_labels_witness :
  parseIndentedTree
    (importJiraToIndented (renderAsciiTree sampleForest) 2) 2
  = Some sampleForest.
Proof.
  apply (roundtrip_plain_labels sampleInput 2 sampleForest).
  - lia.
  - reflexivity.
  - intros n Hn. unfold nodes_of, sampleForest in Hn. simpl in Hn.
    repeat (apply elem_of_cons in Hn as [->|Hn]; [by vm_compute|]).
    by apply elem_of_nil in Hn.
  - reflexivity.
Defined.

(** C1 as stated fails: the label [a ├─ b] is not a pure-connector
    string, and the importer reads its line as a child line. *)
Lemma roundtrip_counterexample :
  ¬ (∀ input indentSize roots,
       0 < indentSize →
       parseIndentedTree input indentSize = Some roots →
       (∀ n, n ∈ nodes_of roots → isConnectorOnly (text n) = false) →
       parseIndentedTree
         (importJiraToIndented (renderAsciiTree roots) indentSize) indentSize
       = Some roots).
Proof.
  intros H. specialize (H (js "a ├─ b") 2 [leaf "a ├─ b"]).
  assert (parseIndentedTree
            (importJiraToIndented (renderAsciiTree [leaf "a ├─ b"]) 2) 2
          = Some [leaf "b"]) as E by reflexivity.
  rewrite E in H. enough (Some [leaf "b"] = Some [leaf "a ├─ b"]) by done.
  apply H; [lia|reflexivity|].
  intros n Hn. unfold nodes_of in Hn. simpl in Hn.
  apply list_elem_of_singleton in Hn as ->. reflexivity.
Qed.

(** C2.  On scenario 1 the code renders four lines: the children of a
    root are rendered one after the other, and the separator line that
    [render] puts between sibling branches is only emitted below the
    first level, as the second tree shows. *)
Theorem render_scenario1 :
  parseIndentedTree (js "A\n  B\n  C") 2 = Some treeABC
  ∧ renderAsciiTree treeABC = js "A\n│\n├─ B\n└─ C"
  ∧ renderAsciiTree treeABC ≠ js "A\n│\n├─ B\n│\n└─ C"
  ∧ renderAsciiTree [mkNode (js "R") treeABC]
    = js "R\n│\n└─ A\n   │\n   ├─ B\n   │\n   └─ C".
Proof.
  split; [done|]. split; [done|]. split; [|done].
  intros E. vm_compute in E. discriminate E.
Qed.

(** C3.  On a line where the marker of a last child comes before the
    other marker, the code splits at the later one. *)
Theorem import_split_not_earliest :
  let line := js "└─ a ├─ b" in
  earliestMarker line = 0%Z
  ∧ markerIndex line = 5%Z
  ∧ importJiraToIndented line 2 = js "    b"
  ∧ importJiraToIndented line 2 ≠ js "  a ├─ b".
Proof.
  split; [done|]. split; [done|]. split; [done|].
  intros E. vm_compute in E. discriminate E.
Qed.

(** Where the first marker of the line is the one of a middle child, or
    only one kind of marker occurs, the split is at the earliest
    marker. *)
Lemma markerIndex_earliest (line : str) :
  (indexOf CONN_LAST line < 0
   ∨ 0 ≤ indexOf CONN_MID line ≤ indexOf CONN_LAST line)%Z →
  markerIndex line = earliestMarker line.
Proof.
  unfold markerIndex, earliestMarker. intros H.
  destruct (Z.leb_spec 0 (indexOf CONN_MID line)),
           (Z.ltb_spec (indexOf CONN_MID line) 0),
           (Z.ltb_spec (indexOf CONN_LAST line) 0); lia.
Qed.

Lemma after_first_app (c : char) (tag rest : str) :
  c ∉ tag → after_first c (tag ++ c :: rest) = Some rest.
Proof.
  induction tag as [|d tag IH]; simpl; intros H.
  - by rewrite N.eqb_refl.
  - apply not_elem_of_cons in H as [Hd Ht].
    destruct (N.eqb_spec d c); [congruence|]. by apply IH.
Qed.

Lemma starts_ci_app (p q r s : str) :
  starts_ci p q = Some r → starts_ci p (q ++ s) = Some (r ++ s).
Proof.
  revert q. induction p as [|a p IH]; intros q; simpl.
  - by intros [= ->].
  - destruct q as [|b q]; [done|]. simpl.
    destruct (eq_ci a b); [apply IH|done].
Qed.

Lemma trimStart_app_nonspace (q s : str) :
  q ≠ [] → trimStart q = q → trimStart (q ++ s) = q ++ s.
Proof.
  intros Hne Hq. destruct q as [|c q]; [done|]. simpl in *.
  destruct (is_space c) eqn:E; [|done]. exfalso.
  destruct (trimStart_spec q) as [H|(d & r & H & Hd)]; rewrite H in Hq;
    [done|]. injection Hq as -> _. congruence.
Qed.

(** C8.  The fenced text of scenario 3 imports to [A], then [B] indented
    by two spaces, whatever the language tag of the opening fence. *)
Theorem import_fenced (tag : str) :
  RBRACE ∉ tag →
  importJiraToIndented
    (js "{code:" ++ tag ++ js "}\nA\n│\n└─ B\n{code}") 2
  = js "A\n  B".
Proof.
  intros H. unfold importJiraToIndented, withoutCode.
  assert (stripOpenFence (js "{code:" ++ tag ++ js "}\nA\n│\n└─ B\n{code}")
          = js "A\n│\n└─ B\n{code}") as ->; [|by vm_compute].
  unfold stripOpenFence.
  rewrite trimStart_app_nonspace by by vm_compute.
  rewrite (starts_ci_app _ _ [COLON]) by by vm_compute.
  change ([COLON] ++ tag ++ js "}\nA\n│\n└─ B\n{code}")
    with (COLON :: tag ++ js "}\nA\n│\n└─ B\n{code}").
  cbv iota. change (COLON =? RBRACE)%N with false.
  change (COLON =? COLON)%N with true. cbv iota.
  replace (js "}\nA\n│\n└─ B\n{code}")
    with (RBRACE :: js "\nA\n│\n└─ B\n{code}") by by vm_compute.
  rewrite after_first_app by done. by vm_compute.
Qed.

Lemma import_fenced_witness :
  js "{code:" ++ js "java" ++ js "}\nA\n│\n└─ B\n{code}"
  = js "{code:java}\nA\n│\n└─ B\n{code}"
  ∧ importJiraToIndented
      (js "{code:" ++ js "java" ++ js "}\nA\n│\n└─ B\n{code}") 2
    = js "A\n  B".
Proof.
  split; [by vm_compute|]. apply (import_fenced (js "java")).
  intros H. vm_compute in H.
  repeat (apply elem_of_cons in H as [H|H]; [discriminate H|]).
  by apply elem_of_nil in H.
Defined.


(** ** The flat array of a forest *)

Lemma unit_node (txt : str) (k : Node) (r : list Node) (c : nat) :
  unit (mkNode txt (k :: r)) c
  = Qdiv (foldl Qplus 0%Q (units (k :: r) c))
         (inject_Z (Z.of_nat (length (k :: r)))).
Proof.
  change (unit (mkNode txt (k :: r)) c) with
    (Qdiv (foldl Qplus 0%Q
             ((fix units (cs : list Node) (c : nat) : list Q :=
                 match cs with
                 | [] => []
                 | k :: r => unit k c :: units r (c + leaves k)
                 end) (k :: r) c))
          (inject_Z (Z.of_nat (length (k :: r))))).
  done.
Qed.

Lemma slist_node (txt : str) (cs : list Node) (i d : nat) (par : option nat)
    (c : nat) :
  slist (mkNode txt cs) i d par c
  = (mkFlat i txt d par (childIds cs (S i)), unit (mkNode txt cs) c)
      :: sforest cs (S i) (S d) (Some i) c.
Proof.
  change (slist (mkNode txt cs) i d par c) with
    ((mkFlat i txt d par (childIds cs (S i)), unit (mkNode txt cs) c)
       :: (fix forest (cs : list Node) (j c : nat) : list (FlatNode * Q) :=
             match cs with
             | [] => []
             | k :: r =>
               slist k j (S d) (Some i) c
                 ++ forest r (j + size k) (c + leaves k)
             end) cs (S i) c).
  f_equal. generalize (S i). revert c.
  induction cs as [|k cs IH]; intros c j; [done|]. simpl. by rewrite IH.
Qed.

Lemma size_node (txt : str) (cs : list Node) :
  size (mkNode txt cs) = S (list_sum (map size cs)).
Proof. done. Qed.

Lemma slist_length (t : Node) :
  ∀ i d par c, length (slist t i d par c) = size t.
Proof.
  induction t as [txt cs IH] using Node_ind'. intros i d par c.
  rewrite slist_node, size_node. simpl. f_equal.
  generalize (S i) (S d) (Some i). revert c.
  induction IH as [|k cs Hk _ IHcs]; intros c j d' par'; [done|].
  simpl. by rewrite length_app, Hk, IHcs.
Qed.

Lemma sforest_length (cs : list Node) (j d : nat) (par : option nat) (c : nat) :
  length (sforest cs j d par c) = list_sum (map size cs).
Proof.
  revert j c. induction cs as [|k cs IH]; intros j c; [done|].
  simpl. by rewrite length_app, slist_length, IH.
Qed.

Lemma walk_node (txt : str) (cs : list Node) (depth : nat)
    (parentId : option nat) (id : nat) (flat : list FlatNode) :
  walk (mkNode txt cs) depth parentId (id, flat)
  = (id, walkChildren cs depth id (length flat)
           (S id, flat ++ [mkFlat id txt depth parentId []])).
Proof.
  change (walk (mkNode txt cs) depth parentId (id, flat)) with
    (id,
     (fix loop (cs : list Node) (s : nat * list FlatNode) :=
        match cs with
        | [] => s
        | child :: rest =>
          let '(childId, (id', flat')) := walk child (S depth) (Some id) s in
          loop rest (id', pushChildId (length flat) childId flat')
        end) cs (S id, flat ++ [mkFlat id txt depth parentId []])).
  f_equal. generalize (S id, flat ++ [mkFlat id txt depth parentId []]).
  induction cs as [|k cs IH]; intros s; [done|]. simpl.
  destruct (walk k (S depth) (Some id) s) as [childId [id' flat']].
  apply IH.
Qed.

Lemma pushChildId_at (F G : list FlatNode) (e : FlatNode) (childId : nat) :
  pushChildId (length F) childId (F ++ e :: G)
  = F ++ mkFlat (fid e) (ftext e) (fdepth e) (fparentId e)
                (fchildrenIds e ++ [childId]) :: G.
Proof.
  unfold pushChildId. rewrite <- (Nat.add_0_r (length F)).
  by rewrite alter_app_r.
Qed.

Lemma walk_spec (t : Node) :
  ∀ d par i F c,
    walk t d par (i, F) = (i, (i + size t, F ++ (slist t i d par c).*1)).
Proof.
  induction t as [txt cs IH] using Node_ind'. intros d par i F c.
  rewrite walk_node, slist_node, size_node. f_equal.
  rewrite fmap_cons. simpl fst.
  assert (∀ cs' j G ids0 c',
    Forall (λ t, ∀ d par i F c,
              walk t d par (i, F)
              = (i, (i + size t, F ++ (slist t i d par c).*1))) cs' →
    walkChildren cs' d i (length F)
      (j, F ++ mkFlat i txt d par ids0 :: G)
    = (j + list_sum (map size cs'),
       F ++ mkFlat i txt d par (ids0 ++ childIds cs' j)
         :: G ++ (sforest cs' j (S d) (Some i) c').*1)) as Hloop.
  { clear. intros cs'. induction cs' as [|k cs' IHcs]; intros j G ids0 c' Hcs.
    - simpl. by rewrite Nat.add_0_r, !app_nil_r.
    - inversion Hcs as [|? ? Hk Hcs']; subst. simpl walkChildren.
      rewrite (Hk _ _ _ _ c'). rewrite <- app_assoc, <- app_comm_cons.
      rewrite pushChildId_at. simpl fid. simpl ftext. simpl fdepth.
      simpl fparentId. simpl fchildrenIds.
      rewrite (IHcs _ _ _ (c' + leaves k)) by done. simpl.
      rewrite fmap_app. f_equal; [lia|]. f_equal.
      by rewrite <- !app_assoc. }
  rewrite <- (app_nil_l (childIds cs (S i))).
  replace (F ++ [mkFlat i txt d par []])
    with (F ++ mkFlat i txt d par [] :: []) by done.
  rewrite (Hloop cs (S i) [] [] c) by done. f_equal. lia.
Qed.

Lemma flattenTree_spec (roots : list Node) (c : nat) :
  flattenTree roots = (sforest roots 1 0 None c).*1.
Proof.
  unfold flattenTree.
  assert (∀ i F c,
    foldl (λ s r, (walk r 0 None s).2) (i, F) roots
    = (i + list_sum (map size roots), F ++ (sforest roots i 0 None c).*1))
    as H.
  { clear. induction roots as [|r roots IH]; intros i F c.
    - simpl. by rewrite Nat.add_0_r, app_nil_r.
    - simpl. rewrite (walk_spec r 0 None i F c). simpl.
      rewrite (IH _ _ (c + leaves r)), fmap_app.
      f_equal; [lia|by rewrite app_assoc]. }
  by rewrite (H 1 [] c).
Qed.

Lemma childIds_length (cs : list Node) (j : nat) :
  length (childIds cs j) = length cs.
Proof. revert j. induction cs as [|k cs IH]; intros j; simpl; [done|]. by rewrite IH. Qed.

Lemma slist_ids (t : Node) :
  ∀ i d par c k e u, slist t i d par c !! k = Some (e, u) → fid e = i + k.
Proof.
  induction t as [txt cs IH] using Node_ind'. intros i d par c k e u.
  rewrite slist_node. destruct k as [|k]; simpl.
  { intros [= <- <-]. simpl. lia. }
  replace (i + S k) with (S i + k) by lia.
  generalize (S i) (S d) (Some i). revert c k.
  induction IH as [|t cs Ht _ IHcs]; intros c k j d' par'; [done|].
  simpl. intros [H|[Hge H]]%lookup_app_Some.
  - by apply Ht in H.
  - rewrite slist_length in Hge, H. apply IHcs in H. lia.
Qed.

Lemma sforest_ids (cs : list Node) :
  ∀ j d par c k e u, sforest cs j d par c !! k = Some (e, u) → fid e = j + k.
Proof.
  induction cs as [|t cs IH]; intros j d par c k e u; [done|].
  simpl. intros [H|[Hge H]]%lookup_app_Some.
  - by apply slist_ids in H.
  - rewrite slist_length in Hge, H. apply IH in H. lia.
Qed.

Lemma slist_elem_ids (t : Node) (i d : nat) (par : option nat) (c : nat)
    (e : FlatNode) (u : Q) :
  (e, u) ∈ slist t i d par c → i ≤ fid e < i + size t.
Proof.
  intros [k Hk]%list_elem_of_lookup.
  pose proof (lookup_lt_Some _ _ _ Hk) as Hlt. rewrite slist_length in Hlt.
  apply slist_ids in Hk. lia.
Qed.

Lemma sforest_elem_ids (cs : list Node) (j d : nat) (par : option nat)
    (c : nat) (e : FlatNode) (u : Q) :
  (e, u) ∈ sforest cs j d par c → j ≤ fid e < j + list_sum (map size cs).
Proof.
  intros [k Hk]%list_elem_of_lookup.
  pose proof (lookup_lt_Some _ _ _ Hk) as Hlt. rewrite sforest_length in Hlt.
  apply sforest_ids in Hk. lia.
Qed.

(** A [Map] filled from an array whose element at index [k] has the id
    [k + 1]. *)
Lemma idmap_lookup {V} (g : FlatNode → V) (flat : list FlatNode) (k : nat) :
  (∀ i n, flat !! i = Some n → fid n = S i) →
  foldl (λ m n, <[fid n := g n]> m) (∅ : gmap nat V) flat !! k
  = match k with 0 => None | S i => g <$> flat !! i end.
Proof.
  induction flat as [|x l IH] using rev_ind; intros Hid.
  - simpl. rewrite lookup_empty. by destruct k.
  - rewrite foldl_snoc.
    assert (fid x = S (length l)) as Hx.
    { apply Hid. by rewrite lookup_app_r, Nat.sub_diag. }
    assert (∀ i n, l !! i = Some n → fid n = S i) as Hl.
    { intros i n Hi. apply Hid. rewrite lookup_app_l; [done|].
      by eapply lookup_lt_Some. }
    rewrite Hx. destruct (decide (S (length l) = k)) as [<-|Hne].
    + rewrite lookup_insert_eq. by rewrite lookup_app_r, Nat.sub_diag.
    + rewrite lookup_insert_ne by done. rewrite IH by done.
      destruct k as [|i]; [done|].
      destruct (decide (i < length l)) as [Hlt|Hge].
      * by rewrite lookup_app_l.
      * rewrite !lookup_ge_None_2; [done| |lia].
        rewrite length_app. simpl. lia.
Qed.

Lemma forEachM_nil {S} (f : nat → S → option S) (s : S) :
  forEachM f [] s = Some s.
Proof. done. Qed.

Lemma forEachM_cons {S} (f : nat → S → option S) (j : nat) (ids : list nat)
    (s s' : S) :
  f j s = Some s' → forEachM f (j :: ids) s = forEachM f ids s'.
Proof. intros H. unfold forEachM. simpl. by rewrite H. Qed.

Lemma foldl_nadd_Fin (us : list Q) (a : Q) :
  foldl nadd (Fin a) (map Fin us) = Fin (foldl Qplus a us).
Proof. revert a. induction us as [|u us IH]; intros a; [done|]. simpl. apply IH. Qed.

Lemma ndiv_of_nat (s : Q) (n : nat) :
  0 < n → ndiv (Fin s) (of_nat n) = Fin (s / inject_Z (Z.of_nat n)).
Proof.
  intros H. unfold ndiv, of_nat.
  destruct (Qeq_bool (inject_Z (Z.of_nat n)) 0) eqn:E; [|done].
  apply Qeq_bool_eq in E. unfold Qeq in E. simpl in E. lia.
Qed.

(** ** The unit positions computed by the layout *)

Section Units.

Variable roots : list Node.

Lemma specList_ids (k : nat) (e : FlatNode) (u : Q) :
  (specList roots) !! k = Some (e, u) → fid e = S k.
Proof. intros H. by apply sforest_ids in H. Qed.

Lemma byId_spec (k : nat) :
  byIdOf (specList roots).*1 !! k
  = match k with 0 => None | S i => fst <$> (specList roots) !! i end.
Proof.
  unfold byIdOf. rewrite (idmap_lookup (λ n, n)).
  - destruct k; [done|]. rewrite list_lookup_fmap.
    by destruct (specList roots !! k).
  - intros i n Hi. rewrite list_lookup_fmap in Hi.
    destruct (specList roots !! i) as [[e u]|] eqn:E; [|done].
    injection Hi as <-. by apply specList_ids in E.
Qed.

Lemma byId_emb (e : FlatNode) (u : Q) (rest : list (FlatNode * Q)) (i : nat) :
  emb (specList roots) ((e, u) :: rest) i → byIdOf (specList roots).*1 !! i = Some e.
Proof.
  intros (pre & post & E & ->). rewrite byId_spec. cbv beta iota.
  rewrite E. by rewrite lookup_app_r, Nat.sub_diag.
Qed.

Lemma emb_elem (sub : list (FlatNode * Q)) (i : nat) (x : FlatNode * Q) :
  emb (specList roots) sub i → x ∈ sub → x ∈ (specList roots).
Proof.
  intros (pre & post & E & _) H. rewrite E.
  apply elem_of_app. right. apply elem_of_app. by left.
Qed.

Lemma emb_node (txt : str) (cs : list Node) (i d : nat) (par : option nat)
    (c : nat) :
  emb (specList roots) (slist (mkNode txt cs) i d par c) i →
  emb (specList roots) (sforest cs (S i) (S d) (Some i) c) (S i).
Proof.
  intros (pre & post & E & ->). rewrite slist_node in E.
  exists (pre ++ [(mkFlat (S (length pre)) txt d par
                     (childIds cs (S (S (length pre)))),
                   unit (mkNode txt cs) c)]), post.
  split; [by rewrite <- app_assoc|]. rewrite length_app. simpl. lia.
Qed.

Lemma emb_cons (k : Node) (r : list Node) (j d : nat) (par : option nat)
    (c : nat) :
  emb (specList roots) (sforest (k :: r) j d par c) j →
  emb (specList roots) (slist k j d par c) j
  ∧ emb (specList roots) (sforest r (j + size k) d par (c + leaves k)) (j + size k).
Proof.
  intros (pre & post & E & ->). simpl in E. split.
  - exists pre, (sforest r (S (length pre) + size k) d par (c + leaves k) ++ post).
    split; [by rewrite <- app_assoc in E|done].
  - exists (pre ++ slist k (S (length pre)) d par c), post.
    split; [by rewrite <- !app_assoc in *|].
    rewrite length_app, slist_length. lia.
Qed.

Lemma isLeaf_emb (txt : str) (cs : list Node) (i d : nat) (par : option nat)
    (c : nat) :
  emb (specList roots) (slist (mkNode txt cs) i d par c) i →
  isLeaf (byIdOf (specList roots).*1) i = match cs with [] => true | _ => false end.
Proof.
  intros H. rewrite slist_node in H. unfold isLeaf.
  rewrite (byId_emb _ _ _ _ H). simpl. by destruct cs.
Qed.

Lemma leaves_assigned_forest (cs : list Node) :
  Forall (leaves_assigned roots) cs →
  ∀ j d par c, emb (specList roots) (sforest cs j d par c) j →
  ∀ fuel m, Forall (λ k, size k ≤ fuel) cs →
  ∃ m', forEachM (assignLeaves fuel (byIdOf (specList roots).*1)) (childIds cs j) (c, m)
        = Some (c + list_sum (map leaves cs), m')
        ∧ (∀ k, k < j ∨ j + list_sum (map size cs) ≤ k → m' !! k = m !! k)
        ∧ (∀ e u, (e, u) ∈ sforest cs j d par c → fchildrenIds e = [] →
                  m' !! fid e = Some (Fin u)).
Proof.
  induction 1 as [|t cs Ht _ IH]; intros j d par c Hemb fuel m Hfuel.
  - exists m. rewrite Nat.add_0_r. split; [done|]. split; [done|].
    by intros e u ?%elem_of_nil.
  - apply emb_cons in Hemb as [Hk Hr]. inversion Hfuel; subst.
    destruct (Ht j d par c Hk fuel m) as (m1 & E1 & F1 & L1); [done|].
    destruct (IH _ d par _ Hr fuel m1) as (m2 & E2 & F2 & L2); [done|].
    exists m2. simpl childIds. rewrite (forEachM_cons _ _ _ _ _ E1), E2.
    simpl. split; [f_equal; f_equal; lia|]. split.
    + intros k Hk'. rewrite F2 by lia. apply F1. lia.
    + intros e u [He|He]%elem_of_app Hleaf; [|by apply L2].
      rewrite F2; [by apply L1|]. apply slist_elem_ids in He. lia.
Qed.

Lemma leaves_assigned_tree (t : Node) : leaves_assigned roots t.
Proof.
  induction t as [txt cs IH] using Node_ind'.
  intros i d par c Hemb fuel m Hfuel. rewrite size_node in Hfuel.
  destruct fuel as [|fuel]; [lia|]. simpl assignLeaves.
  rewrite (isLeaf_emb _ _ _ _ _ _ Hemb). destruct cs as [|k r].
  - exists (<[i := of_nat c]> m). split; [simpl; do 2 f_equal; lia|]. split.
    + intros k Hk. apply lookup_insert_ne. simpl in Hk. lia.
    + intros e u He _. rewrite slist_node in He.
      apply list_elem_of_singleton in He as [= -> ->]. simpl.
      by rewrite lookup_insert_eq.
  - pose proof Hemb as Hemb'. rewrite slist_node in Hemb'.
    rewrite (byId_emb _ _ _ _ Hemb'). cbn [mbind option_bind fchildrenIds].
    destruct (leaves_assigned_forest (k :: r) IH (S i) (S d) (Some i) c
                (emb_node _ _ _ _ _ _ Hemb) fuel m)
      as (m' & E & F & L).
    { apply Forall_forall. intros t Ht.
      assert (size t ≤ list_sum (map size (k :: r))); [|lia].
      clear -Ht. induction Ht; simpl; lia. }
    exists m'. split; [by rewrite E|]. split.
    + intros k' Hk'. apply F. rewrite size_node in Hk'. lia.
    + intros e u He Hleaf. rewrite slist_node in He.
      apply elem_of_cons in He as [[= -> ->]|He]; [done|]. by apply L.
Qed.

Section ComputeX.

Variable leafX : gmap nat num.
Hypothesis leafX_ok :
  ∀ e u, (e, u) ∈ (specList roots) → fchildrenIds e = [] →
         leafX !! fid e = Some (Fin u).

Lemma units_computed_forest (cs : list Node) :
  Forall (units_computed roots leafX) cs →
  ∀ j d par c, emb (specList roots) (sforest cs j d par c) j →
  ∀ fuel m, Forall (λ k, size k ≤ fuel) cs →
  ∃ m', forEachM (computeX fuel (byIdOf (specList roots).*1) leafX) (childIds cs j) m
        = Some m'
        ∧ (∀ k, k < j ∨ j + list_sum (map size cs) ≤ k → m' !! k = m !! k)
        ∧ (∀ e u, (e, u) ∈ sforest cs j d par c → m' !! fid e = Some (Fin u)).
Proof using Type.
  induction 1 as [|t cs Ht _ IH]; intros j d par c Hemb fuel m Hfuel.
  - exists m. split; [done|]. split; [done|]. by intros e u ?%elem_of_nil.
  - apply emb_cons in Hemb as [Hk Hr]. inversion Hfuel; subst.
    destruct (Ht j d par c Hk fuel m) as (m1 & E1 & F1 & L1); [done|].
    destruct (IH _ d par _ Hr fuel m1) as (m2 & E2 & F2 & L2); [done|].
    exists m2. simpl childIds. rewrite (forEachM_cons _ _ _ _ _ E1), E2.
    split; [done|]. split.
    + intros k Hk'. simpl in Hk'. rewrite F2 by lia. apply F1. lia.
    + intros e u [He|He]%elem_of_app; [|by apply L2].
      rewrite F2; [by apply L1|]. apply slist_elem_ids in He. lia.
Qed.

Lemma child_units (cs : list Node) (m : gmap nat num) :
  ∀ j d par c,
    (∀ e u, (e, u) ∈ sforest cs j d par c → m !! fid e = Some (Fin u)) →
    map (getNum m) (childIds cs j) = map Fin (units cs c).
Proof using Type.
  induction cs as [|[txt ks] cs IH]; intros j d par c H; [done|].
  change (childIds (mkNode txt ks :: cs) j)
    with (j :: childIds cs (j + size (mkNode txt ks))).
  change (units (mkNode txt ks :: cs) c)
    with (unit (mkNode txt ks) c :: units cs (c + leaves (mkNode txt ks))).
  change (sforest (mkNode txt ks :: cs) j d par c)
    with (slist (mkNode txt ks) j d par c
            ++ sforest cs (j + size (mkNode txt ks)) d par
                 (c + leaves (mkNode txt ks))) in H.
  cbn [map]. f_equal.
  - unfold getNum.
    pose proof (H (mkFlat j txt d par (childIds ks (S j)))
                  (unit (mkNode txt ks) c)) as Hj.
    cbn [fid] in Hj. rewrite Hj; [done|].
    apply elem_of_app. left. rewrite slist_node. left.
  - apply (IH _ d par). intros e u He. apply H, elem_of_app. by right.
Qed.

Lemma units_computed_tree (t : Node) : units_computed roots leafX t.
Proof using leafX_ok.
  induction t as [txt cs IH] using Node_ind'.
  intros i d par c Hemb fuel m Hfuel. rewrite size_node in Hfuel.
  destruct fuel as [|fuel]; [lia|]. simpl computeX.
  pose proof Hemb as Hemb'. rewrite slist_node in Hemb'.
  rewrite (byId_emb _ _ _ _ Hemb'). cbn [mbind option_bind fchildrenIds].
  destruct (units_computed_forest cs IH (S i) (S d) (Some i) c
              (emb_node _ _ _ _ _ _ Hemb) fuel m) as (m1 & E & F & L).
  { apply Forall_forall. intros t Ht.
    assert (size t ≤ list_sum (map size cs)); [|lia].
    clear -Ht. induction Ht; simpl; lia. }
  rewrite E. cbn [mbind option_bind fchildrenIds].
  rewrite (isLeaf_emb _ _ _ _ _ _ Hemb). destruct cs as [|k r].
  - eexists. split; [done|]. split.
    + intros k Hk. rewrite lookup_insert_ne by (simpl in Hk; lia).
      apply F. simpl in *. lia.
    + intros e u He. rewrite slist_node in He.
      apply list_elem_of_singleton in He as [= -> ->]. simpl.
      rewrite lookup_insert_eq. f_equal. unfold getNum.
      pose proof (leafX_ok (mkFlat i txt d par [])
                    (unit (mkNode txt []) c)) as Hl.
      cbn [fid] in Hl. rewrite Hl; [done| |done].
      eapply emb_elem; [exact Hemb'|left].
  - rewrite (child_units _ _ _ _ _ _ L), foldl_nadd_Fin.
    rewrite length_map.
    assert (length (units (k :: r) c) = length (k :: r)) as ->.
    { generalize (k :: r). clear. intros cs. revert c.
      induction cs; intros c; simpl; [done|]. by rewrite IHcs. }
    rewrite ndiv_of_nat by (simpl; lia). rewrite <- (unit_node txt).
    eexists. split; [done|]. split.
    + intros k' Hk'. rewrite size_node in Hk'.
      rewrite lookup_insert_ne by lia. apply F. lia.
    + intros e u He. rewrite slist_node in He.
      apply elem_of_cons in He as [[= -> ->]|He].
      * simpl. by rewrite lookup_insert_eq.
      * rewrite lookup_insert_ne; [by apply L|].
        apply sforest_elem_ids in He. lia.
Qed.

End ComputeX.

End Units.

(** ** The unit positions of a forest *)

Lemma iq_add (a b : nat) : (iq (a + b) == iq a + iq b)%Q.
Proof. unfold iq. by rewrite Nat2Z.inj_add, inject_Z_plus. Qed.

Lemma iq_le (a b : nat) : a ≤ b → (iq a <= iq b)%Q.
Proof. intros H. unfold iq. rewrite <- Zle_Qle. lia. Qed.

Lemma iq_1 : (iq 1 == 1)%Q.
Proof. done. Qed.

Lemma iq_pos (n : nat) : 0 < n → (0 < iq n)%Q.
Proof. intros H. unfold iq. change 0%Q with (inject_Z 0). rewrite <- Zlt_Qlt. lia. Qed.

Lemma foldl_Qplus_bounds (us : list Q) (a b : Q) :
  Forall (λ u, a <= u <= b)%Q us →
  ∀ acc, (acc + iq (length us) * a <= foldl Qplus acc us
          ∧ foldl Qplus acc us <= acc + iq (length us) * b)%Q.
Proof.
  induction 1 as [|u us [Hu1 Hu2] _ IH]; intros acc.
  - simpl. change (iq 0) with 0%Q. lra.
  - simpl foldl. simpl length. destruct (IH (acc + u)%Q) as [H1 H2].
    change (S (length us)) with (1 + length us).
    rewrite iq_add, iq_1. split; lra.
Qed.

Lemma mean_bounds (us : list Q) (a b : Q) :
  us ≠ [] → Forall (λ u, a <= u <= b)%Q us →
  (a <= foldl Qplus 0 us / iq (length us)
   ∧ foldl Qplus 0 us / iq (length us) <= b)%Q.
Proof.
  intros Hne Hus. destruct (foldl_Qplus_bounds us a b Hus 0%Q) as [H1 H2].
  assert (0 < iq (length us))%Q as Hn.
  { apply iq_pos. destruct us; [done|simpl; lia]. }
  split.
  - apply Qle_shift_div_l; [done|]. lra.
  - apply Qle_shift_div_r; [done|]. lra.
Qed.

Lemma leaves_pos (t : Node) : 1 ≤ leaves t.
Proof.
  induction t as [txt cs IH] using Node_ind'. simpl.
  destruct cs as [|k r]; [done|]. inversion IH; subst. simpl. lia.
Qed.

Lemma units_length (cs : list Node) (c : nat) : length (units cs c) = length cs.
Proof. revert c. induction cs; intros c; simpl; [done|]. by rewrite IHcs. Qed.

Lemma units_range (cs : list Node) :
  Forall unit_in_range cs →
  ∀ c, Forall (λ u, iq c <= u <= iq (c + list_sum (map leaves cs)) - 1)%Q
              (units cs c).
Proof.
  induction 1 as [|k cs Hk _ IH]; intros c; [constructor|].
  simpl. constructor.
  - destruct (Hk c) as [H1 H2]. split; [done|].
    rewrite iq_add in H2. rewrite !iq_add.
    pose proof (iq_le 0 (list_sum (map leaves cs)) ltac:(lia)).
    change (iq 0) with 0%Q in *. lra.
  - eapply Forall_impl; [apply (IH (c + leaves k))|]. simpl.
    intros u [H1 H2]. rewrite !iq_add in *.
    pose proof (iq_le 0 (leaves k) ltac:(lia)).
    change (iq 0) with 0%Q in *. split; lra.
Qed.

Lemma unit_range (t : Node) : unit_in_range t.
Proof.
  induction t as [txt cs IH] using Node_ind'. intros c.
  destruct cs as [|k r].
  - simpl. fold (iq c). rewrite iq_add, iq_1. split; lra.
  - rewrite unit_node. fold (iq (length (k :: r))).
    rewrite <- (units_length (k :: r) c).
    apply mean_bounds; [done|]. by apply units_range.
Qed.

Lemma sforest_range_aux (cs : list Node) :
  Forall (λ t, ∀ i d par c, inrange (slist t i d par c) d c (leaves t)) cs →
  ∀ j d par c, inrange (sforest cs j d par c) d c (list_sum (map leaves cs)).
Proof.
  induction 1 as [|k cs Hk _ IH]; intros j d par c e u He.
  - by apply elem_of_nil in He.
  - simpl in He. apply elem_of_app in He as [He|He].
    + destruct (Hk _ _ _ _ _ _ He) as (Hd & H1 & H2). split; [done|].
      simpl. rewrite iq_add in H2. rewrite !iq_add.
      pose proof (iq_le 0 (list_sum (map leaves cs)) ltac:(lia)).
      change (iq 0) with 0%Q in *. split; lra.
    + destruct (IH _ _ _ _ _ _ He) as (Hd & H1 & H2). split; [done|].
      simpl. rewrite !iq_add in *.
      pose proof (iq_le 0 (leaves k) ltac:(lia)).
      change (iq 0) with 0%Q in *. split; lra.
Qed.

Lemma slist_range (t : Node) :
  ∀ i d par c, inrange (slist t i d par c) d c (leaves t).
Proof.
  induction t as [txt cs IH] using Node_ind'. intros i d par c e u He.
  rewrite slist_node in He. apply elem_of_cons in He as [[= -> ->]|He].
  - split; [done|]. apply (unit_range (mkNode txt cs) c).
  - destruct cs as [|k r]; [by apply elem_of_nil in He|].
    destruct (sforest_range_aux _ IH _ _ _ _ _ _ He) as (Hd & H). split; [lia|].
    done.
Qed.

Lemma sforest_range (cs : list Node) (j d : nat) (par : option nat) (c : nat) :
  inrange (sforest cs j d par c) d c (list_sum (map leaves cs)).
Proof.
  apply sforest_range_aux, Forall_forall. intros t _. apply slist_range.
Qed.

Lemma sforest_separated_aux (cs : list Node) :
  Forall (λ t, ∀ i d par c, separated (slist t i d par c)) cs →
  ∀ j d par c, separated (sforest cs j d par c).
Proof.
  induction 1 as [|k cs Hk _ IH]; intros j d par c k1 k2 e1 u1 e2 u2 Hlt H1 H2 Hd.
  - done.
  - simpl in H1, H2.
    apply lookup_app_Some in H1 as [H1|[Hge1 H1]],
          H2 as [H2|[Hge2 H2]].
    + by eapply (Hk _ _ _ _ k1 k2).
    + apply list_elem_of_lookup_2 in H1, H2.
      apply slist_range in H1 as (_ & _ & H1).
      apply sforest_range in H2 as (_ & H2 & _). lra.
    + apply lookup_lt_Some in H2. lia.
    + eapply (IH _ _ _ _ (k1 - length (slist k j d par c))
                 (k2 - length (slist k j d par c))); [lia|done..].
Qed.

Lemma slist_separated (t : Node) :
  ∀ i d par c, separated (slist t i d par c).
Proof.
  induction t as [txt cs IH] using Node_ind'.
  intros i d par c k1 k2 e1 u1 e2 u2 Hlt H1 H2 Hd.
  rewrite slist_node in H1, H2. destruct k2 as [|k2]; [lia|].
  simpl in H2. destruct k1 as [|k1].
  - injection H1 as <- <-. simpl in Hd.
    apply list_elem_of_lookup_2, sforest_range in H2 as (H2 & _). lia.
  - simpl in H1.
    eapply (sforest_separated_aux _ IH _ _ _ _ k1 k2); [lia|done..].
Qed.

Lemma sforest_separated (cs : list Node) (j d : nat) (par : option nat)
    (c : nat) :
  separated (sforest cs j d par c).
Proof.
  apply sforest_separated_aux, Forall_forall. intros t _.
  apply slist_separated.
Qed.

Lemma centered_mono (S S' : list (FlatNode * Q)) (e : FlatNode) (u : Q) :
  (∀ x, x ∈ S → x ∈ S') →
  (∃ us, Forall2 (λ k u', ∃ e', (e', u') ∈ S ∧ fid e' = k) (fchildrenIds e) us
         ∧ u = mean us) →
  ∃ us, Forall2 (λ k u', ∃ e', (e', u') ∈ S' ∧ fid e' = k) (fchildrenIds e) us
        ∧ u = mean us.
Proof.
  intros Hsub (us & H & E). exists us. split; [|done].
  eapply Forall2_impl; [exact H|]. intros k u' (e' & He' & Hk).
  exists e'. split; [by apply Hsub|done].
Qed.

Lemma forest_heads (cs : list Node) :
  ∀ j d par c,
    Forall2 (λ k u', ∃ e', (e', u') ∈ sforest cs j d par c ∧ fid e' = k)
            (childIds cs j) (units cs c).
Proof.
  induction cs as [|[txt ks] cs IH]; intros j d par c; [constructor|].
  change (childIds (mkNode txt ks :: cs) j)
    with (j :: childIds cs (j + size (mkNode txt ks))).
  change (units (mkNode txt ks :: cs) c)
    with (unit (mkNode txt ks) c :: units cs (c + leaves (mkNode txt ks))).
  change (sforest (mkNode txt ks :: cs) j d par c)
    with (slist (mkNode txt ks) j d par c
            ++ sforest cs (j + size (mkNode txt ks)) d par
                 (c + leaves (mkNode txt ks))).
  constructor.
  - exists (mkFlat j txt d par (childIds ks (S j))). split; [|done].
    apply elem_of_app. left. rewrite slist_node. left.
  - eapply Forall2_impl; [apply (IH _ d par)|].
    intros k u' (e' & He' & Hk). exists e'. split; [|done].
    apply elem_of_app. by right.
Qed.

Lemma sforest_centered_aux (cs : list Node) :
  Forall (λ t, ∀ i d par c, centered (slist t i d par c)) cs →
  ∀ j d par c, centered (sforest cs j d par c).
Proof.
  induction 1 as [|k cs Hk _ IH]; intros j d par c e u He Hne.
  - by apply elem_of_nil in He.
  - simpl in He. apply elem_of_app in He as [He|He].
    + eapply centered_mono; [|by eapply Hk]. intros x Hx. simpl.
      apply elem_of_app. by left.
    + eapply centered_mono; [|by eapply IH]. intros x Hx. simpl.
      apply elem_of_app. by right.
Qed.

Lemma slist_centered (t : Node) :
  ∀ i d par c, centered (slist t i d par c).
Proof.
  induction t as [txt cs IH] using Node_ind'. intros i d par c e u He Hne.
  rewrite slist_node in He. apply elem_of_cons in He as [[= -> ->]|He].
  - simpl in Hne. destruct cs as [|k r]; [done|].
    exists (units (k :: r) c). split.
    + cbn [fchildrenIds].
      eapply Forall2_impl; [apply (forest_heads _ _ (S d) (Some i))|].
      intros k' u' (e' & He' & Hk'). exists e'. split; [|done].
      rewrite slist_node. by right.
    + unfold mean. rewrite units_length. exact (unit_node txt k r c).
  - eapply centered_mono; [|by eapply (sforest_centered_aux _ IH)].
    intros x Hx. rewrite slist_node. by right.
Qed.

Lemma sforest_centered (cs : list Node) (j d : nat) (par : option nat)
    (c : nat) :
  centered (sforest cs j d par c).
Proof.
  apply sforest_centered_aux, Forall_forall. intros t _. apply slist_centered.
Qed.

(** ** The layout of the flat array of a forest *)

Lemma slist_roots_filter (t : Node) :
  ∀ i d par c,
    map fid (filter (λ n, fparentId n = None) (slist t i d par c).*1)
    = match par with None => [i] | Some _ => [] end.
Proof.
  induction t as [txt cs IH] using Node_ind'. intros i d par c.
  rewrite slist_node, fmap_cons. cbn [fst].
  assert (filter (λ n, fparentId n = None)
                 (sforest cs (S i) (S d) (Some i) c).*1 = []) as Hcs.
  { generalize (S i) (S d). revert c.
    induction IH as [|k cs Hk _ IHcs]; intros c j d'; [done|].
    simpl. rewrite fmap_app, filter_app, IHcs, app_nil_r.
    specialize (Hk j d' (Some i) c).
    destruct (filter _ (slist k j d' (Some i) c).*1); [done|discriminate]. }
  destruct par as [p|].
  - rewrite filter_cons_False by done. by rewrite Hcs.
  - rewrite filter_cons_True by done. by rewrite Hcs.
Qed.

Lemma sforest_roots_filter (cs : list Node) (j d : nat) (c : nat) :
  map fid (filter (λ n, fparentId n = None) (sforest cs j d None c).*1)
  = childIds cs j.
Proof.
  revert j c. induction cs as [|k cs IH]; intros j c; [done|].
  simpl. rewrite fmap_app, filter_app, map_app, IH.
  by rewrite (slist_roots_filter k j d None c).
Qed.

Lemma size_le_sum (t : Node) (cs : list Node) :
  t ∈ cs → size t ≤ list_sum (map size cs).
Proof. induction 1; simpl; lia. Qed.

Lemma xUnitOf_spec (roots : list Node) :
  ∃ xUnit, xUnitOf (flattenTree roots) = Some xUnit
           ∧ ∀ e u, (e, u) ∈ specList roots → xUnit !! fid e = Some (Fin u).
Proof.
  rewrite (flattenTree_spec roots 0). fold (specList roots). unfold xUnitOf.
  assert (map fid (filter (λ n, fparentId n = None) (specList roots).*1)
          = childIds roots 1) as -> by apply sforest_roots_filter.
  assert (emb (specList roots) (sforest roots 1 0 None 0) 1) as Hemb.
  { exists [], []. split; [by rewrite app_nil_r|done]. }
  assert (Forall (λ k, size k ≤ S (S (length (specList roots).*1))) roots)
    as Hfuel.
  { apply Forall_forall. intros t Ht. apply size_le_sum in Ht.
    rewrite length_fmap. unfold specList. rewrite sforest_length. lia. }
  destruct (leaves_assigned_forest roots roots
              (proj2 (Forall_forall _ _) (λ t _, leaves_assigned_tree roots t))
              1 0 None 0 Hemb _ ∅ Hfuel) as (leafX & E1 & _ & L1).
  rewrite E1. cbn [mbind option_bind].
  destruct (units_computed_forest roots leafX roots
              (proj2 (Forall_forall _ _)
                 (λ t _, units_computed_tree roots leafX L1 t))
              1 0 None 0 Hemb _ ∅ Hfuel) as (xUnit & E2 & _ & L2).
  exists xUnit. split; [exact E2|exact L2].
Qed.

(** ** Finite numbers *)

Lemma fin_nadd (a b : num) : fin_num a → fin_num b → fin_num (nadd a b).
Proof. intros [x ->] [y ->]. by eexists. Qed.

Lemma fin_nsub (a b : num) : fin_num a → fin_num b → fin_num (nsub a b).
Proof. intros [x ->] [y ->]. by eexists. Qed.

Lemma nmax_Fin (a b : Q) :
  nmax (Fin a) (Fin b) = Fin (if Qlt_le_dec a b then b else a).
Proof. unfold nmax, nlt. by destruct (Qlt_le_dec a b). Qed.

Lemma nmin_Fin (a b : Q) :
  nmin (Fin a) (Fin b) = Fin (if Qlt_le_dec b a then b else a).
Proof. unfold nmin, nlt. by destruct (Qlt_le_dec b a). Qed.

Lemma fin_nmax (a b : num) : fin_num a → fin_num b → fin_num (nmax a b).
Proof. intros [x ->] [y ->]. rewrite nmax_Fin. by eexists. Qed.

Lemma fin_nmin (a b : num) : fin_num a → fin_num b → fin_num (nmin a b).
Proof. intros [x ->] [y ->]. rewrite nmin_Fin. by eexists. Qed.

Lemma fin_half (a : num) : fin_num a → fin_num (ndiv a (Fin 2)).
Proof. intros [x ->]. by eexists. Qed.

Lemma fin_if (c : bool) (a b : num) :
  fin_num a → fin_num b → fin_num (if c then a else b).
Proof. by destruct c. Qed.

Lemma fin_Fin (q : Q) : fin_num (Fin q).
Proof. by eexists. Qed.

Lemma fin_foldl (f : num → num → num) (l : list num) (a : num) :
  (∀ x y, fin_num x → fin_num y → fin_num (f x y)) →
  fin_num a → Forall fin_num l → fin_num (foldl f a l).
Proof.
  intros Hf Ha Hl. revert a Ha.
  induction Hl as [|x l Hx _ IH]; intros a Ha; [done|].
  simpl. apply IH. by apply Hf.
Qed.

Lemma fin_nminl (l : list num) : l ≠ [] → Forall fin_num l → fin_num (nminl l).
Proof.
  intros Hne Hl. destruct Hl as [|x l [q ->] Hl]; [done|].
  unfold nminl. simpl. apply fin_foldl; [apply fin_nmin|apply fin_Fin|done].
Qed.

Lemma fin_nmaxl (l : list num) : l ≠ [] → Forall fin_num l → fin_num (nmaxl l).
Proof.
  intros Hne Hl. destruct Hl as [|x l [q ->] Hl]; [done|].
  unfold nmaxl. simpl. apply fin_foldl; [apply fin_nmax|apply fin_Fin|done].
Qed.

Lemma truthy_false (q : Q) : truthy (Fin q) = false → (q == 0)%Q.
Proof.
  simpl. intros H. apply negb_false_iff in H. by apply Qeq_bool_eq.
Qed.

Create HintDb fin.
#[global] Hint Resolve fin_nadd fin_nsub fin_nmax fin_nmin fin_half fin_if
  fin_Fin : fin.

(** ** The shifts of the normalisation *)

Lemma shifted_fin (DX DY : Q) (P P' : list PositionedNode) :
  Forall finP P → Forall2 (shifted DX DY) P P' → Forall finP P'.
Proof.
  intros HP H. induction H as [|p p' P P' Hp _ IH]; [constructor|].
  inversion HP as [|? ? (_ & _ & Hw & Hh) HP']; subst.
  constructor; [|by apply IH].
  destruct Hp as (_ & Ew & Eh & x & y & x' & y' & _ & _ & Ex & Ey & _).
  unfold finP. rewrite Ew, Eh, Ex, Ey. eauto with fin.
Qed.

Lemma shifted_trans (a b c d : Q) (P P' P'' : list PositionedNode) :
  Forall2 (shifted a b) P P' → Forall2 (shifted c d) P' P'' →
  Forall2 (shifted (a + c) (b + d)) P P''.
Proof.
  intros H. revert P''. induction H as [|p p' P P' Hp _ IH]; intros P'' H'.
  - inversion H'. constructor.
  - inversion H' as [|? p'' ? P''0 Hp' H'']; subst.
    constructor; [|by apply IH].
    destruct Hp as (En & Ew & Eh & x & y & x' & y' & Ex & Ey & Ex' & Ey' & Hx & Hy).
    destruct Hp' as (En' & Ew' & Eh' & x1 & y1 & x2 & y2
                     & Ex1 & Ey1 & Ex2 & Ey2 & Hx' & Hy').
    rewrite Ex' in Ex1. rewrite Ey' in Ey1.
    injection Ex1 as <-. injection Ey1 as <-.
    split; [congruence|]. split; [congruence|]. split; [congruence|].
    exists x, y, x2, y2. repeat split; try done; lra.
Qed.

Lemma shift_step (P : list PositionedNode) (dx dy : Q) :
  Forall finP P →
  Forall2 (shifted dx dy) P
    (if truthy (Fin dx) || truthy (Fin dy)
     then map (shift (Fin dx) (Fin dy)) P else P).
Proof.
  intros HP. destruct (truthy (Fin dx) || truthy (Fin dy)) eqn:E.
  - induction HP as [|p P ([x Ex] & [y Ey] & _) _ IH]; [constructor|].
    simpl. constructor; [|done]. repeat split.
    exists x, y, (x + dx)%Q, (y + dy)%Q. simpl. rewrite Ex, Ey.
    repeat split; done.
  - apply orb_false_iff in E as [Hx%truthy_false Hy%truthy_false].
    induction HP as [|p P ([x Ex] & [y Ey] & _) _ IH]; [constructor|].
    constructor; [|done]. repeat split.
    exists x, y, x, y. repeat split; try done; lra.
Qed.

Lemma shiftX_step (P : list PositionedNode) (c : Q) :
  Forall finP P →
  Forall2 (shifted c 0) P
    (if truthy (Fin c) then map (shiftX (Fin c)) P else P).
Proof.
  intros HP. destruct (truthy (Fin c)) eqn:E.
  - induction HP as [|p P ([x Ex] & [y Ey] & _) _ IH]; [constructor|].
    simpl. constructor; [|done]. repeat split.
    exists x, y, (x + c)%Q, y. simpl. rewrite Ex, Ey.
    repeat split; try done; lra.
  - apply truthy_false in E.
    induction HP as [|p P ([x Ex] & [y Ey] & _) _ IH]; [constructor|].
    constructor; [|done]. repeat split.
    exists x, y, x, y. repeat split; try done; lra.
Qed.

Lemma fin_map_px (P : list PositionedNode) :
  Forall finP P → Forall fin_num (map px P).
Proof. induction 1 as [|p P (? & _) _ IH]; constructor; done. Qed.

Lemma fin_map_py (P : list PositionedNode) :
  Forall finP P → Forall fin_num (map py P).
Proof. induction 1 as [|p P (_ & ? & _) _ IH]; constructor; done. Qed.

Lemma fin_map_right (P : list PositionedNode) :
  Forall finP P → Forall fin_num (map (λ p, nadd (px p) (pw p)) P).
Proof.
  induction 1 as [|p P (? & _ & ? & _) _ IH]; constructor; auto with fin.
Qed.

Lemma normalize_spec (P : list PositionedNode) :
  P ≠ [] → Forall finP P →
  ∃ DX DY, Forall2 (shifted DX DY) P (positioned (normalize P)).
Proof.
  intros Hne HP. unfold normalize. cbv zeta. cbn [positioned].
  assert (fin_num (if nlt (nminl (map px P)) MARGIN
                   then nsub MARGIN (nminl (map px P)) else Fin 0))
    as [dx ->].
  { apply fin_if; [|apply fin_Fin]. apply fin_nsub; [apply fin_Fin|].
    apply fin_nminl; [by destruct P|by apply fin_map_px]. }
  assert (fin_num (if nlt (nminl (map py P)) MARGIN
                   then nsub MARGIN (nminl (map py P)) else Fin 0))
    as [dy ->].
  { apply fin_if; [|apply fin_Fin]. apply fin_nsub; [apply fin_Fin|].
    apply fin_nminl; [by destruct P|by apply fin_map_py]. }
  pose proof (shift_step P dx dy HP) as H1.
  set (P1 := if truthy (Fin dx) || truthy (Fin dy)
             then map (shift (Fin dx) (Fin dy)) P else P) in *.
  pose proof (shifted_fin _ _ _ _ HP H1) as HP1.
  assert (P1 ≠ []) as Hne1.
  { intros E. rewrite E in H1. apply Forall2_nil_inv_r in H1. done. }
  match goal with
  | |- ∃ DX DY, Forall2 _ P (if truthy ?c then _ else _) =>
    assert (fin_num c) as [cx ->]
  end.
  { apply fin_nsub.
    - apply fin_nmax; [apply fin_Fin|]. apply fin_half. apply fin_nsub.
      + apply fin_nadd; [|apply fin_Fin]. apply fin_nmax; [|apply fin_Fin].
        apply fin_nmaxl; [by destruct P1|by apply fin_map_right].
      + apply fin_nsub.
        * apply fin_nmaxl; [by destruct P1|by apply fin_map_right].
        * apply fin_nminl; [by destruct P1|by apply fin_map_px].
    - apply fin_nminl; [by destruct P1|by apply fin_map_px]. }
  exists (dx + cx)%Q, (dy + 0)%Q.
  eapply shifted_trans; [exact H1|]. by apply shiftX_step.
Qed.

(** ** Rows *)

Lemma yTops_Fin (hs : list Q) (acc : Q) :
  yTops (Fin acc) (map Fin hs) = map Fin (tops acc hs).
Proof.
  revert acc. induction hs as [|h hs IH]; intros acc; [done|].
  simpl. f_equal. apply IH.
Qed.

Lemma tops_length (hs : list Q) (acc : Q) : length (tops acc hs) = length hs.
Proof. revert acc. induction hs; intros acc; simpl; [done|]. by rewrite IHhs. Qed.

Lemma tops_ge (hs : list Q) :
  Forall (λ h, 0 <= h)%Q hs →
  ∀ acc d t, tops acc hs !! d = Some t → (acc <= t)%Q.
Proof.
  induction 1 as [|h hs Hh _ IH]; intros acc d t; [done|].
  destruct d as [|d]; simpl.
  - intros [= <-]. lra.
  - intros H%IH. lra.
Qed.

(** A lower row starts below the end of every higher row. *)
Lemma tops_mono (hs : list Q) :
  Forall (λ h, 0 <= h)%Q hs →
  ∀ acc d1 d2 t1 t2 h1,
    d1 < d2 → tops acc hs !! d1 = Some t1 → tops acc hs !! d2 = Some t2 →
    hs !! d1 = Some h1 → (t1 + h1 + 50 <= t2)%Q.
Proof.
  induction 1 as [|h hs Hh Hhs IH]; intros acc d1 d2 t1 t2 h1 Hlt; [done|].
  destruct d2 as [|d2]; [lia|]. destruct d1 as [|d1]; simpl.
  - intros [= <-] H2 [= <-]. apply (tops_ge _ Hhs) in H2. lra.
  - apply IH. lia.
Qed.

Section RowHeights.

Variable hgt : FlatNode → num.

(** The fold that computes [maxHPerDepth], from finite row heights. *)
Lemma rows_fold (flat : list FlatNode) :
  ∀ hs0,
    Forall (λ n, fdepth n < length hs0 ∧ ∃ h, hgt n = Fin h ∧ (0 <= h)%Q) flat →
    Forall (λ h, 0 <= h)%Q hs0 →
    ∃ hs, foldl (rowStep hgt) (map Fin hs0) flat = map Fin hs
          ∧ length hs = length hs0
          ∧ Forall (λ h, 0 <= h)%Q hs
          ∧ (∀ d x, hs0 !! d = Some x → ∃ y, hs !! d = Some y ∧ (x <= y)%Q)
          ∧ Forall (λ n, ∃ H h, hs !! fdepth n = Some H ∧ hgt n = Fin h
                                ∧ (h <= H)%Q) flat.
Proof.
  induction flat as [|n flat IH]; intros hs0 Hflat Hhs0.
  - exists hs0. split; [done|]. split; [done|]. split; [done|].
    split; [|constructor]. intros d x Hx. exists x. split; [done|lra].
  - inversion Hflat as [|? ? (Hd & h & Eh & Hh) Hflat']; subst.
    destruct (lookup_lt_is_Some_2 hs0 (fdepth n) Hd) as [x Hx].
    set (y := if Qlt_le_dec x h then h else x).
    assert (x <= y ∧ h <= y ∧ 0 <= y)%Q as (Hxy & Hhy & Hy).
    { unfold y. rewrite Forall_forall in Hhs0.
      pose proof (Hhs0 x (list_elem_of_lookup_2 _ _ _ Hx)).
      destruct (Qlt_le_dec x h); repeat split; lra. }
    assert (rowStep hgt (map Fin hs0) n = map Fin (<[fdepth n := y]> hs0)) as E.
    { unfold rowStep. rewrite list_lookup_fmap, Hx, Eh.
      change (default NaN (Fin <$> Some x)) with (Fin x).
      rewrite nmax_Fin. by rewrite list_fmap_insert. }
    destruct (IH (<[fdepth n := y]> hs0)) as (hs & Ehs & Hlen & Hpos & Hmono & Hall).
    { eapply Forall_impl; [exact Hflat'|]. intros n' Hn'.
      by rewrite length_insert. }
    { apply Forall_insert; [done|]. done. }
    exists hs. simpl foldl. rewrite E. split; [done|].
    split; [by rewrite Hlen, length_insert|]. split; [done|]. split.
    + intros d x' Hx'. destruct (decide (d = fdepth n)) as [->|Hne].
      * rewrite Hx in Hx'. injection Hx' as <-.
        destruct (Hmono (fdepth n) y) as (z & Hz & Hyz).
        { by rewrite list_lookup_insert_eq. }
        exists z. split; [done|lra].
      * apply Hmono. by rewrite list_lookup_insert_ne.
    + constructor; [|done].
      destruct (Hmono (fdepth n) y) as (z & Hz & Hyz).
      { by rewrite list_lookup_insert_eq. }
      exists z, h. repeat split; [done..|lra].
Qed.

End RowHeights.

Lemma maxDepth_ge (flat : list FlatNode) (n : FlatNode) :
  n ∈ flat → fdepth n ≤ maxDepthOf flat.
Proof.
  unfold maxDepthOf.
  assert (∀ l a, a ≤ foldl Nat.max a l
                 ∧ ∀ x, x ∈ l → x ≤ foldl Nat.max a l) as H.
  { induction l as [|y l IH]; intros a; simpl.
    - split; [done|]. by intros x ?%elem_of_nil.
    - destruct (IH (a `max` y)) as [H1 H2]. split; [lia|].
      intros x [->|Hx]%elem_of_cons; [lia|by apply H2]. }
  intros Hn. apply H. apply list_elem_of_In, in_map, list_elem_of_In, Hn.
Qed.

(** ** The placed nodes *)

Lemma Forall2_map_self {A B} (R : A → B → Prop) (g : A → B) (l : list A) :
  (∀ x, x ∈ l → R x (g x)) → Forall2 R l (map g l).
Proof.
  induction l as [|x l IH]; intros H; [constructor|].
  simpl. constructor; [apply H; left|]. apply IH. intros y Hy. apply H.
  by right.
Qed.

Lemma Forall2_map_fst {A B C} (R : A * B → C → Prop) (g : A → C)
    (l : list (A * B)) :
  (∀ x, x ∈ l → R x (g x.1)) → Forall2 R l (map g l.*1).
Proof.
  induction l as [|x l IH]; intros H; [constructor|].
  simpl. constructor; [apply H; left|]. apply IH. intros y Hy. apply H.
  by right.
Qed.

Lemma clampW_Fin (x : Q) :
  ∃ w, clampW (Fin x) = Fin w ∧ (120 <= w ∧ w <= 210)%Q.
Proof.
  unfold clampW, MIN_NODE_W, MAX_NODE_W. rewrite nmin_Fin, nmax_Fin.
  eexists. split; [done|].
  destruct (Qlt_le_dec x 210), (Qlt_le_dec 120 _); split; lra.
Qed.

Section LayoutSpec.

Variable measureTextPx : str → str → Q.

Lemma nodeBox_width (n : FlatNode) :
  ∃ w, (nodeBox measureTextPx n).1.2 = Fin w ∧ (120 <= w ∧ w <= 210)%Q.
Proof.
  unfold nodeBox. cbv zeta. cbn [fst snd].
  set (m := measureTextPx (cleanText (ftext n)) FONT).
  change (nadd (Fin m) (nmul PADDING_X (Fin 2))) with (Fin (m + 12 * 2)).
  destruct (nlt MAX_NODE_W (Fin (m + 12 * 2))).
  - exists 210%Q. split; [done|lra].
  - apply clampW_Fin.
Qed.

Lemma nodeBox_height (n : FlatNode) :
  ∃ h, (nodeBox measureTextPx n).2 = Fin h ∧ (0 <= h)%Q.
Proof.
  unfold nodeBox. cbv zeta. cbn [fst snd].
  match goal with
  | |- ∃ h, nadd (nadd _ (nmul (of_nat ?len) _)) _ = _ ∧ _ =>
    exists (10 * 2 + iq len * 16 + 8)%Q; split; [done|];
    pose proof (iq_le 0 len ltac:(lia)) as H
  end.
  change (iq 0) with 0%Q in H. lra.
Qed.

Section Flat.

Variable roots : list Node.

Lemma flat_ids (k : nat) (n : FlatNode) : (specFlat roots) !! k = Some n → fid n = S k.
Proof using Type.
  unfold specFlat. rewrite list_lookup_fmap.
  destruct (specList roots !! k) as [[e u]|] eqn:E; [|done].
  intros [= <-]. by apply specList_ids in E.
Qed.

Lemma flat_elem (e : FlatNode) (u : Q) : (e, u) ∈ specList roots → e ∈ (specFlat roots).
Proof using Type.
  intros H. unfold specFlat. apply list_elem_of_fmap. by exists (e, u).
Qed.

Lemma boxmap_lookup {V} (g : FlatNode → V) (n : FlatNode) :
  n ∈ (specFlat roots) →
  foldl (λ m n, <[fid n := g n]> m) (∅ : gmap nat V) (specFlat roots) !! fid n
  = Some (g n).
Proof using Type.
  intros [k Hk]%list_elem_of_lookup.
  rewrite (idmap_lookup g (specFlat roots) (fid n) flat_ids).
  rewrite (flat_ids k n Hk). by rewrite Hk.
Qed.

Lemma rows_spec :
  ∃ hs, maxHPerDepthOf measureTextPx (specFlat roots) = map Fin hs
        ∧ Forall (λ h, 0 <= h)%Q hs
        ∧ Forall (λ n, ∃ H h, hs !! fdepth n = Some H
                              ∧ (nodeBox measureTextPx n).2 = Fin h
                              ∧ (0 <= h ∧ h <= H)%Q) (specFlat roots).
Proof using Type.
  unfold maxHPerDepthOf.
  destruct (rows_fold (λ n, getNum (heightByIdOf measureTextPx (specFlat roots)) (fid n))
              (specFlat roots) (replicate (S (maxDepthOf (specFlat roots))) 0%Q))
    as (hs & E & _ & Hpos & _ & Hall).
  - apply Forall_forall. intros n Hn. rewrite length_replicate. split.
    + apply maxDepth_ge in Hn. lia.
    + destruct (nodeBox_height n) as (h & Eh & Hh). exists h.
      split; [|done]. unfold getNum, heightByIdOf.
      by rewrite (boxmap_lookup _ n Hn).
  - apply Forall_forall. intros h Hh%elem_of_replicate_inv. subst. lra.
  - exists hs. split.
    { rewrite <- E. f_equal. by rewrite <- fmap_replicate. }
    split; [done|]. apply Forall_forall. intros n Hn.
    rewrite Forall_forall in Hall. destruct (Hall n Hn) as (H & h & EH & Eh & Hle).
    destruct (nodeBox_height n) as (h' & Eh' & Hh').
    unfold getNum, heightByIdOf in Eh. rewrite (boxmap_lookup _ n Hn) in Eh.
    cbn [default from_option id] in Eh. rewrite Eh' in Eh. injection Eh as ->.
    exists H, h. repeat split; done.
Qed.

Lemma place_spec (xUnit : gmap nat num) :
  (∀ e u, (e, u) ∈ specList roots → xUnit !! fid e = Some (Fin u)) →
  ∃ hs, Forall (λ h, 0 <= h)%Q hs
        ∧ Forall2 (placed hs 0 0) (specList roots)
                  (place measureTextPx (specFlat roots) xUnit).
Proof using Type.
  intros HX. destruct rows_spec as (hs & Ehs & Hpos & Hrows).
  exists hs. split; [done|]. unfold place. cbv zeta. rewrite Ehs, yTops_Fin.
  apply (Forall2_map_fst (placed hs 0 0)). intros [e u] Heu.
  pose proof (flat_elem e u Heu) as He.
  rewrite Forall_forall in Hrows.
  destruct (Hrows e He) as (H & h & EH & Eh & Hh).
  destruct (nodeBox_width e) as (w & Ew & Hw).
  assert (is_Some (tops 30 hs !! fdepth e)) as [y0 Ey0].
  { apply lookup_lt_is_Some. rewrite tops_length.
    by eapply lookup_lt_Some. }
  split; [done|]. cbn [fst snd px py pw ph pnode].
  unfold getNum, widthByIdOf, heightByIdOf.
  rewrite !(boxmap_lookup _ e He), (HX e u Heu), Ew, Eh.
  rewrite list_lookup_fmap, Ey0.
  exists (30 + u * (210 + 54) + - (w / 2))%Q, y0, w, h, y0, H.
  repeat split; try done; lra.
Qed.

End Flat.

(** The layout of a non-empty forest: every entry of the flat array is
    placed, up to one shift of the whole drawing. *)
Lemma layout_spec (roots : list Node) :
  roots ≠ [] →
  ∃ L hs DX DY,
    layoutTreeForSvg measureTextPx (flattenTree roots) = Some L
    ∧ Forall (λ h, 0 <= h)%Q hs
    ∧ Forall2 (placed hs DX DY) (specList roots) (positioned L).
Proof using Type.
  intros Hne. unfold layoutTreeForSvg.
  destruct (xUnitOf_spec roots) as (xUnit & EX & HX). rewrite EX.
  cbn [mbind option_bind]. rewrite (flattenTree_spec roots 0).
  fold (specList roots).
  destruct (place_spec roots xUnit HX) as (hs & Hpos & Hplace).
  unfold specFlat in Hplace.
  set (P0 := place measureTextPx (specList roots).*1 xUnit) in *.
  assert (Forall finP P0) as Hfin.
  { clear -Hplace. induction Hplace as [|eu p S P Hp _ IH]; [constructor|].
    constructor; [|done].
    destruct Hp as (_ & x & y & w & h & y0 & H & Ex & Ey & Ew & Eh & _).
    unfold finP. rewrite Ex, Ey, Ew, Eh. eauto 10 with fin. }
  assert (P0 ≠ []) as Hne0.
  { intros E. rewrite E in Hplace. apply Forall2_nil_inv_r in Hplace.
    unfold specList in Hplace. destruct roots as [|[txt cs] r]; [done|].
    change (sforest (mkNode txt cs :: r) 1 0 None 0)
      with (slist (mkNode txt cs) 1 0 None 0
              ++ sforest r (1 + size (mkNode txt cs)) 0 None
                   (0 + leaves (mkNode txt cs))) in Hplace.
    rewrite slist_node in Hplace. done. }
  destruct (normalize_spec P0 Hne0 Hfin) as (DX & DY & Hshift).
  exists (normalize P0), hs, DX, DY. split; [done|]. split; [done|].
  revert Hshift. generalize (positioned (normalize P0)). clear -Hplace.
  induction Hplace as [|eu p S P Hp _ IH]; intros P' Hshift.
  - inversion Hshift. constructor.
  - inversion Hshift as [|? p' ? P'' Hp' Hshift']; subst.
    constructor; [|by apply IH].
    destruct Hp as (En & x & y & w & h & y0 & H & Ex & Ey & Ew & Eh
                    & Hx & Hw & Ey0 & Hy & EH & Hh).
    destruct Hp' as (En' & Ew' & Eh' & x1 & y1 & x' & y'
                     & Ex1 & Ey1 & Ex' & Ey' & Hx' & Hy').
    rewrite Ex in Ex1. rewrite Ey in Ey1.
    injection Ex1 as <-. injection Ey1 as <-.
    split; [congruence|]. exists x', y', w, h, y0, H.
    rewrite Ew', Eh'. repeat split; try done; lra.
Qed.

End LayoutSpec.

(** ** The claims about the layout *)

Lemma nlt_Fin_true (a b : Q) : (a < b)%Q → nlt (Fin a) (Fin b) = true.
Proof. intros H. unfold nlt. destruct (Qlt_le_dec a b); [done|lra]. Qed.

Lemma placed_apart (hs : list Q) (DX DY : Q) (S : list (FlatNode * Q)) :
  Forall (λ h, 0 <= h)%Q hs → separated S →
  ∀ k1 k2 eu1 eu2 p q,
    k1 < k2 → S !! k1 = Some eu1 → S !! k2 = Some eu2 →
    placed hs DX DY eu1 p → placed hs DX DY eu2 q →
    apart p q = true ∧ apart q p = true.
Proof.
  intros Hhs Hsep k1 k2 [e1 u1] [e2 u2] p q Hlt H1 H2.
  intros (_ & x1 & y1 & w1 & h1 & t1 & R1 & Ex1 & Ey1 & Ew1 & Eh1
          & Hx1 & Hw1 & Et1 & Hy1 & ER1 & Hh1).
  intros (_ & x2 & y2 & w2 & h2 & t2 & R2 & Ex2 & Ey2 & Ew2 & Eh2
          & Hx2 & Hw2 & Et2 & Hy2 & ER2 & Hh2).
  cbn [fst snd] in *. unfold apart.
  unfold Qdiv in Hx1, Hx2. change (/ 2)%Q with (1 # 2)%Q in Hx1, Hx2.
  rewrite Ex1, Ey1, Ew1, Eh1, Ex2, Ey2, Ew2, Eh2.
  change (nadd (Fin ?a) (Fin ?b)) with (Fin (a + b)).
  destruct (lt_eq_lt_dec (fdepth e1) (fdepth e2)) as [[Hd|Hd]|Hd].
  - pose proof (tops_mono hs Hhs 30 _ _ _ _ _ Hd Et1 Et2 ER1).
    assert (nlt (Fin (y1 + h1)) (Fin y2) = true) as ->
      by (apply nlt_Fin_true; lra).
    split; [by rewrite !orb_true_r|by rewrite !orb_true_r].
  - pose proof (Hsep k1 k2 e1 u1 e2 u2 Hlt H1 H2 Hd).
    assert (nlt (Fin (x1 + w1)) (Fin x2) = true) as ->
      by (apply nlt_Fin_true; lra).
    split; [done|by rewrite !orb_true_r].
  - pose proof (tops_mono hs Hhs 30 _ _ _ _ _ Hd Et2 Et1 ER2).
    assert (nlt (Fin (y2 + h2)) (Fin y1) = true) as ->
      by (apply nlt_Fin_true; lra).
    split; [by rewrite !orb_true_r|by rewrite !orb_true_r].
Qed.

(** C5.  For every tree of the parser the layout returns a result, and
    in it the rectangles of two different nodes of which neither is an
    ancestor of the other do not meet. *)
Theorem layout_no_overlap (measureTextPx : str → str → Q) (input : str)
    (indentSize : nat) (roots : list Node) :
  parseIndentedTree input indentSize = Some roots →
  ∃ L, layoutTreeForSvg measureTextPx (flattenTree roots) = Some L
       ∧ ∀ p q, p ∈ positioned L → q ∈ positioned L →
                fid (pnode p) ≠ fid (pnode q) →
                ancestor (flattenTree roots) (fid (pnode p)) (fid (pnode q))
                = false →
                ancestor (flattenTree roots) (fid (pnode q)) (fid (pnode p))
                = false →
                apart p q = true.
Proof.
  intros _. destruct roots as [|r rest].
  { eexists. split; [reflexivity|]. by intros p q ?%elem_of_nil. }
  destruct (layout_spec measureTextPx (r :: rest)) as (L & hs & DX & DY & E & Hhs & HL);
    [done|].
  exists L. split; [done|]. intros p q Hp Hq Hne _ _.
  apply list_elem_of_lookup in Hp as [k1 Hk1], Hq as [k2 Hk2].
  destruct (Forall2_lookup_r _ _ _ _ _ HL Hk1) as (eu1 & H1 & P1).
  destruct (Forall2_lookup_r _ _ _ _ _ HL Hk2) as (eu2 & H2 & P2).
  pose proof (sforest_separated (r :: rest) 1 0 None 0) as Hsep.
  destruct (lt_eq_lt_dec k1 k2) as [[Hlt|Heq]|Hlt].
  - by destruct (placed_apart hs DX DY _ Hhs Hsep _ _ _ _ _ _ Hlt H1 H2 P1 P2).
  - subst k2. rewrite Hk1 in Hk2. injection Hk2 as <-. done.
  - by destruct (placed_apart hs DX DY _ Hhs Hsep _ _ _ _ _ _ Hlt H2 H1 P2 P1).
Qed.

Lemma layout_no_overlap_witness :
  ∃ L, layoutTreeForSvg fallbackMeasure (flattenTree sampleForest) = Some L
       ∧ ∃ p q, positioned L !! 1 = Some p ∧ positioned L !! 3 = Some q
                ∧ apart p q = true.
Proof.
  destruct (layout_no_overlap fallbackMeasure sampleInput 2 sampleForest
              eq_refl) as (L & E & H).
  exists L. split; [exact E|]. vm_compute in E. injection E as <-.
  eexists _, _. split; [reflexivity|]. split; [reflexivity|].
  apply H.
  - apply list_elem_of_lookup. by exists 1.
  - apply list_elem_of_lookup. by exists 3.
  - simpl. lia.
  - by vm_compute.
  - by vm_compute.
Defined.

Lemma sum_affine (a b : Q) (us cs : list Q) :
  Forall2 (λ u c, c == a + u * b)%Q us cs →
  ∀ s t, (foldl Qplus t cs
          == t + iq (length us) * a + (foldl Qplus s us - s) * b)%Q.
Proof.
  induction 1 as [|u c us cs Hc _ IH]; intros s t.
  - simpl. change (iq 0) with 0%Q. ring.
  - simpl foldl. rewrite (IH (s + u)%Q (t + c)%Q).
    change (length (u :: us)) with (1 + length us).
    rewrite iq_add, iq_1, Hc. ring.
Qed.

Lemma mean_affine (a b : Q) (us cs : list Q) :
  us ≠ [] → Forall2 (λ u c, c == a + u * b)%Q us cs →
  (mean cs == a + mean us * b)%Q.
Proof.
  intros Hne H. unfold mean. rewrite (sum_affine a b us cs H 0%Q 0%Q).
  rewrite <- (Forall2_length _ _ _ H).
  assert (0 < iq (length us))%Q as Hn.
  { apply iq_pos. destruct us; [done|simpl; lia]. }
  field. lra.
Qed.

Lemma placed_center (hs : list Q) (DX DY : Q) (eu : FlatNode * Q)
    (p : PositionedNode) :
  placed hs DX DY eu p →
  ∃ c, centerX p = Fin c ∧ (c == (30 + DX) + eu.2 * 264)%Q.
Proof.
  intros (_ & x & y & w & h & t & R & Ex & _ & Ew & _ & Hx & _).
  unfold centerX. rewrite Ex, Ew. exists (x + w / 2)%Q. split; [done|].
  cbn [snd]. lra.
Qed.

(** C6.  For every tree of the parser the layout returns a result, and
    in it the horizontal centre of every node with children is the mean
    of the horizontal centres of its children. *)
Theorem layout_centered (measureTextPx : str → str → Q) (input : str)
    (indentSize : nat) (roots : list Node) :
  parseIndentedTree input indentSize = Some roots →
  ∃ L, layoutTreeForSvg measureTextPx (flattenTree roots) = Some L
       ∧ ∀ p, p ∈ positioned L → fchildrenIds (pnode p) ≠ [] →
              ∃ kids,
                Forall2 (λ k q, q ∈ positioned L ∧ fid (pnode q) = k)
                        (fchildrenIds (pnode p)) kids
                ∧ num_eq (centerX p) (nmean (map centerX kids)).
Proof.
  intros _. destruct roots as [|r rest].
  { eexists. split; [reflexivity|]. by intros p ?%elem_of_nil. }
  destruct (layout_spec measureTextPx (r :: rest))
    as (L & hs & DX & DY & E & Hhs & HL); [done|].
  exists L. split; [done|]. intros p Hp Hkids.
  apply list_elem_of_lookup in Hp as [k Hk].
  destruct (Forall2_lookup_r _ _ _ _ _ HL Hk) as ([e u] & He & Pp).
  pose proof Pp as (Epn & _). cbn [fst] in Epn. rewrite Epn in *.
  destruct (sforest_centered (r :: rest) 1 0 None 0 e u
              (list_elem_of_lookup_2 _ _ _ He) Hkids) as (us & Hus & Eu).
  assert (∃ kids cs,
            Forall2 (λ k q, q ∈ positioned L ∧ fid (pnode q) = k)
                    (fchildrenIds e) kids
            ∧ map centerX kids = map Fin cs
            ∧ Forall2 (λ u c, c == (30 + DX) + u * 264)%Q us cs)
    as (kids & cs & Hk1 & Hk2 & Hk3).
  { clear -Hus HL. induction Hus as [|i u' ids us (e' & He' & Hi) _ IH].
    - exists [], []. repeat split; constructor.
    - destruct IH as (kids & cs & H1 & H2 & H3).
      apply list_elem_of_lookup in He' as [j Hj].
      destruct (Forall2_lookup_l _ _ _ _ _ HL Hj) as (q & Hq & Pq).
      destruct (placed_center _ _ _ _ _ Pq) as (c & Ec & Hc).
      exists (q :: kids), (c :: cs). split; [|split].
      + constructor; [|done]. split; [by eapply list_elem_of_lookup_2|].
        destruct Pq as (-> & _). done.
      + simpl. by rewrite Ec, H2.
      + constructor; done. }
  exists kids. split; [done|].
  destruct (placed_center _ _ _ _ _ Pp) as (c & Ec & Hc). cbn [snd] in Hc.
  unfold nmean. rewrite Ec, Hk2, foldl_nadd_Fin, length_map.
  assert (us ≠ []) as Hne.
  { intros ->. inversion Hus as [E'|]. by rewrite <- E' in Hkids. }
  rewrite ndiv_of_nat.
  2:{ rewrite <- (Forall2_length _ _ _ Hk3). destruct us; [done|simpl; lia]. }
  simpl. rewrite Hc, Eu. symmetry. by apply mean_affine.
Qed.

Lemma layout_centered_witness :
  ∃ L, layoutTreeForSvg fallbackMeasure (flattenTree sampleForest) = Some L
       ∧ ∃ p kids,
           positioned L !! 0 = Some p
           ∧ Forall2 (λ k q, q ∈ positioned L ∧ fid (pnode q) = k)
                     (fchildrenIds (pnode p)) kids
           ∧ num_eq (centerX p) (nmean (map centerX kids)).
Proof.
  destruct (layout_centered fallbackMeasure sampleInput 2 sampleForest
              eq_refl) as (L & E & H).
  exists L. split; [exact E|]. vm_compute in E. injection E as <-.
  eexists. 
  match goal with
  | |- ∃ kids, ?l !! 0 = Some ?p ∧ _ =>
    destruct (H (default p (l !! 0))) as (kids & Hk & Hc)
  end.
  - apply list_elem_of_lookup. by exists 0.
  - done.
  - exists kids. split; [reflexivity|]. split; [exact Hk|exact Hc].
Defined.

(** C4, as amended.  The empty input parses to no root, the flat array
    of no root is empty, and its layout has no positioned node and a
    canvas of the configured minimum size plus the margin: 920 by 620. *)
Theorem layout_empty (measureTextPx : str → str → Q) (indentSize : nat) :
  parseIndentedTree [] indentSize = Some []
  ∧ flattenTree [] = []
  ∧ layoutTreeForSvg measureTextPx []
    = Some (mkLayout [] (nadd MIN_CANVAS_W MARGIN) (nadd MIN_CANVAS_H MARGIN))
  ∧ nadd MIN_CANVAS_W MARGIN = Fin 920
  ∧ nadd MIN_CANVAS_H MARGIN = Fin 620.
Proof. repeat split. Qed.

(** C4 as stated fails: the canvas of the empty layout is larger than
    the configured minimum size. *)
Lemma layout_empty_counterexample :
  ¬ (∃ L, layoutTreeForSvg fallbackMeasure (flattenTree []) = Some L
          ∧ positioned L = []
          ∧ width L = MIN_CANVAS_W ∧ height L = MIN_CANVAS_H).
Proof.
  intros (L & E & _ & Hw & _). vm_compute in E. injection E as <-.
  vm_compute in Hw. discriminate Hw.
Qed.

(** ** The caret and the Enter key *)

Lemma lastIndexIn_none (c : char) (s : str) :
  c ∉ s → lastIndexIn c s = (-1)%Z.
Proof.
  induction s as [|d r IH]; [done|]. intros H.
  apply not_elem_of_cons in H as [Hd Hr]. cbn [lastIndexIn].
  rewrite (IH Hr). cbn.
  destruct (N.eqb_spec d c); [congruence|done].
Qed.

Lemma lastIndexIn_range (c : char) (s : str) :
  (-1 ≤ lastIndexIn c s < Z.of_nat (length s))%Z.
Proof.
  induction s as [|d r IH]; cbn [lastIndexIn length]; [lia|].
  destruct (Z.leb_spec 0 (lastIndexIn c r)); [lia|].
  destruct (d =? c)%N; lia.
Qed.

Lemma lastIndexIn_app (c : char) (pre s : str) :
  c ∉ s → lastIndexIn c (pre ++ c :: s) = Z.of_nat (length pre).
Proof.
  intros H. induction pre as [|d r IH]; cbn [app lastIndexIn length].
  - rewrite (lastIndexIn_none _ _ H). cbn. by rewrite N.eqb_refl.
  - rewrite IH. destruct (Z.leb_spec 0 (Z.of_nat (length r))); lia.
Qed.

(** The position after the last line break at or before [cursor - 1]:
    the caret is [o] characters after a line break, none of them a line
    break. *)
Lemma lineStart_after_break (pre rest : str) (o : nat) :
  NL ∉ take o rest → o ≤ length rest →
  (lastIndexOf NL ((pre ++ [NL]) ++ rest)
               (Z.of_nat (length (pre ++ [NL]) + o) - 1) + 1)%Z
  = Z.of_nat (length (pre ++ [NL])).
Proof.
  intros Hl Ho. unfold lastIndexOf.
  destruct ((pre ++ [NL]) ++ rest) as [|c0 r0] eqn:E.
  { by destruct pre. }
  rewrite <- E. clear E c0 r0.
  rewrite !length_app. cbn [length].
  set (n := length pre).
  replace (Z.min _ _) with (Z.of_nat (n + o)) by lia.
  rewrite Nat2Z.id.
  replace (S (n + o)) with (length (pre ++ [NL]) + o)
    by (rewrite length_app; cbn; lia).
  rewrite take_app_add. rewrite <- (assoc_L app). cbn [app].
  rewrite lastIndexIn_app; [lia|done].
Qed.

(** The caret is in the first line. *)
Lemma lineStart_first_line (text : str) (o : nat) :
  NL ∉ take (Nat.max o 1) text →
  (lastIndexOf NL text (Z.of_nat o - 1) + 1)%Z = 0%Z.
Proof.
  intros H. unfold lastIndexOf. destruct text as [|c r] eqn:E; [done|].
  rewrite <- E in *.
  assert (0 < length text) as Hlen by (rewrite E; cbn; lia).
  set (start := Z.min _ _).
  rewrite lastIndexIn_none; [done|].
  intros Hin. apply H.
  apply elem_of_take in Hin as (i & Hi & Hlt).
  apply elem_of_take. exists i. split; [done|]. unfold start in Hlt. lia.
Qed.


Lemma countLeadingSpaces_line (l post : str) :
  post = [] ∨ (∃ r, post = NL :: r) →
  countLeadingSpaces (l ++ post) = countLeadingSpaces l.
Proof.
  intros Hp. induction l as [|c r IH]; cbn [app countLeadingSpaces].
  - by destruct Hp as [->|[r ->]].
  - by rewrite IH.
Qed.

(** X1.  The result is the indent of the line that holds the caret,
    whatever the column of the caret in that line: if the text is
    [pre ++ l ++ post], where [pre] is empty or ends with a line break,
    the line [l] has no line break and [post] is empty or starts with
    one, then for a caret [o] characters into [l] the function returns
    the number of leading spaces of [l].  The one exception is a caret at
    position 0 of a text that starts with a line break. *)
Theorem indent_of_caret_line (pre l post : str) (o : nat) :
  pre = [] ∨ (∃ p, pre = p ++ [NL]) →
  NL ∉ l →
  post = [] ∨ (∃ r, post = NL :: r) →
  o ≤ length l →
  0 < length pre + o ∨ l ≠ [] ∨ post = [] →
  getLineIndentBeforeCursor (pre ++ l ++ post) (Z.of_nat (length pre + o))
  = countLeadingSpaces l.
Proof.
  intros Hpre Hl Hpost Ho Hedge. unfold getLineIndentBeforeCursor.
  destruct Hpre as [->|[p ->]].
  - cbn [app length Nat.add]. rewrite lineStart_first_line.
    + cbn [Z.to_nat drop]. by apply countLeadingSpaces_line.
    + intros Hin. apply elem_of_take in Hin as (i & Hi & Hlt).
      destruct (decide (i < length l)) as [Hil|Hil].
      * rewrite lookup_app_l in Hi by done.
        apply Hl. by apply list_elem_of_lookup; exists i.
      * assert (l = []) as -> by (destruct l; [done|cbn in *; lia]).
        cbn in *. assert (o = 0) as -> by lia.
        destruct Hedge as [?|[?|Hp]]; [lia|done|]. by rewrite Hp in Hi.
  - rewrite lineStart_after_break.
    + rewrite Nat2Z.id, drop_app_length. by apply countLeadingSpaces_line.
    + rewrite take_app_le by done. intros Hin. apply Hl.
      apply elem_of_take in Hin as (i & Hi & _).
      by apply list_elem_of_lookup; exists i.
    + rewrite length_app. lia.
Qed.

Lemma indent_of_caret_line_witness :
  getLineIndentBeforeCursor (js "A\n" ++ js "    B" ++ js "\nC")
    (Z.of_nat (length (js "A\n") + 2))
  = countLeadingSpaces (js "    B").
Proof.
  apply (indent_of_caret_line (js "A\n") (js "    B") (js "\nC") 2).
  - right. by exists (js "A").
  - vm_compute. intros H. by repeat (apply elem_of_cons in H as [H|H]; [done|]);
      apply elem_of_nil in H.
  - right. by exists (js "C").
  - vm_compute. lia.
  - left. vm_compute. lia.
Defined.

(** X2.  With the caret at position 0 of a text that starts with a line
    break, the search for the line break before the caret starts at
    position 0 itself (the position [-1] is clamped), so the function
    returns the indent of the second line, and Enter inserts a line
    indented two more than the second line although the caret is on the
    empty first line. *)
Theorem indent_at_start_before_break (rest : str) :
  getLineIndentBeforeCursor (NL :: rest) 0 = countLeadingSpaces rest
  ∧ onInputKeyDown (NL :: rest) 0 0
    = (NL :: repeat_char SP (countLeadingSpaces rest + 2) ++ NL :: rest,
       1 + (countLeadingSpaces rest + 2)).
Proof.
  assert (getLineIndentBeforeCursor (NL :: rest) 0 = countLeadingSpaces rest)
    as E.
  { unfold getLineIndentBeforeCursor, lastIndexOf.
    replace (Z.min _ _) with 0%Z by (cbn [length]; lia). done. }
  split; [done|]. unfold onInputKeyDown. change (Z.of_nat 0) with 0%Z. rewrite E.
  cbn [take drop app length INDENT_SIZE]. unfold repeat_char.
  by rewrite length_replicate.
Qed.



(** ** The wrapper of the connector text *)

Lemma trimStart_app (a b : str) :
  trimStart (a ++ b)
  = match trimStart a with [] => trimStart b | r => r ++ b end.
Proof.
  induction a as [|c r IH]; [done|]. cbn [app trimStart].
  destruct (is_space c); [exact IH|done].
Qed.

Lemma trimEnd_snoc_space (s : str) (c : char) :
  is_space c = true → trimEnd (s ++ [c]) = trimEnd s.
Proof.
  intros Hc. induction s as [|d r IH]; cbn [app trimEnd].
  - by rewrite Hc.
  - by rewrite IH.
Qed.

Lemma trim_snoc_space (s : str) (c : char) :
  is_space c = true → trim (s ++ [c]) = trim s.
Proof.
  intros Hc. unfold trim. rewrite trimStart_app.
  destruct (trimStart s) as [|d r] eqn:E.
  - cbn [trimStart]. by rewrite Hc.
  - rewrite <- E. by apply trimEnd_snoc_space.
Qed.

(** The two replacements of the importer remove exactly the wrapper and
    the white space around the code. *)
Lemma withoutCode_wrap (code language : str) :
  RBRACE ∉ language →
  withoutCode (wrapForJira code language) = trim code.
Proof.
  intros Hlang. unfold withoutCode, wrapForJira.
  set (F := js "{code}").
  assert (stripOpenFence (js "{code:" ++ language ++ js "}\n" ++ code
                            ++ js "\n{code}")
          = trimStart (code ++ [NL]) ++ F) as ->.
  { unfold stripOpenFence.
    rewrite trimStart_app_nonspace by (by vm_compute).
    rewrite (starts_ci_app _ (js "{code:") [COLON]) by (by vm_compute).
    cbn [app]. change (COLON =? RBRACE)%N with false.
    change (COLON =? COLON)%N with true. cbv iota.
    change (js "}\n" ++ code ++ js "\n{code}")
      with (RBRACE :: NL :: code ++ NL :: F).
    rewrite after_first_app by done.
    cbn [trimStart]. change (is_space NL) with true. cbv iota.
    replace (code ++ NL :: F) with ((code ++ [NL]) ++ F)
      by (by rewrite <- (assoc_L app)).
    rewrite trimStart_app.
    by destruct (trimStart (code ++ [NL])). }
  unfold stripCloseFence.
  rewrite (trimEnd_app_fix _ F) by (by vm_compute).
  rewrite rev_app_distr.
  rewrite (starts_ci_app _ (rev F) []) by (by vm_compute).
  cbn [app]. rewrite rev_involutive.
  fold (trim (code ++ [NL])). by apply trim_snoc_space.
Qed.

(** The last line of the rendered text is not empty. *)
Lemma renderChildren_last (cs : list Node) (cp : str) :
  cs ≠ [] →
  Forall (λ c, ∀ p isLast, ∃ ls l, render c p isLast [] = ls ++ [l] ∧ l ≠ [])
         cs →
  ∃ ls l, renderChildren cs cp [] = ls ++ [l] ∧ l ≠ [].
Proof.
  intros Hne Hcs. induction Hcs as [|c cs Hc _ IH]; [done|].
  rewrite renderChildren_cons. destruct cs as [|c' cs'].
  - rewrite app_nil_r. apply Hc.
  - destruct IH as (ls & l & E & Hl); [done|]. rewrite E.
    exists (render c cp false [] ++ [cp ++ [BAR]] ++ ls), l.
    split; [|done]. by rewrite <- !(assoc_L app).
Qed.

Lemma render_last (t : Node) :
  ∀ p isLast, ∃ ls l, render t p isLast [] = ls ++ [l] ∧ l ≠ [].
Proof.
  induction t as [txt cs IH] using Node_ind'. intros p isLast.
  rewrite render_nil. destruct cs as [|c cs].
  - exists [], (p ++ connector isLast ++ txt). split; [done|].
    destruct p; [by destruct isLast|done].
  - destruct (renderChildren_last (c :: cs) (childPrefixOf p isLast))
      as (ls & l & E & Hl); [done|done|].
    rewrite E.
    by exists ((p ++ connector isLast ++ txt)
               :: (childPrefixOf p isLast ++ [BAR]) :: ls), l.
Qed.

Lemma renderRootChildren_last (cs : list Node) :
  cs ≠ [] → ∃ ls l, renderRootChildren cs [] = ls ++ [l] ∧ l ≠ [].
Proof.
  induction cs as [|c cs IH]; [done|]. intros _.
  rewrite renderRootChildren_cons. destruct cs as [|c' cs'].
  - cbn [renderRootChildren]. rewrite app_nil_r. apply render_last.
  - destruct IH as (ls & l & E & Hl); [done|]. rewrite E.
    exists (render c [] false [] ++ ls), l. by rewrite <- (assoc_L app).
Qed.

Lemma renderRoots_last (roots : list Node) :
  roots ≠ [] → Forall (λ r, text r ≠ []) roots →
  ∃ ls l, renderRoots roots [] = ls ++ [l] ∧ l ≠ [].
Proof.
  intros Hne Hr. induction Hr as [|[txt cs] rest Hr _ IH]; [done|].
  rewrite renderRoots_cons. destruct rest as [|r' rest'].
  - cbn [renderRoots]. rewrite app_nil_r. unfold rootLines.
    cbn [text children] in *. rewrite app_nil_r. destruct cs as [|c cs].
    + by exists [], txt.
    + destruct (renderRootChildren_last (c :: cs)) as (ls & l & E & Hl);
        [done|].
      rewrite E. by exists (txt :: [BAR] :: ls), l.
  - destruct IH as (ls & l & E & Hl); [done|]. rewrite E.
    exists (rootLines (mkNode txt cs) (r' :: rest') ++ ls), l.
    by rewrite <- (assoc_L app).
Qed.

Lemma join_snoc (sep : str) (ls : list str) (l : str) :
  ∃ p, join sep (ls ++ [l]) = p ++ l.
Proof.
  induction ls as [|a ls IH]; [by exists []|].
  destruct IH as (p & E). cbn [app join].
  destruct (ls ++ [l]) as [|b r] eqn:El; [by destruct ls|].
  rewrite E. exists (a ++ sep ++ p). by rewrite <- !(assoc_L app).
Qed.

(** The rendered text of a parsed forest has no white space at either
    end. *)
Lemma render_trimmed (roots : list Node) :
  Forall (tree_ok label_wf) roots →
  trim (renderAsciiTree roots) = renderAsciiTree roots.
Proof.
  intros Hwf. destruct roots as [|[txt cs] rest]; [done|].
  assert (Forall (λ r, text r ≠ []) (mkNode txt cs :: rest)) as Hne.
  { eapply Forall_impl; [exact Hwf|]. intros [t c] [H _]%tree_ok_node.
    by destruct H. }
  destruct (renderRoots_last (mkNode txt cs :: rest)) as (ls & l & E & Hl);
    [done|done|].
  pose proof (renderRoots_ok _ Hwf) as Hok.
  unfold renderAsciiTree, trim.
  assert (trimStart (join [NL] (renderRoots (mkNode txt cs :: rest) []))
          = join [NL] (renderRoots (mkNode txt cs :: rest) [])) as ->.
  { apply Forall_cons in Hwf as [[Ht _]%tree_ok_node _].
    destruct Ht as (Hne' & Htrim & _).
    destruct txt as [|c r]; [done|].
    pose proof (trimmed_head _ c r Htrim eq_refl) as Hc.
    assert (∃ Z, renderRoots (mkNode (c :: r) cs :: rest) [] = (c :: r) :: Z)
      as [Z ->].
    { rewrite renderRoots_cons. unfold rootLines. cbn [text children].
      eexists. rewrite <- (assoc_L app). reflexivity. }
    destruct Z; cbn [join app]; by apply trimStart_nonspace. }
  rewrite E in *. destruct (join_snoc [NL] ls l) as (p & ->).
  apply trimEnd_app_fix; [done|].
  apply Forall_app in Hok as [_ Hok]. apply Forall_cons in Hok as [[_ Hok] _].
  done.
Qed.

(** The round trip of the importer, after its two [replace] calls. *)
Lemma roundtrip_lines (roots : list Node) (indentSize : nat) :
  0 < indentSize →
  Forall (tree_ok label_wf) roots →
  Forall (λ r, isConnectorOnly (text r) = false) roots →
  Forall (tree_ok (λ lab, hasMarker lab = false)) roots →
  parseIndentedTree
    (join [NL]
       (popBlank
          (foldl (importLine indentSize) []
             (map trimEnd
                (split NL (normalizeNewlines (renderAsciiTree roots)))))))
    indentSize
  = Some roots.
Proof.
  intros Hpos Hwf Hroot Hplain.
  destruct roots as [|r rest]; [done|].
  unfold renderAsciiTree.
  rewrite import_lines
    by (by apply renderRoots_nonempty || by apply renderRoots_ok).
  rewrite (import_roots indentSize _ []).
  2:{ apply Forall_forall. intros t Ht.
      rewrite Forall_forall in Hwf, Hplain, Hroot.
      specialize (Hwf t Ht). specialize (Hplain t Ht). split; [by apply Hroot|].
      unfold tree_ok in *. rewrite Forall_forall in Hwf, Hplain.
      apply Forall_forall. intros n Hn.
      destruct (Hwf n Hn) as (? & ? & _). split; [done|]. split; [done|].
      by apply Hplain. }
  rewrite app_nil_l.
  destruct (olines_last indentSize (r :: rest) Hwf) as (ls & l & E & Hl);
    [done|].
  rewrite E, popBlank_snoc, <- E by done.
  destruct (parse_ilines indentSize Hpos (r :: rest) Hwf)
    as (st & stack & ids & Hst & H0 & Hr).
  apply (parse_from_store _ _ _ ids); unfold parseState;
    rewrite olines_parseLines, Hst by done; done.
Qed.



(** X5.  The round trip through the wrapper, as the application does it
    (the connector text is shown wrapped, and the import dialog takes
    it back): for every tree produced by the parser with a positive
    indent size, if no root label is a pure-connector string and no
    label contains a connector marker, then for every language without a
    closing brace, importing the wrapped rendered text and parsing it
    gives the same tree.  No condition on fences in the labels is
    needed: the wrapper is what the two [replace] calls strip. *)
Theorem roundtrip_wrapped (input : str) (indentSize : nat)
    (roots : list Node) (language : str) :
  0 < indentSize →
  parseIndentedTree input indentSize = Some roots →
  (∀ r, r ∈ roots → isConnectorOnly (text r) = false) →
  (∀ n, n ∈ nodes_of roots → hasMarker (text n) = false) →
  RBRACE ∉ language →
  parseIndentedTree
    (importJiraToIndented (wrapForJira (renderAsciiTree roots) language)
                          indentSize) indentSize
  = Some roots.
Proof.
  intros Hpos Hparse Hroot Hplain Hlang.
  destruct (parse_total_labels input indentSize) as (roots' & E & Hwf).
  rewrite Hparse in E. injection E as <-.
  apply forest_ok_nodes in Hwf.
  unfold importJiraToIndented.
  rewrite withoutCode_wrap, render_trimmed by done.
  apply roundtrip_lines; [done|done| |].
  - by apply Forall_forall.
  - by apply forest_ok_nodes, Forall_forall.
Qed.

Lemma roundtrip_wrapped_witness :
  parseIndentedTree
    (importJiraToIndented
       (wrapForJira (renderAsciiTree [mkNode (js "{code}") [leaf "x {code}"]])
                    (js "java")) 2) 2
  = Some [mkNode (js "{code}") [leaf "x {code}"]].
Proof.
  apply (roundtrip_wrapped (js "{code}\n  x {code}") 2
           [mkNode (js "{code}") [leaf "x {code}"]] (js "java")).
  - lia.
  - reflexivity.
  - intros r Hr. apply list_elem_of_singleton in Hr as ->. reflexivity.
  - intros n Hn. unfold nodes_of in Hn. simpl in Hn.
    repeat (apply elem_of_cons in Hn as [->|Hn]; [by vm_compute|]).
    by apply elem_of_nil in Hn.
  - vm_compute. intros H.
    by repeat (apply elem_of_cons in H as [H|H]; [done|]);
      apply elem_of_nil in H.
Defined.

(** ** What the importer keeps *)

Lemma trim_nonblank (s : str) :
  trim s ≠ [] ↔ ∃ c, c ∈ s ∧ is_space c = false.
Proof.
  split.
  - intros H. destruct (trim s) as [|c r] eqn:E; [done|]. exists c. split.
    + apply trim_sublist. rewrite E. by left.
    + unfold trim in E. apply trimEnd_head in E as [r' E].
      destruct (trimStart_spec s) as [E'|(c' & r'' & E' & Hc)]; [congruence|].
      congruence.
  - intros (c & Hin & Hc) E. apply (elem_trim _ _ Hin) in Hc.
    rewrite E in Hc. by apply elem_of_nil in Hc.
Qed.

Lemma trimStart_trimEnd (s : str) :
  trimStart (trimEnd s) = trimEnd (trimStart s).
Proof.
  induction s as [|c r IH]; [done|]. cbn [trimStart trimEnd].
  destruct (is_space c) eqn:Hc.
  - rewrite <- IH. destruct (trimEnd r) as [|d r'] eqn:E; [done|].
    cbn [trimStart]. by rewrite Hc.
  - destruct (trimEnd r) as [|d r'] eqn:E.
    + cbn [trimStart trimEnd]. by rewrite E.
    + cbn [trimStart trimEnd]. by rewrite Hc, E.
Qed.

Lemma trim_trimEnd (s : str) : trim (trimEnd s) = trim s.
Proof. unfold trim. by rewrite trimStart_trimEnd, trimEnd_idem. Qed.

Lemma starts_with_split (p s : str) :
  starts_with p s = true → ∃ post, s = p ++ post.
Proof.
  revert s. induction p as [|a p IH]; intros s H; [by exists s|].
  destruct s as [|b s]; [done|]. cbn [starts_with] in H.
  apply andb_true_iff in H as [Hab H]. apply N.eqb_eq in Hab as ->.
  destruct (IH _ H) as (post & ->). by exists post.
Qed.

(** An occurrence found by [indexOf]. *)
Lemma indexOf_found (p s : str) :
  (0 ≤ indexOf p s)%Z →
  ∃ pre post, s = pre ++ p ++ post ∧ length pre = Z.to_nat (indexOf p s).
Proof.
  induction s as [|c r IH]; cbn [indexOf].
  - destruct (starts_with p []) eqn:E; [|lia]. intros _.
    apply starts_with_split in E as (post & E). by exists [], post.
  - destruct (starts_with p (c :: r)) eqn:E.
    + intros _. apply starts_with_split in E as (post & E). by exists [], post.
    + cbv zeta. destruct (Z.ltb_spec (indexOf p r) 0); [lia|]. intros _.
      destruct IH as (pre & post & -> & Hl); [done|].
      exists (c :: pre), post. split; [done|]. cbn [length]. lia.
Qed.

Lemma markerIndex_found (line : str) :
  (0 ≤ markerIndex line)%Z →
  ∃ pre m post, line = pre ++ m ++ post ∧ length m = 3 ∧ last m = Some SP
                ∧ length pre = Z.to_nat (markerIndex line).
Proof.
  unfold markerIndex. cbv zeta.
  destruct (Z.leb_spec 0 (indexOf CONN_MID line)) as [H|H]; intros H'.
  - destruct (indexOf_found _ _ H) as (pre & post & E & Hl).
    by exists pre, CONN_MID, post.
  - destruct (indexOf_found _ _ H') as (pre & post & E & Hl).
    by exists pre, CONN_LAST, post.
Qed.

(** The text after the marker of a line without trailing white space is
    not blank. *)
Lemma text_after_marker (line : str) :
  trimEnd line = line → (0 ≤ markerIndex line)%Z →
  trim (slice_from (markerIndex line + 3) line) ≠ [].
Proof.
  intros Ht Hi.
  destruct (markerIndex_found _ Hi) as (pre & m & post & E & Hm & Hsp & Hl).
  unfold slice_from.
  replace (Z.to_nat (markerIndex line + 3)) with (length (pre ++ m))
    by (rewrite length_app; lia).
  rewrite E, (assoc_L app), drop_app_length.
  destruct (trimEnd_spec line) as [E0|(r & c & Er & Hc)].
  { rewrite Ht in E0. rewrite E0 in E. destruct pre, m; done. }
  rewrite Ht in Er. apply trim_nonblank. exists c. split; [|done].
  destruct post as [|d post' _] using rev_ind.
  - rewrite app_nil_r in E. rewrite E in Er.
    destruct m as [|a m' _] using rev_ind; [done|].
    rewrite last_snoc in Hsp. injection Hsp as ->.
    rewrite (assoc_L app) in Er. apply app_inj_tail in Er as [_ <-]. done.
  - rewrite E, !(assoc_L app) in Er. apply app_inj_tail in Er as [_ ->].
    apply elem_of_app. right. by left.
Qed.

(** The three outcomes of the body of the loop. *)
Lemma importLine_cases (indentSize : nat) (out : list str) (line : str) :
  trimEnd line = line →
  if keptLine line
  then ∃ x, importLine indentSize out line = out ++ [x] ∧ trim x ≠ []
  else importLine indentSize out line = out
       ∨ importLine indentSize out line = out ++ [[]].
Proof.
  intros Ht. unfold keptLine, importLine. cbv zeta.
  destruct (length (trim line) =? 0) eqn:E0; [by right|].
  destruct (isConnectorOnly (trim line)) eqn:Ec; [by left|].
  cbn [negb andb]. apply Nat.eqb_neq in E0.
  destruct (Z.ltb_spec (markerIndex line) 0) as [Hi|Hi].
  - eexists. split; [done|]. rewrite trim_idem. by destruct (trim line).
  - eexists. split; [done|].
    pose proof (text_after_marker line Ht Hi) as Hx.
    apply trim_nonblank in Hx as (c & Hc & Hs).
    apply trim_nonblank. exists c. split; [|done].
    apply elem_of_app. right. by apply elem_trim.
Qed.

Lemma keptLine_trimEnd (l : str) : keptLine (trimEnd l) = keptLine l.
Proof. unfold keptLine. by rewrite trim_trimEnd. Qed.

Lemma import_added (indentSize : nat) (ls : list str) :
  Forall (λ l, trimEnd l = l) ls →
  ∀ out, ∃ added,
    foldl (importLine indentSize) out ls = out ++ added
    ∧ (Forall (λ x, trim x = []) added ↔ Forall (λ l, keptLine l = false) ls).
Proof.
  induction 1 as [|l ls Hl _ IH]; intros out.
  - exists []. by rewrite app_nil_r.
  - rewrite foldl_step.
    destruct (IH (importLine indentSize out l)) as (added & -> & Hiff).
    pose proof (importLine_cases indentSize out l Hl) as Hc.
    destruct (keptLine l) eqn:Ek.
    + destruct Hc as (x & -> & Hx). exists (x :: added).
      split; [by rewrite <- (assoc_L app)|]. split.
      * intros [? _]%Forall_cons. simpl in *. congruence.
      * intros [? _]%Forall_cons. simpl in *. congruence.
    + destruct Hc as [->| ->].
      * exists added. split; [done|]. rewrite Hiff. split.
        -- by constructor.
        -- by intros [_ ?]%Forall_cons.
      * exists ([] :: added). split; [by rewrite <- (assoc_L app)|]. split.
        -- intros [_ H]%Forall_cons. constructor; [done|]. by apply Hiff.
        -- intros [_ H]%Forall_cons. constructor; [done|]. by apply Hiff.
Qed.

Lemma popBlank_nil (out : list str) :
  popBlank out = [] ↔ Forall (λ x, trim x = []) out.
Proof.
  induction out as [|l r IH]; [done|]. cbn [popBlank].
  destruct (popBlank r) as [|a r'] eqn:E.
  - destruct (trim l) eqn:El.
    + split; [|done]. intros _. constructor; [done|]. by apply IH.
    + split; [done|]. intros [? _]%Forall_cons. congruence.
  - split; [done|]. intros [_ H]%Forall_cons. by apply IH in H.
Qed.

Lemma popBlank_last (out : list str) :
  popBlank out ≠ [] → ∃ ls l, popBlank out = ls ++ [l] ∧ trim l ≠ [].
Proof.
  induction out as [|l r IH]; [done|]. cbn [popBlank].
  destruct (popBlank r) as [|a r'] eqn:E.
  - destruct (trim l) eqn:El; [done|]. intros _. exists [], l.
    split; [done|]. congruence.
  - intros _. destruct IH as (ls & x & -> & Hx); [done|].
    by exists (l :: ls), x.
Qed.

Lemma split_trimEnd_lines (s : str) :
  Forall (λ l, trimEnd l = l) (map trimEnd (split NL s)).
Proof. apply Forall_map, Forall_forall. intros l _. apply trimEnd_idem. Qed.

(** X6.  The result of the importer is blank exactly when it is empty,
    and exactly when every line of the text (after the fence stripping)
    is blank or made of connector bars and white space: this is the case
    in which the import dialog shows its alert.  A line with any other
    content always leaves a line of text in the result. *)
Theorem import_blank_iff (raw : str) (indentSize : nat) :
  (trim (importJiraToIndented raw indentSize) = []
   ↔ importJiraToIndented raw indentSize = [])
  ∧ (importJiraToIndented raw indentSize = []
     ↔ Forall (λ l, keptLine l = false)
              (split NL (normalizeNewlines (withoutCode raw)))).
Proof.
  unfold importJiraToIndented. cbv zeta.
  set (lines := split NL (normalizeNewlines (withoutCode raw))).
  destruct (import_added indentSize (map trimEnd lines)
              (split_trimEnd_lines _) []) as (added & -> & Hiff).
  rewrite app_nil_l.
  assert (Forall (λ l, keptLine l = false) (map trimEnd lines)
          ↔ Forall (λ l, keptLine l = false) lines) as Hk.
  { rewrite Forall_map. apply Forall_iff. intros l. cbn.
    by rewrite keptLine_trimEnd. }
  rewrite <- Hk, <- Hiff, <- popBlank_nil.
  assert (popBlank added ≠ [] → trim (join [NL] (popBlank added)) ≠ []) as Hne.
  { intros H. destruct (popBlank_last _ H) as (ls & l & -> & Hl).
    destruct (join_snoc [NL] ls l) as (p & ->).
    apply trim_nonblank in Hl as (c & Hc & Hs). apply trim_nonblank.
    exists c. split; [|done]. apply elem_of_app. by right. }
  split; split.
  - intros H. destruct (popBlank added) eqn:E; [done|].
    exfalso. by apply Hne.
  - by intros ->.
  - intros H. destruct (popBlank added) eqn:E; [done|].
    exfalso. apply Hne; [done|]. by rewrite H.
  - by intros ->.
Qed.

(** ** Text without connector markers *)

Lemma starts_ci_elem (p s r : str) (c : char) :
  starts_ci p s = Some r → c ∈ r → c ∈ s.
Proof.
  revert s. induction p as [|a p IH]; intros s H Hc; cbn [starts_ci] in H.
  - by injection H as ->.
  - destruct s as [|b s]; [done|]. destruct (eq_ci a b); [|done].
    right. by apply IH.
Qed.

Lemma after_first_elem (d : char) (s r : str) (c : char) :
  after_first d s = Some r → c ∈ r → c ∈ s.
Proof.
  induction s as [|b s IH]; [done|]. cbn [after_first].
  destruct (b =? d)%N.
  - intros [= ->] Hc. by right.
  - intros H Hc. right. by apply IH.
Qed.

Lemma elem_of_rev {A} (x : A) (l : list A) : x ∈ rev l ↔ x ∈ l.
Proof.
  split; intros H; apply list_elem_of_In; apply list_elem_of_In in H.
  - by apply in_rev.
  - by apply in_rev in H.
Qed.

Lemma stripOpenFence_elem (raw : str) (c : char) :
  c ∈ stripOpenFence raw → c ∈ raw.
Proof.
  unfold stripOpenFence.
  destruct (starts_ci _ (trimStart raw)) as [[|d r]|] eqn:E; [done| |done].
  assert (∀ x, x ∈ d :: r → x ∈ raw) as Hsub.
  { intros x Hx. eapply trimStart_sublist, starts_ci_elem; done. }
  destruct (d =? RBRACE)%N.
  { intros H%trimStart_sublist. apply Hsub. by right. }
  destruct (d =? COLON)%N; [|done].
  destruct (after_first RBRACE r) as [r'|] eqn:E'; [|done].
  intros H%trimStart_sublist. apply Hsub. right.
  by eapply after_first_elem.
Qed.

Lemma stripCloseFence_elem (s : str) (c : char) :
  c ∈ stripCloseFence s → c ∈ s.
Proof.
  unfold stripCloseFence.
  destruct (starts_ci _ (rev (trimEnd s))) as [r|] eqn:E; [|done].
  intros H%trimEnd_sublist. apply (proj1 (elem_of_rev _ _)) in H.
  apply (starts_ci_elem _ _ _ c E) in H.
  by apply (proj1 (elem_of_rev _ _)), trimEnd_sublist in H.
Qed.

Lemma normalizeNewlines_elem (s : str) (c : char) :
  c ∈ normalizeNewlines s → c ∈ s.
Proof.
  remember (length s) as n eqn:Hn. revert s Hn.
  induction n as [n IH] using lt_wf_ind. intros s ->.
  destruct s as [|a [|b r]]; [done|done|]. cbn [normalizeNewlines].
  destruct ((a =? CR)%N && (b =? NL)%N) eqn:E.
  - apply andb_true_iff in E as [_ ->%N.eqb_eq].
    intros [->|H]%elem_of_cons; [right; by left|].
    right. right. eapply IH; [|done|done]. cbn. lia.
  - intros [->|H]%elem_of_cons; [by left|].
    right. eapply (IH (length (b :: r))); [|done|done]. cbn. lia.
Qed.

Lemma indexOf_absent (c : char) (p s : str) :
  c ∉ s → indexOf (c :: p) s = (-1)%Z.
Proof.
  intros H. pose proof (indexOf_skip c p s [] H) as E.
  rewrite app_nil_r in E. by rewrite E.
Qed.

(** A line without the characters of the markers goes to the result
    without indentation. *)
Lemma importLine_plain (indentSize : nat) (out : list str) (line : str) :
  TEE ∉ line → ELL ∉ line →
  ∃ added, importLine indentSize out line = out ++ added
           ∧ Forall (λ x, x = trim line) added.
Proof.
  intros Ha Hb. unfold importLine. cbv zeta.
  destruct (length (trim line) =? 0) eqn:E0.
  { apply Nat.eqb_eq in E0. exists [[]]. split; [done|].
    constructor; [|done]. by destruct (trim line). }
  destruct (isConnectorOnly (trim line)).
  { exists []. by rewrite app_nil_r. }
  unfold markerIndex, CONN_MID, CONN_LAST.
  rewrite !indexOf_absent by done. cbn. by exists [trim line]; repeat constructor.
Qed.

Lemma import_plain (indentSize : nat) (ls : list str) :
  Forall (λ l, (TEE ∉ l) ∧ (ELL ∉ l) ∧ (NL ∉ l)) ls →
  ∀ out, ∃ added,
    foldl (importLine indentSize) out ls = out ++ added
    ∧ Forall (λ x, trim x = x ∧ NL ∉ x) added.
Proof.
  induction 1 as [|l ls (Ha & Hb & Hn) _ IH]; intros out.
  - exists []. by rewrite app_nil_r.
  - rewrite foldl_step.
    destruct (importLine_plain indentSize out l Ha Hb) as (a1 & -> & H1).
    destruct (IH (out ++ a1)) as (a2 & -> & H2).
    exists (a1 ++ a2). split; [by rewrite (assoc_L app)|].
    apply Forall_app. split; [|done].
    eapply Forall_impl; [exact H1|]. intros x ->. split; [apply trim_idem|].
    intros H. by apply trim_sublist in H.
Qed.

Lemma popBlank_prefix (out : list str) : popBlank out `prefix_of` out.
Proof.
  induction out as [|l r IH]; [done|]. cbn [popBlank].
  destruct (popBlank r) as [|a r'] eqn:E.
  - destruct (trim l); [apply prefix_nil|]. by apply prefix_cons, prefix_nil.
  - by apply prefix_cons.
Qed.

(** The lines of the result of the importer on a text without the
    characters of the markers. *)
Lemma import_plain_lines (raw : str) (indentSize : nat) :
  TEE ∉ raw → ELL ∉ raw →
  Forall (λ x, trim x = x ∧ NL ∉ x)
         (split NL (importJiraToIndented raw indentSize)).
Proof.
  intros Ha Hb. unfold importJiraToIndented. cbv zeta.
  set (lines := map trimEnd (split NL (normalizeNewlines (withoutCode raw)))).
  assert (∀ c, c ∉ raw → Forall (λ l, c ∉ l) lines) as Hsub.
  { intros c Hc. apply Forall_map, Forall_forall. intros l Hl Hin. apply Hc.
    apply trimEnd_sublist in Hin.
    apply (split_elem _ _ _ _ Hl) in Hin.
    by apply normalizeNewlines_elem, stripCloseFence_elem,
      stripOpenFence_elem in Hin. }
  destruct (import_plain indentSize lines) with (out := @nil str)
    as (added & -> & Hadd).
  { pose proof (Hsub _ Ha) as H1. pose proof (Hsub _ Hb) as H2.
    assert (Forall (λ l, NL ∉ l) lines) as H3.
    { apply Forall_map. eapply Forall_impl; [apply split_no_sep|].
      intros l Hl Hin. by apply trimEnd_sublist in Hin. }
    rewrite Forall_forall in H1, H2, H3. apply Forall_forall.
    intros l Hl. auto. }
  rewrite app_nil_l.
  destruct (popBlank_prefix added) as [k Ek].
  destruct (popBlank added) as [|x xs] eqn:E.
  { cbn. constructor; [|done]. split; [done|apply not_elem_of_nil]. }
  assert (Forall (λ x, trim x = x ∧ NL ∉ x) (x :: xs)) as Hx.
  { rewrite Ek in Hadd. by apply Forall_app in Hadd as [? _]. }
  rewrite split_join; [done|done|].
  eapply Forall_impl; [exact Hx|]. by intros ? [_ ?].
Qed.

(** ** Lines at level 0 *)

Lemma split_prepend (sep : char) (pre s : str) :
  sep ∉ pre →
  split sep (pre ++ s)
  = match split sep s with l :: ls => (pre ++ l) :: ls | [] => [pre] end.
Proof.
  induction pre as [|c r IH]; intros H.
  - cbn [app]. destruct (split sep s) eqn:E; [|done].
    by apply split_nonempty in E.
  - apply not_elem_of_cons in H as [Hc Hr]. cbn [app split].
    destruct (N.eqb_spec c sep) as [->|_]; [done|].
    rewrite (IH Hr). by destruct (split sep s).
Qed.

Lemma split_expandTabs (n : nat) (s : str) :
  split NL (expandTabs n s) = map (expandTabs n) (split NL s).
Proof.
  induction s as [|c r IH]; [done|].
  change (expandTabs n (c :: r))
    with ((if (c =? TAB)%N then repeat_char SP n else [c]) ++ expandTabs n r).
  cbn [split]. destruct (N.eqb_spec c NL) as [->|Hc].
  - change (NL =? TAB)%N with false. cbv iota.
    change ([NL] ++ expandTabs n r) with (NL :: expandTabs n r).
    change (split NL (NL :: expandTabs n r))
      with ([] :: split NL (expandTabs n r)).
    cbn [map]. by rewrite IH.
  - rewrite split_prepend.
    2:{ destruct (c =? TAB)%N.
        - intros H. by apply elem_of_replicate in H as [? _].
        - intros H%list_elem_of_singleton. congruence. }
    rewrite IH. destruct (split NL r) as [|l ls] eqn:E.
    { by apply split_nonempty in E. }
    cbn [map]. by f_equal.
Qed.

Lemma parseStep_level0 (indentSize : nat) (labels : list str) (raw : str) :
  countLeadingSpaces raw / indentSize = 0 →
  parseStep indentSize (flatStore labels, flatStack labels) raw
  = (flatStore (labels ++ [trim raw]), flatStack (labels ++ [trim raw])).
Proof.
  intros H0. unfold parseStep. rewrite H0. cbv zeta.
  assert (popWhile (Z.of_nat 0) (flatStack labels) = [((-1)%Z, 0)]) as ->.
  { by destruct labels. }
  unfold pushChild, flatStore. cbn [app alter list_alter otext ochildren].
  f_equal.
  - rewrite length_app. cbn [length]. rewrite Nat.add_1_r, seq_S.
    rewrite length_map. cbn [Nat.add]. by rewrite map_app.
  - unfold flatStack. rewrite length_app. cbn [length map].
    rewrite length_map. destruct labels; cbn [app length]; do 3 f_equal; lia.
Qed.

Lemma parse_level0 (indentSize : nat) (lines : list str) :
  Forall (λ l, countLeadingSpaces l / indentSize = 0) lines →
  ∀ labels,
    foldl (parseStep indentSize) (flatStore labels, flatStack labels) lines
    = (flatStore (labels ++ map trim lines),
       flatStack (labels ++ map trim lines)).
Proof.
  induction 1 as [|l ls Hl _ IH]; intros labels.
  - by rewrite app_nil_r.
  - rewrite foldl_step, parseStep_level0, IH by done.
    cbn [map]. by rewrite <- (assoc_L app).
Qed.

Lemma flatStore_reads (labels : list str) :
  Forall2 (λ c j, reads (flatStore labels) c j)
          (map (λ t, mkNode t []) labels) (seq 1 (length labels)).
Proof.
  apply Forall2_same_length_lookup. split.
  { by rewrite length_map, length_seq. }
  intros i c j Hc Hj. apply lookup_seq in Hj as [-> Hi].
  change (map ?f ?l) with (f <$> l) in Hc. rewrite list_lookup_fmap in Hc.
  destruct (labels !! i) as [t|] eqn:Et; [|done]. injection Hc as <-.
  apply reads_node. exists (mkObj t []). split; [|by split].
  unfold flatStore. change (map ?f ?l) with (f <$> l).
  change (1 + i) with (S i). rewrite lookup_cons.
  by rewrite list_lookup_fmap, Et.
Qed.

(** A text whose lines all are at level 0 parses to its lines, as roots
    without children. *)
Lemma parse_flat (input : str) (indentSize : nat) :
  Forall (λ l, countLeadingSpaces l / indentSize = 0)
         (parseLines input indentSize) →
  parseIndentedTree input indentSize
  = Some (map (λ l, mkNode (trim l) []) (parseLines input indentSize)).
Proof.
  intros H. pose proof (parse_level0 indentSize _ H []) as E.
  cbn [app] in E.
  rewrite <- (map_map trim (λ t, mkNode t [])).
  apply (parse_from_store _ _ _
           (seq 1 (length (map trim (parseLines input indentSize)))));
    unfold parseState; change ([mkObj ROOT_TEXT []], [((-1)%Z, 0)])
      with (flatStore [], flatStack []); rewrite E; cbn [fst]; [done|].
  apply flatStore_reads.
Qed.

Lemma unindented_level0 (n : nat) (x : str) :
  trim x = x → countLeadingSpaces (trimEnd (expandTabs n x)) = 0.
Proof.
  intros Ht. destruct x as [|c r]; [done|].
  pose proof (trimmed_head _ c r Ht eq_refl) as Hc.
  change (expandTabs n (c :: r))
    with ((if (c =? TAB)%N then repeat_char SP n else [c]) ++ expandTabs n r).
  destruct (N.eqb_spec c TAB) as [->|_]; [done|].
  cbn [app trimEnd].
  assert ((c =? SP)%N = false) as Hsp.
  { destruct (N.eqb_spec c SP) as [->|_]; done. }
  destruct (trimEnd (expandTabs n r)); rewrite ?Hc; cbn [countLeadingSpaces];
    by rewrite Hsp.
Qed.



(** X8.  The importer flattens a text without connector markers: if
    neither of the characters that start a marker occurs in the text,
    no line of the result is indented, and the parser reads the result
    as a list of roots without children, whatever indentation the text
    had. *)
Theorem import_flattens (raw : str) (indentSize : nat) :
  0 < indentSize → TEE ∉ raw → ELL ∉ raw →
  Forall (λ x, trim x = x) (split NL (importJiraToIndented raw indentSize))
  ∧ ∃ roots,
      parseIndentedTree (importJiraToIndented raw indentSize) indentSize
      = Some roots
      ∧ Forall (λ r, children r = []) roots.
Proof.
  intros Hpos Ha Hb.
  pose proof (import_plain_lines raw indentSize Ha Hb) as Hl.
  split. { eapply Forall_impl; [exact Hl|]. by intros x [? _]. }
  eexists. split.
  - apply parse_flat. unfold parseLines.
    rewrite split_expandTabs. apply Forall_forall. intros l Hin.
    apply list_elem_of_filter in Hin as [_ Hin].
    apply list_elem_of_fmap in Hin as (l0 & -> & Hin).
    apply list_elem_of_fmap in Hin as (x & -> & Hin).
    rewrite Forall_forall in Hl. destruct (Hl x Hin) as [Ht _].
    apply Nat.div_small. by rewrite unindented_level0.
  - by apply Forall_map, Forall_forall.
Qed.

Lemma import_flattens_witness :
  Forall (λ x, trim x = x) (split NL (importJiraToIndented (js "A\n  B\n    C") 2))
  ∧ ∃ roots,
      parseIndentedTree (importJiraToIndented (js "A\n  B\n    C") 2) 2
      = Some roots
      ∧ Forall (λ r, children r = []) roots.
Proof.
  apply (import_flattens (js "A\n  B\n    C") 2); [lia| |];
    vm_compute; intros H;
    by repeat (apply elem_of_cons in H as [H|H]; [done|]);
      apply elem_of_nil in H.
Defined.

(** ** The flat array *)

Lemma size_subnodes (t : Node) : length (subnodes t) = size t.
Proof.
  induction t as [txt cs IH] using Node_ind'. cbn [subnodes length].
  rewrite size_node. f_equal.
  induction IH as [|k cs Hk _ IHcs]; [done|].
  cbn [flat_map map list_sum]. by rewrite length_app, Hk, IHcs.
Qed.

Lemma size_nodes_of (cs : list Node) :
  length (flat_map subnodes cs) = list_sum (map size cs).
Proof.
  induction cs as [|k cs IH]; [done|].
  cbn [flat_map map list_sum]. by rewrite length_app, size_subnodes, IH.
Qed.

Lemma sforest_texts_aux (cs : list Node) :
  Forall (λ t, ∀ i d par c,
            map ftext (slist t i d par c).*1 = map text (subnodes t)) cs →
  ∀ j d par c,
    map ftext (sforest cs j d par c).*1 = map text (flat_map subnodes cs).
Proof.
  induction 1 as [|k cs Hk _ IH]; intros j d par c; [done|].
  cbn [sforest flat_map]. by rewrite fmap_app, !map_app, Hk, IH.
Qed.

Lemma slist_texts (t : Node) :
  ∀ i d par c, map ftext (slist t i d par c).*1 = map text (subnodes t).
Proof.
  induction t as [txt cs IH] using Node_ind'. intros i d par c.
  rewrite slist_node. cbn [subnodes map fmap list_fmap fst ftext text].
  f_equal. by apply sforest_texts_aux.
Qed.

Lemma sforest_texts (cs : list Node) (j d : nat) (par : option nat) (c : nat) :
  map ftext (sforest cs j d par c).*1 = map text (flat_map subnodes cs).
Proof.
  apply sforest_texts_aux, Forall_forall. intros t _. apply slist_texts.
Qed.

Lemma childIds_ge (cs : list Node) :
  ∀ j cid, cid ∈ childIds cs j → j ≤ cid.
Proof.
  induction cs as [|k cs IH]; intros j cid H; [by apply elem_of_nil in H|].
  cbn [childIds] in H. apply elem_of_cons in H as [->|H]; [done|].
  apply IH in H. lia.
Qed.

(** The heads of the trees of a forest. *)
Lemma forest_heads_par (cs : list Node) :
  ∀ j d par c cid, cid ∈ childIds cs j →
    ∃ q u, (q, u) ∈ sforest cs j d par c ∧ fid q = cid
           ∧ fparentId q = par ∧ fdepth q = d.
Proof.
  induction cs as [|[txt ks] cs IH]; intros j d par c cid H.
  { by apply elem_of_nil in H. }
  cbn [childIds sforest] in *. apply elem_of_cons in H as [->|H].
  - rewrite slist_node. eexists _, _. split; [apply elem_of_app; left; by left|].
    done.
  - destruct (IH _ d par (c + leaves (mkNode txt ks)) _ H)
      as (q & u & Hin & ?).
    exists q, u. split; [|done]. apply elem_of_app. by right.
Qed.


Lemma linksIn_forest (cs : list Node) :
  Forall (λ t, ∀ i d par c, linksIn (slist t i d par c) [i] par d) cs →
  ∀ j d par c, linksIn (sforest cs j d par c) (childIds cs j) par d.
Proof.
  induction 1 as [|k cs Hk _ IH]; intros j d par c n u Hin.
  { by apply elem_of_nil in Hin. }
  cbn [sforest childIds] in *. apply elem_of_app in Hin as [Hin|Hin].
  - destruct (Hk j d par c n u Hin) as [Hp Hc]. split.
    + destruct Hp as [(Hh & ? & ?)|(m & u' & Hm & ?)].
      * left. apply list_elem_of_singleton in Hh. split; [|done].
        rewrite Hh. by left.
      * right. exists m, u'. split; [|done]. apply elem_of_app. by left.
    + intros cid Hcid. destruct (Hc cid Hcid) as (q & u' & Hq & ?).
      exists q, u'. split; [|done]. apply elem_of_app. by left.
  - destruct (IH (j + size k) d par (c + leaves k) n u Hin) as [Hp Hc]. split.
    + destruct Hp as [(Hh & ? & ?)|(m & u' & Hm & ?)].
      * left. split; [|done]. by right.
      * right. exists m, u'. split; [|done]. apply elem_of_app. by right.
    + intros cid Hcid. destruct (Hc cid Hcid) as (q & u' & Hq & ?).
      exists q, u'. split; [|done]. apply elem_of_app. by right.
Qed.

Lemma linksIn_tree (t : Node) :
  ∀ i d par c, linksIn (slist t i d par c) [i] par d.
Proof.
  induction t as [txt cs IH] using Node_ind'. intros i d par c n u Hin.
  rewrite slist_node in *.
  pose proof (linksIn_forest cs IH (S i) (S d) (Some i) c) as HF.
  set (head := mkFlat i txt d par (childIds cs (S i))) in *.
  apply elem_of_cons in Hin as [[= -> ->]|Hin].
  - split; [left; split; [by left|done]|].
    intros cid Hcid.
    destruct (forest_heads_par cs (S i) (S d) (Some i) c cid Hcid)
      as (q & u' & Hq & ? & ? & ?).
    exists q, u'. split; [by right|done].
  - destruct (HF n u Hin) as [Hp Hc]. split.
    + right. destruct Hp as [(Hh & Hpar & Hd)|(m & u' & Hm & ?)].
      * exists head, (unit (mkNode txt cs) c). split; [by left|].
        apply childIds_ge in Hh as Hge. cbn [head fid fdepth fchildrenIds].
        split; [done|]. split; [lia|]. done.
      * exists m, u'. split; [by right|done].
    + intros cid Hcid. destruct (Hc cid Hcid) as (q & u' & Hq & ?).
      exists q, u'. split; [by right|done].
Qed.

Lemma linksIn_specList (roots : list Node) :
  linksIn (specList roots) (childIds roots 1) None 0.
Proof.
  apply linksIn_forest, Forall_forall. intros t _. apply linksIn_tree.
Qed.

(** Lookup in the array by id. *)
Lemma flat_lookup_id (roots : list Node) (m : FlatNode) (u : Q) :
  (m, u) ∈ specList roots →
  flattenTree roots !! (fid m - 1) = Some m ∧ 0 < fid m.
Proof.
  intros [k Hk]%list_elem_of_lookup.
  rewrite (flattenTree_spec roots 0). fold (specList roots).
  pose proof (specList_ids roots _ _ _ Hk) as ->.
  replace (S k - 1) with k by lia.
  rewrite list_lookup_fmap, Hk. split; [done|lia].
Qed.

(** X9.  [flattenTree] numbers the nodes of the forest from 1 in
    preorder: the array has one entry for each node, the entry at index
    [k] has the id [k + 1], and the texts of the entries are the labels
    of the nodes in preorder. *)
Theorem flatten_preorder (roots : list Node) :
  length (flattenTree roots) = length (nodes_of roots)
  ∧ map fid (flattenTree roots) = seq 1 (length (nodes_of roots))
  ∧ map ftext (flattenTree roots) = map text (nodes_of roots).
Proof.
  rewrite (flattenTree_spec roots 0). fold (specList roots).
  assert (length (specList roots).*1 = length (nodes_of roots)) as Hlen.
  { rewrite length_fmap. unfold specList, nodes_of.
    by rewrite sforest_length, size_nodes_of. }
  split; [done|]. split; [|apply sforest_texts].
  apply list_eq_same_length with (length (nodes_of roots)).
  - by rewrite length_seq.
  - by rewrite length_map.
  - intros k x y Hk Hx Hy. apply lookup_seq in Hy as [-> _].
    change (map ?f ?l) with (f <$> l) in Hx.
    rewrite !list_lookup_fmap in Hx.
    destruct (specList roots !! k) as [[e u]|] eqn:E; [|done].
    injection Hx as <-. by apply specList_ids in E.
Qed.

(** X10.  The links of the flat array agree: an entry without parent is
    at depth 0; the parent of any other entry is an earlier entry (looked
    up by its id), one level up, that lists the entry among its children;
    and every id in the children of an entry is the id of an entry whose
    parent is that entry. *)
Theorem flatten_links (roots : list Node) (n : FlatNode) :
  n ∈ flattenTree roots →
  parentLinked (flattenTree roots) n ∧ childrenLinked (flattenTree roots) n.
Proof.
  intros Hin. rewrite (flattenTree_spec roots 0) in Hin.
  fold (specList roots) in Hin.
  apply list_elem_of_fmap in Hin as ([n' u] & -> & Hin). cbn [fst].
  destruct (linksIn_specList roots n' u Hin) as [Hp Hc]. split.
  - unfold parentLinked.
    destruct Hp as [(_ & -> & ?)|(m & u' & Hm & -> & ? & ? & ?)]; [done|].
    destruct (flat_lookup_id roots m u' Hm) as [? ?].
    exists m. split; [done|]. split; [done|]. split; [lia|done].
  - intros cid Hcid. destruct (Hc cid Hcid) as (q & u' & Hq & <- & ?).
    destruct (flat_lookup_id roots q u' Hq) as [? ?]. by exists q.
Qed.

Lemma flatten_links_witness :
  ∃ n, flattenTree sampleForest !! 2 = Some n
       ∧ parentLinked (flattenTree sampleForest) n
       ∧ childrenLinked (flattenTree sampleForest) n.
Proof.
  eexists. split; [reflexivity|].
  apply (flatten_links sampleForest). vm_compute. 
  right. right. by left.
Defined.

(** ** The canvas *)

Lemma foldl_nmin_spec (l : list num) :
  Forall fin_num l →
  ∀ a, ∃ m, foldl nmin (Fin a) l = Fin m ∧ Fin m ∈ Fin a :: l
            ∧ ∀ q, Fin q ∈ Fin a :: l → (m <= q)%Q.
Proof.
  induction 1 as [|x l [b ->] _ IH]; intros a.
  - exists a. split; [done|]. split; [by left|].
    intros q [=->]%list_elem_of_singleton. lra.
  - rewrite foldl_step, nmin_Fin.
    destruct (IH (if Qlt_le_dec b a then b else a)) as (m & -> & Hin & Hle).
    exists m. split; [done|]. split.
    + apply elem_of_cons in Hin as [Hin|Hin]; [|by right; right].
      rewrite Hin. destruct (Qlt_le_dec b a); [right|]; by left.
    + intros q Hq.
      assert (m <= if Qlt_le_dec b a then b else a)%Q as Hm
        by (apply Hle; by left).
      apply elem_of_cons in Hq as [[= ->]|Hq].
      { destruct (Qlt_le_dec b a); lra. }
      apply elem_of_cons in Hq as [[= ->]|Hq].
      { destruct (Qlt_le_dec b a); lra. }
      apply Hle. by right.
Qed.

Lemma nminl_spec (l : list num) :
  l ≠ [] → Forall fin_num l →
  ∃ m, nminl l = Fin m ∧ Fin m ∈ l ∧ ∀ q, Fin q ∈ l → (m <= q)%Q.
Proof.
  intros Hne Hl. destruct l as [|x l]; [done|].
  apply Forall_cons in Hl as [[a ->] Hl]. unfold nminl. rewrite foldl_step.
  change (nmin PInf (Fin a)) with (Fin a). by apply foldl_nmin_spec.
Qed.

Lemma foldl_nmax_spec (l : list num) :
  Forall fin_num l →
  ∀ a, ∃ m, foldl nmax (Fin a) l = Fin m
            ∧ ∀ q, Fin q ∈ Fin a :: l → (q <= m)%Q.
Proof.
  induction 1 as [|x l [b ->] _ IH]; intros a.
  - exists a. split; [done|].
    intros q [=->]%list_elem_of_singleton. lra.
  - rewrite foldl_step, nmax_Fin.
    destruct (IH (if Qlt_le_dec a b then b else a)) as (m & -> & Hle).
    exists m. split; [done|]. intros q Hq.
    assert ((if Qlt_le_dec a b then b else a) <= m)%Q as Hm
      by (apply Hle; by left).
    apply elem_of_cons in Hq as [[= ->]|Hq].
    { destruct (Qlt_le_dec a b); lra. }
    apply elem_of_cons in Hq as [[= ->]|Hq].
    { destruct (Qlt_le_dec a b); lra. }
    apply Hle. by right.
Qed.

Lemma nmaxl_spec (l : list num) :
  l ≠ [] → Forall fin_num l →
  ∃ m, nmaxl l = Fin m ∧ ∀ q, Fin q ∈ l → (q <= m)%Q.
Proof.
  intros Hne Hl. destruct l as [|x l]; [done|].
  apply Forall_cons in Hl as [[a ->] Hl]. unfold nmaxl. rewrite foldl_step.
  change (nmax NInf (Fin a)) with (Fin a). by apply foldl_nmax_spec.
Qed.

Lemma min_coord_spec (g : PositionedNode → num) (P : list PositionedNode) :
  P ≠ [] → Forall (λ p, fin_num (g p)) P →
  ∃ m, nminl (map g P) = Fin m
       ∧ (∃ p, p ∈ P ∧ g p = Fin m)
       ∧ ∀ p x, p ∈ P → g p = Fin x → (m <= x)%Q.
Proof.
  intros Hne HP.
  destruct (nminl_spec (map g P)) as (m & E & Hin & Hle).
  - by destruct P.
  - by apply Forall_map.
  - exists m. split; [done|]. split.
    + change (map g P) with (g <$> P) in Hin.
      apply list_elem_of_fmap in Hin as (p & ? & ?). by exists p.
    + intros p x Hp Hx. apply Hle. rewrite <- Hx.
      change (map g P) with (g <$> P). apply list_elem_of_fmap. by exists p.
Qed.

Lemma max_coord_spec (g : PositionedNode → num) (P : list PositionedNode)
    (c : Q) :
  Forall (λ p, fin_num (g p)) P →
  ∃ m, nmaxl (map g P ++ [Fin c]) = Fin m ∧ (c <= m)%Q
       ∧ ∀ p x, p ∈ P → g p = Fin x → (x <= m)%Q.
Proof.
  intros HP.
  destruct (nmaxl_spec (map g P ++ [Fin c])) as (m & E & Hle).
  - by destruct P.
  - apply Forall_app. split; [by apply Forall_map|].
    constructor; [apply fin_Fin|done].
  - exists m. split; [done|]. split.
    + apply Hle, elem_of_app. right. by left.
    + intros p x Hp Hx. apply Hle, elem_of_app. left. rewrite <- Hx.
      change (map g P) with (g <$> P). apply list_elem_of_fmap. by exists p.
Qed.

(** The coordinates after a shift. *)
Lemma shifted_coords (DX DY : Q) (P P' : list PositionedNode) (p' : PositionedNode) :
  Forall2 (shifted DX DY) P P' → p' ∈ P' →
  ∃ p x y, p ∈ P ∧ px p = Fin x ∧ py p = Fin y
           ∧ pw p' = pw p ∧ ph p' = ph p
           ∧ ∃ x' y', px p' = Fin x' ∧ py p' = Fin y'
                      ∧ (x' == x + DX)%Q ∧ (y' == y + DY)%Q.
Proof.
  intros H [k Hk]%list_elem_of_lookup.
  destruct (Forall2_lookup_r _ _ _ _ _ H Hk) as (p & Hp & Hs).
  destruct Hs as (_ & Ew & Eh & x & y & x' & y' & Ex & Ey & Ex' & Ey' & Hx & Hy).
  exists p, x, y. split; [by eapply list_elem_of_lookup_2|].
  split; [done|]. split; [done|]. split; [done|]. split; [done|].
  by exists x', y'.
Qed.

Lemma normalize_bounds (P : list PositionedNode) :
  P ≠ [] → Forall finP P →
  ∃ W H, width (normalize P) = Fin W ∧ height (normalize P) = Fin H
         ∧ (920 <= W ∧ 620 <= H)%Q
         ∧ Forall (inCanvas W H) (positioned (normalize P)).
Proof.
  intros Hne HP. unfold normalize. cbv zeta. cbn [positioned width height].
  destruct (min_coord_spec px P Hne) as (mx & -> & _ & Hmx).
  { eapply Forall_impl; [exact HP|]. by intros p (? & _). }
  destruct (min_coord_spec py P Hne) as (my & -> & _ & Hmy).
  { eapply Forall_impl; [exact HP|]. by intros p (_ & ? & _). }
  set (dx := if Qlt_le_dec mx 20 then (20 + - mx)%Q else 0%Q).
  set (dy := if Qlt_le_dec my 20 then (20 + - my)%Q else 0%Q).
  assert ((if nlt (Fin mx) MARGIN then nsub MARGIN (Fin mx) else Fin 0)
          = Fin dx) as ->.
  { unfold nlt, MARGIN, dx. by destruct (Qlt_le_dec mx 20). }
  assert ((if nlt (Fin my) MARGIN then nsub MARGIN (Fin my) else Fin 0)
          = Fin dy) as ->.
  { unfold nlt, MARGIN, dy. by destruct (Qlt_le_dec my 20). }
  pose proof (shift_step P dx dy HP) as H1.
  set (P1 := if truthy (Fin dx) || truthy (Fin dy)
             then map (shift (Fin dx) (Fin dy)) P else P) in *.
  pose proof (shifted_fin _ _ _ _ HP H1) as HP1.
  assert (P1 ≠ []) as Hne1.
  { intros E. rewrite E in H1. apply Forall2_nil_inv_r in H1. done. }
  assert (∀ p, p ∈ P1 → ∃ x y, px p = Fin x ∧ py p = Fin y
                                ∧ (20 <= x ∧ 20 <= y)%Q) as Hlow1.
  { intros p1 Hp1.
    destruct (shifted_coords _ _ _ _ _ H1 Hp1)
      as (p & x & y & Hp & Ex & Ey & _ & _ & x' & y' & Ex' & Ey' & Hx & Hy).
    exists x', y'. split; [done|]. split; [done|].
    pose proof (Hmx p x Hp Ex). pose proof (Hmy p y Hp Ey).
    unfold dx, dy in *.
    destruct (Qlt_le_dec mx 20), (Qlt_le_dec my 20); split; lra. }
  destruct (min_coord_spec px P1 Hne1) as (cmin & -> & (p0 & Hp0 & Ep0) & Hcmin).
  { eapply Forall_impl; [exact HP1|]. by intros p (? & _). }
  destruct (nmaxl_spec (map (λ p, nadd (px p) (pw p)) P1))
    as (cmax & -> & _).
  { by destruct P1. }
  { by apply fin_map_right. }
  set (D := if Qlt_le_dec 20 (((if Qlt_le_dec cmax 900 then 900 else cmax)
                                + 20 + - (cmax + - cmin)) / 2)
            then (((if Qlt_le_dec cmax 900 then 900 else cmax)
                   + 20 + - (cmax + - cmin)) / 2)%Q
            else 20%Q).
  assert (nsub (nmax MARGIN
            (ndiv (nsub (nadd (nmax (Fin cmax) MIN_CANVAS_W) MARGIN)
                        (nsub (Fin cmax) (Fin cmin))) (Fin 2))) (Fin cmin)
          = Fin (D + - cmin)) as ->.
  { unfold MARGIN, MIN_CANVAS_W. rewrite nmax_Fin. cbn [nadd nsub nneg].
    cbn [ndiv]. change (Qeq_bool 2 0) with false. cbv iota.
    by rewrite nmax_Fin. }
  assert (20 <= D)%Q as HD.
  { unfold D. destruct (Qlt_le_dec 20 _); lra. }
  pose proof (shiftX_step P1 (D + - cmin) HP1) as H2.
  set (P2 := if truthy (Fin (D + - cmin))
             then map (shiftX (Fin (D + - cmin))) P1 else P1) in *.
  pose proof (shifted_fin _ _ _ _ HP1 H2) as HP2.
  change MIN_CANVAS_W with (Fin 900). change MIN_CANVAS_H with (Fin 600).
  change MARGIN with (Fin 20).
  destruct (max_coord_spec (λ p, nadd (px p) (pw p)) P2 900)
    as (MX & -> & HMX0 & HMX).
  { eapply Forall_impl; [exact HP2|]. intros p (? & _ & ? & _).
    by apply fin_nadd. }
  destruct (max_coord_spec (λ p, nadd (py p) (ph p)) P2 600)
    as (MY & -> & HMY0 & HMY).
  { eapply Forall_impl; [exact HP2|]. intros p (_ & ? & _ & ?).
    by apply fin_nadd. }
  exists (MX + 20)%Q, (MY + 20)%Q. split; [done|]. split; [done|].
  split; [lra|]. apply Forall_forall. intros p2 Hp2.
  destruct (shifted_coords _ _ _ _ _ H2 Hp2)
    as (p1 & x & y & Hp1 & Ex & Ey & Ew & Eh & x' & y' & Ex' & Ey' & Hx & Hy).
  destruct (Hlow1 p1 Hp1) as (x1 & y1 & Ex1 & Ey1 & Hx1 & Hy1).
  rewrite Ex in Ex1. rewrite Ey in Ey1. injection Ex1 as <-. injection Ey1 as <-.
  pose proof (Hcmin p1 x Hp1 Ex) as Hc.
  rewrite Forall_forall in HP2. destruct (HP2 p2 Hp2) as (_ & _ & [w Ew'] & [h Eh']).
  exists x', y', w, h. split; [done|]. split; [done|]. split; [done|].
  split; [done|].
  pose proof (HMX p2 (x' + w)%Q Hp2) as Hr. rewrite Ex', Ew' in Hr.
  pose proof (HMY p2 (y' + h)%Q Hp2) as Hb. rewrite Ey', Eh' in Hb.
  specialize (Hr eq_refl). specialize (Hb eq_refl).
  repeat split; lra.
Qed.

Lemma placed_finP (hs : list Q) (DX DY : Q) (S : list (FlatNode * Q))
    (P : list PositionedNode) :
  Forall2 (placed hs DX DY) S P → Forall finP P.
Proof.
  induction 1 as [|eu p S P Hp _ IH]; [constructor|].
  constructor; [|done].
  destruct Hp as (_ & x & y & w & h & y0 & H & Ex & Ey & Ew & Eh & _).
  unfold finP. rewrite Ex, Ey, Ew, Eh. eauto 10 with fin.
Qed.

Lemma specList_nonempty (roots : list Node) :
  roots ≠ [] → specList roots ≠ [].
Proof.
  intros Hne. unfold specList. destruct roots as [|[txt cs] r]; [done|].
  cbn [sforest]. by rewrite slist_node.
Qed.

Section LayoutMore.

Variable measureTextPx : str → str → Q.

(** The layout is the normalisation of the first placement. *)
Lemma layout_place (roots : list Node) :
  ∃ xUnit hs,
    layoutTreeForSvg measureTextPx (flattenTree roots)
    = Some (normalize (place measureTextPx (specFlat roots) xUnit))
    ∧ Forall (λ h, 0 <= h)%Q hs
    ∧ Forall2 (placed hs 0 0) (specList roots)
              (place measureTextPx (specFlat roots) xUnit).
Proof using Type.
  unfold layoutTreeForSvg.
  destruct (xUnitOf_spec roots) as (xUnit & EX & HX). rewrite EX.
  cbn [mbind option_bind]. rewrite (flattenTree_spec roots 0).
  fold (specList roots). fold (specFlat roots).
  destruct (place_spec measureTextPx roots xUnit HX) as (hs & Hpos & Hplace).
  by exists xUnit, hs.
Qed.

(** X11.  The canvas holds the drawing: for every forest and every
    text-measuring function the layout is computed, its canvas is at
    least 920 wide and 620 high, and every node lies inside the canvas,
    at least the margin of 20 away from each of its four sides. *)
Theorem layout_within_canvas (roots : list Node) :
  ∃ L W H,
    layoutTreeForSvg measureTextPx (flattenTree roots) = Some L
    ∧ width L = Fin W ∧ height L = Fin H ∧ (920 <= W ∧ 620 <= H)%Q
    ∧ ∀ p, p ∈ positioned L → inCanvas W H p.
Proof using Type.
  destruct (layout_place roots) as (xUnit & hs & -> & Hhs & Hplace).
  destruct roots as [|r rest].
  { exists (normalize []), 920%Q, 620%Q. split; [done|]. split; [done|].
    split; [done|]. split; [lra|]. intros p Hp. by apply elem_of_nil in Hp. }
  set (P0 := place measureTextPx (specFlat (r :: rest)) xUnit) in *.
  destruct (normalize_bounds P0) as (W & H & EW & EH & Hmin & Hall).
  - intros E. rewrite E in Hplace. apply Forall2_nil_inv_r in Hplace.
    by apply specList_nonempty in Hplace.
  - by eapply placed_finP.
  - exists (normalize P0), W, H. split; [done|]. split; [done|].
    split; [done|]. split; [done|]. by apply Forall_forall.
Qed.

(** X12.  The rows of the drawing: nodes at the same depth have the
    same top, and a node at a greater depth starts at least the gap of
    50 below the bottom of every node at a smaller depth; so an edge
    from a parent to a child always goes down. *)
Theorem layout_rows (roots : list Node) :
  ∃ L, layoutTreeForSvg measureTextPx (flattenTree roots) = Some L
       ∧ ∀ p q, p ∈ positioned L → q ∈ positioned L →
           (fdepth (pnode p) = fdepth (pnode q) → num_eq (py p) (py q))
           ∧ (fdepth (pnode p) < fdepth (pnode q) →
              nle (nadd (nadd (py p) (ph p)) GAP_Y) (py q) = true).
Proof using Type.
  destruct roots as [|r rest].
  { destruct (layout_place []) as (xUnit & hs & E & _). rewrite E.
    eexists. split; [done|]. intros p q Hp. by apply elem_of_nil in Hp. }
  destruct (layout_spec measureTextPx (r :: rest))
    as (L & hs & DX & DY & E & Hhs & Hpl); [done|].
  exists L. split; [done|]. intros p q [i Hi]%list_elem_of_lookup
    [j Hj]%list_elem_of_lookup.
  destruct (Forall2_lookup_r _ _ _ _ _ Hpl Hi) as (eu1 & _ & Hp).
  destruct (Forall2_lookup_r _ _ _ _ _ Hpl Hj) as (eu2 & _ & Hq).
  destruct Hp as (En1 & x1 & y1 & w1 & h1 & t1 & H1 & Ex1 & Ey1 & Ew1 & Eh1
                  & _ & _ & Et1 & Hy1 & EH1 & Hh1).
  destruct Hq as (En2 & x2 & y2 & w2 & h2 & t2 & H2 & Ex2 & Ey2 & Ew2 & Eh2
                  & _ & _ & Et2 & Hy2 & EH2 & Hh2).
  rewrite En1, En2, Ey1, Ey2, Eh1. split.
  - intros Ed. rewrite Ed in Et1. rewrite Et1 in Et2. injection Et2 as <-.
    cbn [num_eq]. lra.
  - intros Hd.
    pose proof (tops_mono hs Hhs 30 _ _ _ _ _ Hd Et1 Et2 EH1) as Hm.
    unfold GAP_Y. cbn [nadd nle].
    destruct (Qlt_le_dec y2 (y1 + h1 + 50)); [lra|done].
Qed.

Lemma normalize_keeps (P : list PositionedNode) :
  Forall2 (λ p p', pnode p' = pnode p ∧ pw p' = pw p ∧ ph p' = ph p
                   ∧ plines p' = plines p)
          P (positioned (normalize P)).
Proof using Type.
  unfold normalize. cbv zeta. cbn [positioned].
  set (P1 := if _ || _ then _ else P).
  assert (Forall2 (λ p p', pnode p' = pnode p ∧ pw p' = pw p ∧ ph p' = ph p
                            ∧ plines p' = plines p) P P1) as H1.
  { unfold P1. destruct (_ || _).
    - apply Forall2_map_self. by intros.
    - apply Forall2_same_length_lookup. split; [done|].
      intros i x y Hx Hy. rewrite Hx in Hy. by injection Hy as <-. }
  clearbody P1.
  match goal with |- Forall2 _ _ (if ?c then _ else _) => destruct c end;
    [|done].
  match goal with
  | |- Forall2 _ _ (map (shiftX ?c) _) => generalize c
  end.
  intros dxc.
  induction H1 as [|p p1 P P1 Hp _ IH]; [constructor|].
  cbn [map]. constructor; [|done]. by destruct Hp as (? & ? & ? & ?).
Qed.

Lemma capLines_length (lines : list str) :
  lines ≠ [] → 1 ≤ length (capLines lines) ≤ 7.
Proof using Type.
  intros Hne. unfold capLines, MAX_LINES.
  destruct (Nat.ltb_spec 7 (length lines)).
  - rewrite length_app, length_take. cbn [length]. lia.
  - destruct lines; [done|]. cbn [length] in *. lia.
Qed.

Lemma wrapTextToLinesPx_nonempty (t : str) (maxW : num) (font : str) :
  wrapTextToLinesPx measureTextPx t maxW font ≠ [].
Proof using Type.
  unfold wrapTextToLinesPx. cbv zeta. destruct (cleanText t); [done|].
  by destruct (wrapPush _).1.
Qed.

(** The box of a node: its lines are the wrapping of its cleaned text
    to the inner width of its final width. *)
Lemma nodeBox_spec (n : FlatNode) :
  let '(lines, w, h) := nodeBox measureTextPx n in
  lines = capLines (wrapTextToLinesPx measureTextPx (cleanText (ftext n))
                      (nmax (Fin 40) (nsub w (nmul PADDING_X (Fin 2)))) FONT)
  ∧ h = Fin (10 * 2 + iq (length lines) * 16 + 8).
Proof using Type.
  unfold nodeBox. cbv zeta.
  by destruct (nlt MAX_NODE_W _).
Qed.

Lemma place_boxes (roots : list Node) (xUnit : gmap nat num) :
  Forall2 (λ n p, pnode p = n
                  ∧ pw p = (nodeBox measureTextPx n).1.2
                  ∧ ph p = (nodeBox measureTextPx n).2
                  ∧ plines p = (nodeBox measureTextPx n).1.1)
          (specFlat roots) (place measureTextPx (specFlat roots) xUnit).
Proof using Type.
  unfold place. cbv zeta. apply Forall2_map_self. intros n Hn.
  cbn [pnode pw ph plines]. unfold getNum, widthByIdOf, heightByIdOf, linesByIdOf.
  by rewrite !(boxmap_lookup roots _ n Hn).
Qed.

(** X13.  The boxes of the drawing: the layout keeps the entries of the
    flat array in their order; every box is between 120 and 210 wide;
    its lines are the wrapping of the cleaned text of its node to the
    inner width of the box (the width minus twice the padding of 12, at
    least 40), cut after seven lines; it has between one and seven
    lines, and its height is 28 plus 16 for each line. *)
Theorem layout_boxes (roots : list Node) :
  ∃ L, layoutTreeForSvg measureTextPx (flattenTree roots) = Some L
       ∧ map pnode (positioned L) = flattenTree roots
       ∧ ∀ p, p ∈ positioned L →
           (∃ w, pw p = Fin w ∧ (120 <= w ∧ w <= 210)%Q)
           ∧ plines p
             = capLines (wrapTextToLinesPx measureTextPx
                           (cleanText (ftext (pnode p)))
                           (nmax (Fin 40) (nsub (pw p) (Fin 24))) FONT)
           ∧ 1 ≤ length (plines p) ≤ 7
           ∧ num_eq (ph p) (Fin (28 + 16 * iq (length (plines p)))).
Proof using Type.
  destruct (layout_place roots) as (xUnit & hs & -> & _ & _).
  set (P0 := place measureTextPx (specFlat roots) xUnit).
  pose proof (place_boxes roots xUnit) as H0. fold P0 in H0.
  pose proof (normalize_keeps P0) as H1.
  exists (normalize P0). split; [done|].
  assert (Forall2 (λ n p, pnode p = n
                          ∧ pw p = (nodeBox measureTextPx n).1.2
                          ∧ ph p = (nodeBox measureTextPx n).2
                          ∧ plines p = (nodeBox measureTextPx n).1.1)
                  (specFlat roots) (positioned (normalize P0))) as H.
  { revert H1. generalize (positioned (normalize P0)). clear -H0.
    induction H0 as [|n p F P Hp _ IH]; intros P' H1.
    - inversion H1. constructor.
    - inversion H1 as [|? p' ? P'' Hp' H1']; subst.
      constructor; [|by apply IH].
      destruct Hp as (<- & <- & <- & <-). by destruct Hp' as (? & ? & ? & ?). }
  clear H0 H1. split.
  - rewrite (flattenTree_spec roots 0). fold (specList roots).
    fold (specFlat roots). generalize (positioned (normalize P0)) H.
    clear. induction 1 as [|n p F P (Hp & _) _ IH]; [done|].
    cbn [map]. by rewrite Hp, IH.
  - intros p [k Hk]%list_elem_of_lookup.
    destruct (Forall2_lookup_r _ _ _ _ _ H Hk) as (n & _ & En & Ew & Eh & El).
    pose proof (nodeBox_spec n) as Hs.
    destruct (nodeBox_width measureTextPx n) as (w & Ew' & Hw).
    destruct (nodeBox measureTextPx n) as [[lines w0] h0].
    cbn [fst snd] in *. destruct Hs as [Hl Hh].
    rewrite Ew, El, Eh, En. split; [by exists w|]. split; [exact Hl|].
    split.
    + rewrite Hl. apply capLines_length, wrapTextToLinesPx_nonempty.
    + rewrite Hh. cbn [num_eq]. lra.
Qed.

End LayoutMore.

(** ** Word wrapping *)

Lemma visible_app (a b : str) : visible (a ++ b) = visible a ++ visible b.
Proof. unfold visible. apply filter_app. Qed.

Lemma visible_cons_space (c : char) (s : str) :
  is_space c = true → visible (c :: s) = visible s.
Proof.
  intros H. unfold visible. rewrite filter_cons.
  destruct (decide (is_space c = false)); [congruence|done].
Qed.

Lemma visible_cons_vis (c : char) (s : str) :
  is_space c = false → visible (c :: s) = c :: visible s.
Proof.
  intros H. unfold visible. rewrite filter_cons.
  destruct (decide (is_space c = false)); [done|congruence].
Qed.

Lemma visible_trimStart (s : str) : visible (trimStart s) = visible s.
Proof.
  induction s as [|c r IH]; [done|]. cbn [trimStart].
  destruct (is_space c) eqn:E; [|done]. by rewrite visible_cons_space.
Qed.

Lemma visible_trimEnd (s : str) : visible (trimEnd s) = visible s.
Proof.
  induction s as [|c r IH]; [done|]. cbn [trimEnd].
  destruct (is_space c) eqn:E.
  - rewrite (visible_cons_space c r E), <- IH.
    destruct (trimEnd r); [done|]. by rewrite visible_cons_space.
  - rewrite (visible_cons_vis c r E), <- IH.
    destruct (trimEnd r); by rewrite visible_cons_vis.
Qed.

Lemma visible_trim (s : str) : visible (trim s) = visible s.
Proof. unfold trim. by rewrite visible_trimEnd, visible_trimStart. Qed.

Lemma visible_id (s : str) :
  (∀ c, c ∈ s → is_space c = false) → visible s = s.
Proof.
  induction s as [|c r IH]; intros H; [done|].
  rewrite visible_cons_vis by (apply H; by left).
  f_equal. apply IH. intros d Hd. apply H. by right.
Qed.

Lemma visible_collapse (s : str) : visible (collapseSpaces s) = visible s.
Proof.
  induction s as [|c r IH]; [done|]. cbn [collapseSpaces].
  destruct (is_space c) eqn:E.
  - rewrite (visible_cons_space c r E). destruct r as [|d r']; [done|].
    destruct (is_space d) eqn:E'; [done|].
    by rewrite visible_cons_space.
  - by rewrite !visible_cons_vis, IH.
Qed.

Lemma visible_clean (s : str) : visible (cleanText s) = visible s.
Proof. unfold cleanText. by rewrite visible_trim, visible_collapse. Qed.

Lemma visible_split (s : str) :
  visible (concat (split SP s)) = visible s.
Proof.
  induction s as [|c r IH]; [done|]. cbn [split].
  destruct (N.eqb_spec c SP) as [->|Hc].
  - cbn [concat app]. by rewrite IH, visible_cons_space.
  - destruct (split SP r) as [|l ls] eqn:E.
    { by apply split_nonempty in E. }
    cbn [concat app] in *. unfold visible in *. rewrite !filter_cons.
    destruct (decide (is_space c = false)); by rewrite IH.
Qed.

Lemma concat_splitSoft (s : str) : concat (splitSoft s) = s.
Proof.
  induction s as [|c r IH]; [done|]. cbn [splitSoft].
  destruct (isSoftBreak c); [cbn; by rewrite IH|].
  destruct (splitSoft r) as [|l ls] eqn:E; [by rewrite <- IH|].
  cbn [concat app] in *. by rewrite IH.
Qed.

Lemma concat_filter_nonempty (ls : list str) :
  concat (filter (λ p, (0 <? length p) = true) ls) = concat ls.
Proof.
  induction ls as [|l ls IH]; [done|]. rewrite filter_cons.
  destruct (decide ((0 <? length l) = true)) as [H|H].
  - cbn [concat]. by rewrite IH.
  - destruct l; [exact IH|done].
Qed.

Lemma concat_appendToLast (p : str) (out : list str) :
  out ≠ [] → concat (appendToLast p out) = concat out ++ p.
Proof.
  induction out as [|l r IH]; [done|]. intros _. cbn [appendToLast].
  destruct r as [|l' r'].
  - cbn. by rewrite !app_nil_r.
  - cbn [concat] in *. rewrite IH by done. by rewrite (assoc_L app).
Qed.

Lemma appendToLast_nonempty (p : str) (out : list str) :
  Forall (λ l, l ≠ []) out → Forall (λ l, l ≠ []) (appendToLast p out).
Proof.
  induction 1 as [|l r Hl Hr IH]; [constructor|]. cbn [appendToLast].
  destruct r as [|l' r'].
  - constructor; [|done]. by destruct l.
  - by constructor.
Qed.

(** The parts of a word: they are not empty, and put together they are
    the word. *)
Lemma splitWord_spec (w : str) :
  concat (splitWordWithSoftBreaks w) = w
  ∧ Forall (λ p, p ≠ []) (splitWordWithSoftBreaks w)
  ∧ (w ≠ [] → splitWordWithSoftBreaks w ≠ []).
Proof.
  unfold splitWordWithSoftBreaks. cbv zeta.
  assert (concat (filter (λ p, (0 <? length p) = true) (splitSoft w)) = w)
    as Ec by (by rewrite concat_filter_nonempty, concat_splitSoft).
  assert (Forall (λ p : str, p ≠ [])
            (filter (λ p, (0 <? length p) = true) (splitSoft w))) as Hne.
  { apply Forall_forall. intros p [Hp _]%list_elem_of_filter. by destruct p. }
  revert Ec Hne.
  generalize (filter (λ p, (0 <? length p) = true) (splitSoft w)).
  intros parts Ec Hparts.
  set (f := λ (out : list str) (p : str), _).
  assert (∀ out, Forall (λ p, p ≠ []) out →
            concat (foldl f out parts) = concat out ++ concat parts
            ∧ Forall (λ p, p ≠ []) (foldl f out parts)
            ∧ (out ≠ [] ∨ parts ≠ [] → foldl f out parts ≠ [])) as H.
  { clear Ec. induction Hparts as [|p parts Hp _ IH]; intros out Hout.
    - cbn [foldl concat]. rewrite app_nil_r. split; [done|]. split; [done|].
      by intros [?|?].
    - rewrite foldl_step.
      assert (concat (f out p) = concat out ++ p
              ∧ Forall (λ p, p ≠ []) (f out p) ∧ f out p ≠ []) as (E & Hf & Hn).
      { assert (concat (out ++ [p]) = concat out ++ p
                ∧ Forall (λ p, p ≠ []) (out ++ [p]) ∧ out ++ [p] ≠ []) as Hsnoc.
        { rewrite concat_app. cbn [concat]. rewrite app_nil_r.
          split; [done|]. split; [|by destruct out].
          apply Forall_app. split; [done|]. by constructor. }
        unfold f. destruct p as [|c [|d p']]; [done| |done].
        destruct (isSoftBreak c); [|done].
        destruct out as [|l out']; [done|].
        split; [by apply concat_appendToLast|].
        split; [by apply appendToLast_nonempty|].
        cbn [appendToLast]. by destruct out'. }
      destruct (IH (f out p) Hf) as (E' & Hf' & Hn').
      split; [|split; [done|]].
      + rewrite E', E. cbn [concat]. by rewrite (assoc_L app).
      + intros _. apply Hn'. by left. }
  destruct (H [] ltac:(constructor)) as (E & Hf & Hn).
  split; [by rewrite E|]. split; [done|]. intros Hw. apply Hn. right.
  intros ->. by rewrite <- Ec in Hw.
Qed.

Lemma codePoints_cons2 (c d : char) (r : str) :
  codePoints (c :: d :: r)
  = if ((0xD800 <=? c) && (c <=? 0xDBFF) && (0xDC00 <=? d) && (d <=? 0xDFFF))%N
    then [c; d] :: codePoints r
    else [c] :: codePoints (d :: r).
Proof. done. Qed.

Lemma concat_codePoints (s : str) : concat (codePoints s) = s.
Proof.
  remember (length s) as n eqn:Hn. revert s Hn.
  induction n as [n IH] using lt_wf_ind. intros s ->.
  destruct s as [|c [|d r]]; [done|done|]. rewrite codePoints_cons2.
  destruct (_ && _).
  - cbn [concat app]. f_equal. f_equal. eapply IH; [|done]. cbn. lia.
  - cbn [concat app]. f_equal. eapply (IH (length (d :: r))); [|done].
    cbn. lia.
Qed.

Lemma codePoints_elem (s ch : str) :
  ch ∈ codePoints s → ch ≠ [] ∧ oneChar ch.
Proof.
  remember (length s) as n eqn:Hn. revert s Hn.
  induction n as [n IH] using lt_wf_ind. intros s -> H.
  destruct s as [|c [|d r]].
  - by apply elem_of_nil in H.
  - by apply list_elem_of_singleton in H as ->.
  - rewrite codePoints_cons2 in H. destruct (_ && _) eqn:E.
    + apply elem_of_cons in H as [->|H].
      * split; [done|]. unfold oneChar. rewrite codePoints_cons2. by rewrite E.
      * eapply IH; [|done|done]. cbn. lia.
    + apply elem_of_cons in H as [->|H]; [done|].
      eapply (IH (length (d :: r))); [|done|done]. cbn. lia.
Qed.

Lemma codePoints_nonempty (s : str) : s ≠ [] → codePoints s ≠ [].
Proof.
  intros H E. pose proof (concat_codePoints s) as Ec. rewrite E in Ec.
  by rewrite <- Ec in H.
Qed.

Lemma trim_visible_fix (t : str) :
  (∀ c, c ∈ t → is_space c = false) → trim t = t.
Proof.
  intros H. unfold trim.
  assert (trimStart t = t) as ->.
  { destruct t as [|c r]; [done|]. apply trimStart_nonspace, H. by left. }
  destruct t as [|c r _] using rev_ind; [done|].
  apply trimEnd_snoc, H, elem_of_app. right. by left.
Qed.

Lemma elem_concat (ls : list str) (p : str) (c : char) :
  p ∈ ls → c ∈ p → c ∈ concat ls.
Proof.
  intros Hp Hc. apply list_elem_of_In, in_concat. exists p.
  split; by apply list_elem_of_In.
Qed.

Lemma visible_nonblank (s : str) : trim s ≠ [] → visible s ≠ [].
Proof.
  intros (c & Hc & Hs)%trim_nonblank E.
  assert (c ∈ visible s) as H by (by apply list_elem_of_filter).
  rewrite E in H. by apply elem_of_nil in H.
Qed.

Lemma blank_visible (s : str) : trim s = [] → visible s = [].
Proof. intros H. by rewrite <- visible_trim, H. Qed.

Section Wrap.

Variable measureTextPx : str → str → Q.
Variable font : str.
Variable maxWidthPx : num.

Lemma charLoop_spec (chs : list str) :
  Forall (λ ch, ch ≠ [] ∧ oneChar ch) chs →
  ∀ lines chunk,
    Forall (goodLine measureTextPx font maxWidthPx) lines →
    chunk = [] ∨ goodLine measureTextPx font maxWidthPx chunk →
    let r := foldl (charStep measureTextPx font maxWidthPx) (lines, chunk) chs in
    Forall (goodLine measureTextPx font maxWidthPx) r.1
    ∧ (r.2 = [] ∨ goodLine measureTextPx font maxWidthPx r.2)
    ∧ (chunk ≠ [] ∨ chs ≠ [] → r.2 ≠ [])
    ∧ concat r.1 ++ r.2 = concat lines ++ chunk ++ concat chs.
Proof using Type.
  induction 1 as [|ch chs [Hne H1] _ IH]; intros lines chunk Hl Hc.
  - cbn [foldl concat fst snd]. rewrite !app_nil_r.
    split; [done|]. split; [done|]. split; [|done]. by intros [?|?].
  - rewrite foldl_step. cbv zeta.
    assert (charStep measureTextPx font maxWidthPx (lines, chunk) ch
            = if fits measureTextPx font maxWidthPx (chunk ++ ch)
              then (lines, chunk ++ ch)
              else (match chunk with [] => lines | _ => lines ++ [chunk] end,
                    ch)) as -> by done.
    destruct (fits measureTextPx font maxWidthPx (chunk ++ ch)) eqn:Ef.
    + destruct (IH lines (chunk ++ ch) Hl) as (H1' & H2' & H3' & H4').
      { right. split; [by destruct chunk|by left]. }
      split; [done|]. split; [done|]. split.
      * intros _. apply H3'. left. by destruct chunk.
      * rewrite H4'. cbn [concat]. by rewrite !(assoc_L app).
    + destruct (IH (match chunk with [] => lines | _ => lines ++ [chunk] end)
                  ch) as (H1' & H2' & H3' & H4').
      { destruct chunk as [|c0 r0]; [done|]. apply Forall_app. split; [done|].
        constructor; [|done]. by destruct Hc. }
      { right. by split; [|right]. }
      split; [done|]. split; [done|]. split.
      * intros _. apply H3'. by left.
      * rewrite H4'. cbn [concat]. destruct chunk as [|c0 r0]; [done|].
        rewrite concat_app. cbn [concat]. by rewrite app_nil_r, !(assoc_L app).
Qed.

Lemma nonBlank_true (s : str) : nonBlank s = true → trim s ≠ [].
Proof using Type.
  unfold nonBlank. intros H E. by rewrite E in H.
Qed.

Lemma nonBlank_false (s : str) : nonBlank s = false → trim s = [].
Proof using Type.
  unfold nonBlank. intros H. by destruct (trim s).
Qed.

Lemma tokenOk_trim (t : str) : tokenOk t → trim t = t.
Proof using Type. intros [_ H]. by apply trim_visible_fix. Qed.

Lemma trim_join_token (current token : str) (sp : bool) :
  current ≠ [] → trim current = current → tokenOk token →
  trim (current ++ (if sp then SP :: token else token))
  = current ++ (if sp then SP :: token else token).
Proof using Type.
  intros Hne Hc Ht. pose proof (tokenOk_trim _ Ht) as Et.
  destruct Ht as [Htne _]. unfold trim.
  destruct current as [|c r]; [done|].
  pose proof (trimmed_head _ c r Hc eq_refl) as Hhd.
  cbn [app]. rewrite (trimStart_nonspace c _ Hhd).
  change (c :: r ++ (if sp then SP :: token else token))
    with ((c :: r) ++ (if sp then SP :: token else token)).
  replace ((c :: r) ++ (if sp then SP :: token else token))
    with (((c :: r) ++ (if sp then [SP] else [])) ++ token)
    by (destruct sp; by rewrite <- (assoc_L app)).
  apply trimEnd_app_fix; [done|]. by apply trimmed_trimEnd.
Qed.

(** One token: the invariant is kept, something is in the state
    afterwards, and the visible characters of the token are added. *)
Lemma pushToken_spec (s : list str * str) (token : str) (b : bool) :
  wrapInv measureTextPx font maxWidthPx s → tokenOk token →
  let r := pushToken measureTextPx font maxWidthPx s token b in
  wrapInv measureTextPx font maxWidthPx r
  ∧ (r.1 ≠ [] ∨ r.2 ≠ [])
  ∧ visible (concat r.1 ++ r.2) = visible (concat s.1 ++ s.2) ++ token.
Proof using Type.
  destruct s as [lines current]. intros [Hl Hc] Ht. cbn [fst snd] in *.
  pose proof (tokenOk_trim _ Ht) as Ett.
  assert (visible token = token) as Evt by (apply visible_id, Ht).
  assert (token ≠ []) as Htne by apply Ht.
  unfold pushToken. cbv zeta.
  set (candidate := match current with [] => token | _ => _ end).
  assert (trim candidate = candidate) as Etc.
  { unfold candidate. destruct current as [|c0 r0] eqn:Ecur; [done|].
    rewrite <- Ecur in *. destruct Hc as [Hc|[Hc _]]; [congruence|].
    apply trim_join_token; [congruence|done|done]. }
  assert (visible candidate = visible current ++ token) as Evc.
  { unfold candidate. destruct current as [|c0 r0] eqn:Ecur; [done|].
    rewrite visible_app. f_equal.
    destruct (b && _); [|done]. by rewrite visible_cons_space. }
  assert (candidate ≠ []) as Hcne.
  { unfold candidate. destruct current; [done|done]. }
  destruct (fits measureTextPx font maxWidthPx candidate) eqn:Ef.
  { cbn [fst snd]. split; [split; [done|by right]|].
    split; [by right|]. by rewrite !visible_app, Evc, (assoc_L app). }
  set (s1 := if nonBlank current then wrapPush (lines, current)
             else (lines, current)).
  assert (Forall (goodLine measureTextPx font maxWidthPx) s1.1
          ∧ nonBlank s1.2 = false
          ∧ visible (concat s1.1) = visible (concat lines ++ current)) as Hs1.
  { unfold s1. destruct (nonBlank current) eqn:Enb.
    - apply nonBlank_true in Enb as Hnb. unfold wrapPush.
      destruct Hc as [->|[Etc' Efc]]; [done|]. rewrite Etc'.
      destruct current as [|c0 r0]; [done|]. cbn [length Nat.ltb Nat.leb fst snd].
      split; [|split; [done|]].
      + apply Forall_app. split; [done|]. constructor; [|done].
        split; [done|by left].
      + rewrite concat_app. cbn [concat]. by rewrite app_nil_r.
    - cbn [fst snd]. split; [done|]. split; [done|].
      apply nonBlank_false, blank_visible in Enb.
      by rewrite visible_app, Enb, app_nil_r. }
  destruct Hs1 as (Hl1 & Hnb1 & Ev1). destruct s1 as [lines1 current1].
  cbn [fst snd] in *.
  destruct (nonBlank current && fits measureTextPx font maxWidthPx token)
    eqn:Er.
  { apply andb_true_iff in Er as [_ Eft]. cbn [fst snd].
    split; [split; [done|by right]|]. split; [by right|].
    by rewrite visible_app, Ev1, Evt. }
  pose proof (charLoop_spec (codePoints token)) as Hloop.
  specialize (Hloop ltac:(apply Forall_forall; intros ch Hch;
                          by eapply codePoints_elem) lines1 [] Hl1
                    ltac:(by left)).
  cbv zeta in Hloop.
  change (foldl _ (lines1, []) (codePoints token))
    with (foldl (charStep measureTextPx font maxWidthPx) (lines1, [])
                (codePoints token)).
  destruct (foldl _ (lines1, []) (codePoints token)) as [lines2 chunk].
  cbn [fst snd] in Hloop. destruct Hloop as (Hl2 & Hc2 & Hne2 & Econ).
  rewrite Hnb1. rewrite concat_codePoints in Econ. cbn [app] in Econ.
  assert (chunk ≠ []) as Hchunk.
  { apply Hne2. right. by apply codePoints_nonempty. }
  destruct chunk as [|c0 r0]; [done|]. cbn [fst snd].
  split; [split; [|by left]|].
  - apply Forall_app. split; [done|]. constructor; [|done].
    by destruct Hc2.
  - split; [left; by destruct lines2|].
    rewrite app_nil_r, concat_app. cbn [concat]. rewrite app_nil_r.
    rewrite Econ, visible_app, Ev1, Evt. done.
Qed.

Lemma pushParts_spec (parts : list str) :
  Forall tokenOk parts →
  ∀ (flag : bool) (s : list str * str),
    wrapInv measureTextPx font maxWidthPx s →
    let r := (foldl (λ (a : bool * (list str * str)) (part : str),
                       (false, pushToken measureTextPx font maxWidthPx
                                 a.2 part a.1))
                    (flag, s) parts).2 in
    wrapInv measureTextPx font maxWidthPx r
    ∧ visible (concat r.1 ++ r.2)
      = visible (concat s.1 ++ s.2) ++ concat parts.
Proof using Type.
  induction 1 as [|p parts Hp _ IH]; intros flag s Hs.
  - cbn [foldl snd concat]. by rewrite app_nil_r.
  - rewrite foldl_step. cbn [fst snd]. cbv zeta.
    destruct (pushToken_spec s p flag Hs Hp) as (Hs' & _ & Ev).
    destruct (IH false _ Hs') as (Hs'' & Ev').
    split; [done|]. rewrite Ev', Ev. cbn [concat]. by rewrite (assoc_L app).
Qed.

Lemma pushWord_spec (s : list str * str) (w : str) :
  wrapInv measureTextPx font maxWidthPx s →
  (∀ c, c ∈ w → is_space c = false) →
  let r := pushWord measureTextPx font maxWidthPx s w in
  wrapInv measureTextPx font maxWidthPx r
  ∧ visible (concat r.1 ++ r.2) = visible (concat s.1 ++ s.2) ++ w.
Proof using Type.
  intros Hs Hw. destruct (splitWord_spec w) as (Ec & Hne & _).
  unfold pushWord. cbv zeta.
  destruct (pushParts_spec (splitWordWithSoftBreaks w)) with (flag := true)
    (s := s) as (Hr & Ev); [|done|].
  - rewrite Forall_forall in Hne. apply Forall_forall. intros p Hp.
    split; [by apply Hne|]. intros c Hc. apply Hw. rewrite <- Ec.
    by apply (elem_concat _ p).
  - split; [done|]. by rewrite Ev, Ec.
Qed.

Lemma pushWords_spec (words : list str) :
  Forall (λ w, ∀ c, c ∈ w → is_space c = false) words →
  ∀ s, wrapInv measureTextPx font maxWidthPx s →
       let r := foldl (pushWord measureTextPx font maxWidthPx) s words in
       wrapInv measureTextPx font maxWidthPx r
       ∧ visible (concat r.1 ++ r.2)
         = visible (concat s.1 ++ s.2) ++ concat words.
Proof using Type.
  induction 1 as [|w words Hw _ IH]; intros s Hs.
  - cbn [foldl concat]. by rewrite app_nil_r.
  - rewrite foldl_step. cbv zeta.
    destruct (pushWord_spec s w Hs Hw) as (Hs' & Ev).
    destruct (IH _ Hs') as (Hs'' & Ev').
    split; [done|]. rewrite Ev', Ev. cbn [concat]. by rewrite (assoc_L app).
Qed.

End Wrap.

Lemma collapse_spaces_only (s : str) (c : char) :
  c ∈ collapseSpaces s → is_space c = true → c = SP.
Proof.
  induction s as [|d r IH]; [by intros ?%elem_of_nil|]. cbn [collapseSpaces].
  destruct (is_space d) eqn:E.
  - destruct r as [|d' r'].
    + by intros ->%list_elem_of_singleton.
    + destruct (is_space d'); [done|].
      intros [->|H]%elem_of_cons; [done|]. by apply IH.
  - intros [->|H]%elem_of_cons; [congruence|]. by apply IH.
Qed.

(** The words of a cleaned text hold no white space. *)
Lemma clean_words (text : str) :
  Forall (λ w, ∀ c, c ∈ w → is_space c = false) (split SP (cleanText text)).
Proof.
  apply Forall_forall. intros w Hw c Hc.
  destruct (is_space c) eqn:E; [|done].
  pose proof (split_elem _ _ _ _ Hw Hc) as Hin.
  apply trim_sublist in Hin. apply collapse_spaces_only in Hin; [|done].
  subst. pose proof (split_no_sep SP (cleanText text)) as Hs.
  rewrite Forall_forall in Hs. by apply Hs in Hw.
Qed.

Lemma concat_words (text : str) :
  concat (split SP (cleanText text)) = visible text.
Proof.
  rewrite <- visible_clean, <- visible_split. symmetry. apply visible_id.
  intros c Hc. apply list_elem_of_In, in_concat in Hc as (w & Hw & Hc).
  apply list_elem_of_In in Hw, Hc.
  pose proof (clean_words text) as H. rewrite Forall_forall in H.
  by apply (H w).
Qed.

(** The result of [wrapTextToLinesPx] on a text that is not blank. *)
Lemma wrap_spec (measureTextPx : str → str → Q) (text : str)
    (maxWidthPx : num) (font : str) :
  cleanText text ≠ [] →
  Forall (goodLine measureTextPx font maxWidthPx)
         (wrapTextToLinesPx measureTextPx text maxWidthPx font)
  ∧ visible (concat (wrapTextToLinesPx measureTextPx text maxWidthPx font))
    = visible text.
Proof.
  intros Hne. unfold wrapTextToLinesPx. cbv zeta.
  destruct (cleanText text) as [|c0 r0] eqn:Ec; [done|]. rewrite <- Ec.
  destruct (pushWords_spec measureTextPx font maxWidthPx
              (split SP (cleanText text)) (clean_words text) ([], []))
    as (Hinv & Ev).
  { split; [constructor|by left]. }
  cbv zeta in Hinv, Ev. rewrite concat_words in Ev.
  change (visible (concat ([], []).1 ++ ([], []).2) ++ visible text)
    with (visible text) in Ev.
  destruct (foldl _ _ (split SP (cleanText text))) as [lines current].
  destruct Hinv as [Hl Hc]. cbn [fst snd] in *. unfold wrapPush.
  assert (Forall (goodLine measureTextPx font maxWidthPx)
            (if 0 <? length (trim current) then lines ++ [trim current]
             else lines)
          ∧ visible (concat (if 0 <? length (trim current)
                             then lines ++ [trim current] else lines))
            = visible text
          ∧ (if 0 <? length (trim current) then lines ++ [trim current]
             else lines) ≠ []) as (H1 & H2 & H3).
  { assert (visible text ≠ []) as Hvis.
    { rewrite <- visible_clean. apply visible_nonblank.
      unfold cleanText. rewrite trim_idem. fold (cleanText text). congruence. }
    destruct Hc as [->|[Et Ef]].
    - cbn [trim trimStart trimEnd length Nat.ltb Nat.leb].
      rewrite app_nil_r in Ev. split; [done|]. split; [done|].
      intros ->. by cbn in Ev.
    - rewrite Et. destruct current as [|c1 r1].
      + cbn [length Nat.ltb Nat.leb]. rewrite app_nil_r in Ev.
        split; [done|]. split; [done|]. intros ->. by cbn in Ev.
      + cbn [length Nat.ltb Nat.leb]. split; [|split].
        * apply Forall_app. split; [done|]. constructor; [|done].
          split; [done|by left].
        * rewrite concat_app. cbn [concat]. by rewrite app_nil_r.
        * by destruct lines. }
  destruct (if 0 <? length (trim current) then _ else _); done.
Qed.

(** X14.  Every line that [wrapTextToLinesPx] returns fits the width,
    or else holds a single character (which is then too wide on its
    own); no line is empty, unless the text is blank, in which case the
    result is one empty line.  This holds for every text-measuring
    function, every width and every font. *)
Theorem wrap_lines_fit (measureTextPx : str → str → Q) (text : str)
    (maxWidthPx : num) (font : str) :
  (cleanText text = []
   ∧ wrapTextToLinesPx measureTextPx text maxWidthPx font = [[]])
  ∨ (cleanText text ≠ []
     ∧ Forall (λ l, l ≠ []
                    ∧ (fits measureTextPx font maxWidthPx l = true
                       ∨ codePoints l = [l]))
              (wrapTextToLinesPx measureTextPx text maxWidthPx font)).
Proof.
  destruct (cleanText text) as [|c r] eqn:E.
  - left. split; [done|]. unfold wrapTextToLinesPx. by rewrite E.
  - right. split; [done|]. apply wrap_spec. congruence.
Qed.

(** X15.  Wrapping keeps the text: the characters of the returned lines
    that are not white space are, in order, those of the text; nothing
    is lost, repeated or reordered, whatever the measure and the
    width. *)
Theorem wrap_keeps_text (measureTextPx : str → str → Q) (text : str)
    (maxWidthPx : num) (font : str) :
  visible (concat (wrapTextToLinesPx measureTextPx text maxWidthPx font))
  = visible text.
Proof.
  destruct (cleanText text) as [|c r] eqn:E.
  - unfold wrapTextToLinesPx. rewrite E. cbn.
    by rewrite <- visible_clean, E.
  - apply wrap_spec. congruence.
Qed.

(** ** Wrapping by a number of characters *)

Lemma chunkLoop_zero (fuel : nat) (lines : list str) (w : str) :
  w ≠ [] → chunkLoop fuel 0 lines w = None.
Proof.
  intros Hw. revert lines. induction fuel as [|fuel IH]; intros lines; [done|].
  cbn [chunkLoop]. destruct w as [|c r]; [done|].
  cbn [length Nat.ltb Nat.leb drop]. apply IH.
Qed.

Lemma foldl_bind_None {A B} (f : A → B → option A) (l : list B) :
  foldl (λ acc w, acc ≫= λ s, f s w) None l = None.
Proof. by induction l. Qed.

(** X17.  With [maxCharsPerLine = 0] the function does not return on a
    text that is not blank: the loop that cuts a word longer than the
    limit never shortens it. *)
Theorem wrapTextToLines_zero_diverges (text : str) (fuel : nat) :
  cleanText text ≠ [] → wrapTextToLines fuel text 0 = None.
Proof.
  intros Hne. unfold wrapTextToLines. cbv zeta.
  destruct (cleanText text) as [|c r] eqn:E; [done|].
  assert (trim (c :: r) = c :: r) as Ht.
  { rewrite <- E. unfold cleanText. apply trim_idem. }
  pose proof (trimmed_head _ c r Ht eq_refl) as Hc.
  assert ((c =? SP)%N = false) as Hsp.
  { destruct (N.eqb_spec c SP) as [->|_]; done. }
  cbn [split]. rewrite Hsp.
  destruct (split SP r) as [|l ls] eqn:Es.
  { by apply split_nonempty in Es. }
  rewrite foldl_step. cbn [mbind option_bind]. unfold wrapWord.
  cbn [length Nat.ltb Nat.leb]. rewrite chunkLoop_zero by done.
  cbn [mbind option_bind]. by rewrite foldl_bind_None.
Qed.

Lemma wrapTextToLines_zero_diverges_witness :
  wrapTextToLines 1000 (js " a b ") 0 = None.
Proof.
  apply (wrapTextToLines_zero_diverges (js " a b ") 1000). by vm_compute.
Defined.

Lemma length_trimStart (s : str) : length (trimStart s) ≤ length s.
Proof.
  induction s as [|c r IH]; [done|]. cbn [trimStart].
  destruct (is_space c); cbn [length]; lia.
Qed.

Lemma length_trimEnd (s : str) : length (trimEnd s) ≤ length s.
Proof.
  induction s as [|c r IH]; [done|]. cbn [trimEnd].
  destruct (trimEnd r); [destruct (is_space c)|]; cbn [length] in *; lia.
Qed.

Lemma length_trim (s : str) : length (trim s) ≤ length s.
Proof.
  unfold trim. pose proof (length_trimEnd (trimStart s)).
  pose proof (length_trimStart s). lia.
Qed.

Lemma length_collapse (s : str) : length (collapseSpaces s) ≤ length s.
Proof.
  induction s as [|c r IH]; [done|]. cbn [collapseSpaces].
  destruct (is_space c); [|cbn [length]; lia].
  destruct r as [|d r']; [done|].
  destruct (is_space d); cbn [length] in *; lia.
Qed.

Lemma length_split_elem (sep : char) (s w : str) :
  w ∈ split sep s → length w ≤ length s.
Proof.
  revert w. induction s as [|c r IH]; intros w.
  - by intros ->%list_elem_of_singleton.
  - cbn [split]. destruct (c =? sep)%N.
    + intros [->|H]%elem_of_cons; [cbn; lia|]. apply IH in H. cbn [length]. lia.
    + destruct (split sep r) as [|l ls] eqn:E.
      * intros ->%list_elem_of_singleton. cbn [length]. lia.
      * intros [->|H]%elem_of_cons.
        -- specialize (IH l ltac:(by left)). cbn [length]. lia.
        -- specialize (IH w ltac:(by right)). cbn [length]. lia.
Qed.

Lemma chunkLoop_spec (maxChars : nat) :
  0 < maxChars →
  ∀ fuel chunk lines, length chunk < fuel →
    ∃ lines' chunk',
      chunkLoop fuel maxChars lines chunk = Some (lines ++ lines', chunk')
      ∧ Forall (λ l, length l ≤ maxChars) lines'
      ∧ length chunk' ≤ maxChars
      ∧ concat lines' ++ chunk' = chunk.
Proof.
  intros Hpos. induction fuel as [|fuel IH]; intros chunk lines Hf; [lia|].
  cbn [chunkLoop]. destruct (Nat.ltb_spec maxChars (length chunk)) as [H|H].
  - destruct (IH (drop maxChars chunk) (lines ++ [take maxChars chunk]))
      as (lines' & chunk' & -> & Hl & Hc & Ec).
    { rewrite length_drop. lia. }
    exists (take maxChars chunk :: lines'), chunk'.
    split; [by rewrite <- (assoc_L app)|]. split.
    { constructor; [|done]. rewrite length_take. lia. }
    split; [done|]. cbn [concat]. rewrite <- (assoc_L app), Ec.
    apply take_drop.
  - exists [], chunk. by rewrite app_nil_r.
Qed.

(** What holds of the state of [wrapTextToLines]. *)
Lemma pushCurrent_spec (maxChars : nat) (lines : list str) (current : str) :
  Forall (λ l, length l ≤ maxChars) lines → length current ≤ maxChars →
  Forall (λ l, length l ≤ maxChars) (pushCurrent (lines, current)).1
  ∧ visible (concat (pushCurrent (lines, current)).1)
    = visible (concat lines ++ current).
Proof.
  intros Hl Hc. unfold pushCurrent. cbn [fst].
  destruct (Nat.ltb_spec 0 (length (trim current))) as [H|H].
  - split.
    + apply Forall_app. split; [done|]. constructor; [|done].
      pose proof (length_trim current). lia.
    + rewrite concat_app. cbn [concat].
      by rewrite app_nil_r, !visible_app, visible_trim.
  - split; [done|]. rewrite visible_app.
    assert (trim current = []) as E by (destruct (trim current); [done|cbn in H; lia]).
    by rewrite (blank_visible _ E), app_nil_r.
Qed.

Lemma wrapWord_spec (fuel maxChars : nat) (lines : list str)
    (current w : str) :
  0 < maxChars → length w < fuel →
  (∀ c, c ∈ w → is_space c = false) →
  Forall (λ l, length l ≤ maxChars) lines → length current ≤ maxChars →
  ∃ lines' current',
    wrapWord fuel maxChars (lines, current) w = Some (lines', current')
    ∧ Forall (λ l, length l ≤ maxChars) lines'
    ∧ length current' ≤ maxChars
    ∧ visible (concat lines' ++ current')
      = visible (concat lines ++ current) ++ w.
Proof.
  intros Hpos Hf Hw Hl Hc.
  assert (visible w = w) as Ew by (by apply visible_id).
  destruct (pushCurrent_spec maxChars lines current Hl Hc) as [Hp Ep].
  unfold wrapWord. destruct (Nat.ltb_spec maxChars (length w)) as [H|H].
  - destruct (chunkLoop_spec maxChars Hpos fuel w
                (pushCurrent (lines, current)).1 Hf)
      as (lines' & chunk' & -> & Hl' & Hc' & Ec).
    cbn [mbind option_bind]. eexists _, []. split; [done|].
    split; [|split; [cbn; lia|]].
    + destruct (0 <? length chunk'); repeat (apply Forall_app; split);
        try done. by constructor.
    + rewrite app_nil_r.
      assert (concat (if 0 <? length chunk'
                      then ((pushCurrent (lines, current)).1 ++ lines')
                           ++ [chunk']
                      else (pushCurrent (lines, current)).1 ++ lines')
              = concat (pushCurrent (lines, current)).1 ++ w) as ->.
      { rewrite <- Ec. destruct chunk' as [|c0 r0].
        - cbn [length Nat.ltb Nat.leb]. by rewrite concat_app, app_nil_r.
        - cbn [length Nat.ltb Nat.leb]. rewrite !concat_app. cbn [concat].
          by rewrite app_nil_r, (assoc_L app). }
      by rewrite visible_app, Ep, Ew.
  - cbv zeta.
    set (candidate := match current with [] => w | _ => current ++ SP :: w end).
    assert (visible candidate = visible current ++ w) as Evc.
    { unfold candidate. destruct current as [|c0 r0] eqn:Ecur; [done|].
      rewrite visible_app. f_equal. by rewrite visible_cons_space. }
    destruct (Nat.leb_spec (length candidate) maxChars) as [H'|H'].
    + exists lines, candidate. split; [done|]. split; [done|]. split; [done|].
      by rewrite !visible_app, Evc, (assoc_L app).
    + eexists _, w. split; [done|]. split; [done|]. split; [done|].
      by rewrite visible_app, Ep, Ew.
Qed.

Lemma wrapWords_spec (fuel maxChars : nat) (words : list str) :
  0 < maxChars →
  Forall (λ w, length w < fuel ∧ ∀ c, c ∈ w → is_space c = false) words →
  ∀ lines current,
    Forall (λ l, length l ≤ maxChars) lines → length current ≤ maxChars →
    ∃ lines' current',
      foldl (λ acc w, acc ≫= λ s, wrapWord fuel maxChars s w)
            (Some (lines, current)) words
      = Some (lines', current')
      ∧ Forall (λ l, length l ≤ maxChars) lines'
      ∧ length current' ≤ maxChars
      ∧ visible (concat lines' ++ current')
        = visible (concat lines ++ current) ++ concat words.
Proof.
  intros Hpos. induction 1 as [|w words [Hf Hw] _ IH]; intros lines current Hl Hc.
  - exists lines, current. cbn [foldl concat]. by rewrite app_nil_r.
  - rewrite foldl_step. cbn [mbind option_bind].
    destruct (wrapWord_spec fuel maxChars lines current w Hpos Hf Hw Hl Hc)
      as (l1 & c1 & -> & Hl1 & Hc1 & E1).
    destruct (IH l1 c1 Hl1 Hc1) as (l2 & c2 & -> & Hl2 & Hc2 & E2).
    exists l2, c2. split; [done|]. split; [done|]. split; [done|].
    rewrite E2, E1. cbn [concat]. by rewrite (assoc_L app).
Qed.

(** X16.  For a limit of at least one character [wrapTextToLines]
    returns (the loop that cuts long words ends), the result is not
    empty, no line is longer than the limit, and the characters of the
    lines that are not white space are, in order, those of the text. *)
Theorem wrapTextToLines_bounded (text : str) (maxCharsPerLine fuel : nat) :
  0 < maxCharsPerLine → length text < fuel →
  ∃ lines,
    wrapTextToLines fuel text maxCharsPerLine = Some lines
    ∧ lines ≠ []
    ∧ Forall (λ l, length l ≤ maxCharsPerLine) lines
    ∧ visible (concat lines) = visible text.
Proof.
  intros Hpos Hfuel. unfold wrapTextToLines. cbv zeta.
  destruct (cleanText text) as [|c0 r0] eqn:Ec.
  { exists [[]]. split; [done|]. split; [done|]. split.
    - constructor; [cbn; lia|done].
    - rewrite <- (visible_clean text), Ec. done. }
  rewrite <- Ec.
  destruct (wrapWords_spec fuel maxCharsPerLine (split SP (cleanText text))
              Hpos) with (lines := @nil str) (current := @nil N)
    as (lines & current & -> & Hl & Hc & Ev); [|done|cbn; lia|].
  { pose proof (clean_words text) as Hw. rewrite Forall_forall in Hw.
    apply Forall_forall. intros w Hin. split; [|by apply Hw].
    apply length_split_elem in Hin. unfold cleanText in Hin.
    pose proof (length_trim (collapseSpaces text)).
    pose proof (length_collapse text). lia. }
  cbn [mbind option_bind]. rewrite concat_words in Ev.
  change (visible (concat [] ++ []) ++ visible text) with (visible text) in Ev.
  destruct (pushCurrent_spec maxCharsPerLine lines current Hl Hc) as [Hp Ep].
  rewrite Ev in Ep.
  assert (visible text ≠ []) as Hvis.
  { rewrite <- visible_clean. apply visible_nonblank.
    unfold cleanText. rewrite trim_idem. fold (cleanText text). congruence. }
  destruct (pushCurrent (lines, current)).1 as [|l ls] eqn:E.
  { by cbn in Ep. }
  by exists (l :: ls).
Qed.

Lemma wrapTextToLines_bounded_witness :
  ∃ lines,
    wrapTextToLines 20 (js "ab  cdefgh i") 3 = Some lines
    ∧ lines ≠ []
    ∧ Forall (λ l, length l ≤ 3) lines
    ∧ visible (concat lines) = visible (js "ab  cdefgh i").
Proof.
  apply (wrapTextToLines_bounded (js "ab  cdefgh i") 3 20); [lia|].
  vm_compute. lia.
Defined.

(** ** The store of the parser is the tree in preorder *)

Lemma objs_node (txt : str) (cs : list Node) (i : nat) :
  objs (mkNode txt cs) i = mkObj txt (childIds cs (S i)) :: objsF cs (S i).
Proof.
  cbn [objs]. by f_equal.
Qed.

Lemma objsF_length_aux (cs : list Node) :
  Forall (λ t, ∀ i, length (objs t i) = size t) cs →
  ∀ j, length (objsF cs j) = list_sum (map size cs).
Proof.
  induction 1 as [|k cs Hk _ IH]; intros j; [done|].
  cbn [objsF map list_sum]. by rewrite length_app, Hk, IH.
Qed.

Lemma objs_length (t : Node) : ∀ i, length (objs t i) = size t.
Proof.
  induction t as [txt cs IH] using Node_ind'. intros i.
  rewrite objs_node, size_node. cbn [length]. f_equal.
  by apply objsF_length_aux.
Qed.

Lemma objsF_length (cs : list Node) (j : nat) :
  length (objsF cs j) = list_sum (map size cs).
Proof.
  apply objsF_length_aux, Forall_forall. intros t _. apply objs_length.
Qed.

Lemma objsF_app (a b : list Node) (j : nat) :
  objsF (a ++ b) j = objsF a j ++ objsF b (j + list_sum (map size a)).
Proof.
  revert j. induction a as [|k a IH]; intros j.
  - cbn. by rewrite Nat.add_0_r.
  - cbn [app objsF map]. rewrite IH, <- (assoc_L app).
    change (list_sum (size k :: map size a))
      with (size k + list_sum (map size a)).
    by rewrite Nat.add_assoc.
Qed.

Lemma childIds_app (a b : list Node) (j : nat) :
  childIds (a ++ b) j = childIds a j ++ childIds b (j + list_sum (map size a)).
Proof.
  revert j. induction a as [|k a IH]; intros j.
  - cbn. by rewrite Nat.add_0_r.
  - cbn [app childIds map]. rewrite IH.
    change (list_sum (size k :: map size a))
      with (size k + list_sum (map size a)).
    by rewrite Nat.add_assoc.
Qed.

Lemma objsF_texts_aux (cs : list Node) :
  Forall (λ t, ∀ i, map otext (objs t i) = map text (subnodes t)) cs →
  ∀ j, map otext (objsF cs j) = map text (flat_map subnodes cs).
Proof.
  induction 1 as [|k cs Hk _ IH]; intros j; [done|].
  cbn [objsF flat_map]. by rewrite !map_app, Hk, IH.
Qed.

Lemma objs_texts (t : Node) :
  ∀ i, map otext (objs t i) = map text (subnodes t).
Proof.
  induction t as [txt cs IH] using Node_ind'. intros i.
  rewrite objs_node. cbn [map subnodes otext text]. f_equal.
  by apply objsF_texts_aux.
Qed.

Lemma objsF_texts (cs : list Node) (j : nat) :
  map otext (objsF cs j) = map text (flat_map subnodes cs).
Proof.
  apply objsF_texts_aux, Forall_forall. intros t _. apply objs_texts.
Qed.

(** A store that holds the objects of a tree holds the tree. *)
Lemma objsF_reads_aux (st : Store) (cs : list Node) :
  Forall (λ t, ∀ pre post,
            st = pre ++ objs t (length pre) ++ post →
            reads st t (length pre)) cs →
  ∀ pre post i,
    st = pre ++ objsF cs (length pre) ++ post → i < length pre →
    Forall2 (λ c j, i < j ∧ reads st c j) cs (childIds cs (length pre)).
Proof.
  induction 1 as [|k cs Hk _ IH]; intros pre post i E Hi; [constructor|].
  cbn [objsF childIds] in *. constructor.
  - split; [lia|]. apply (Hk pre (objsF cs (length pre + size k) ++ post)).
    by rewrite E, <- !(assoc_L app).
  - replace (length pre + size k) with (length (pre ++ objs k (length pre)))
      by (by rewrite length_app, objs_length).
    apply (IH _ post).
    + rewrite E, <- !(assoc_L app). do 2 f_equal.
      by rewrite length_app, objs_length.
    + rewrite length_app. lia.
Qed.

Lemma objs_reads (st : Store) (t : Node) :
  ∀ pre post,
    st = pre ++ objs t (length pre) ++ post → reads st t (length pre).
Proof.
  induction t as [txt cs IH] using Node_ind'. intros pre post E.
  apply reads_node. rewrite objs_node in E.
  exists (mkObj txt (childIds cs (S (length pre)))). split; [|split; [done|]].
  - rewrite E. by rewrite lookup_app_r, Nat.sub_diag by done.
  - cbn [ochildren].
    pose proof (objsF_reads_aux st cs IH
                  (pre ++ [mkObj txt (childIds cs (S (length pre)))]) post
                  (length pre)) as H.
    rewrite length_app in H. cbn [length] in H. rewrite Nat.add_1_r in H.
    apply H; [|lia]. by rewrite E, <- (assoc_L app).
Qed.

(** *** The spine *)

Lemma closeSpine_length (sp : Spine) (i : nat) :
  length (objsF (closeSpine sp) i) = spineLen sp.
Proof.
  revert i. induction sp as [|[[l txt] kids] deeper IH]; intros i; [done|].
  cbn [closeSpine objsF]. rewrite app_nil_r, objs_node. cbn [length].
  rewrite objsF_app, length_app, objsF_length, IH. done.
Qed.

Lemma spineStack_app (a b : Spine) :
  ∀ i acc, spineStack i (a ++ b) acc
           = spineStack (i + spineLen a) b (spineStack i a acc).
Proof.
  induction a as [|[[l txt] kids] a IH]; intros i acc.
  - change (spineLen []) with 0. by rewrite Nat.add_0_r.
  - cbn [app spineStack]. rewrite IH. f_equal.
    change (spineLen ((l, txt, kids) :: a))
      with (S (list_sum (map size kids)) + spineLen a). lia.
Qed.

Lemma spineStack_levels (P : Z → Prop) (b : Spine) :
  Forall (λ e : Z * str * list Node, P e.1.1) b →
  ∀ j acc, ∃ extra, spineStack j b acc = extra ++ acc
                    ∧ Forall (λ e : Z * nat, P e.1) extra.
Proof.
  induction 1 as [|[[l txt] kids] b Hl _ IH]; intros j acc.
  - by exists [].
  - cbn [spineStack].
    destruct (IH (S j + list_sum (map size kids)) ((l, j) :: acc))
      as (extra & -> & Hex).
    exists (extra ++ [(l, j)]). split; [by rewrite <- (assoc_L app)|].
    apply Forall_app. split; [done|]. by constructor.
Qed.

(** Closing the open nodes below [e] makes them children of [e]: the
    tree is the same. *)
Lemma closeSpine_merge (sp0 : Spine) (l : Z) (txt : str) (kids : list Node)
    (popped : Spine) :
  closeSpine (sp0 ++ [(l, txt, kids)] ++ popped)
  = closeSpine (sp0 ++ [(l, txt, kids ++ closeSpine popped)]).
Proof.
  induction sp0 as [|[[l0 txt0] kids0] sp0 IH].
  - cbn [app closeSpine]. by rewrite app_nil_r.
  - cbn [app closeSpine] in *. by rewrite IH.
Qed.

Lemma spine_split (L : Z) (sp : Spine) :
  Exists (λ e : Z * str * list Node, (e.1.1 < L)%Z) sp →
  ∃ sp0 e popped,
    sp = sp0 ++ [e] ++ popped ∧ (e.1.1 < L)%Z
    ∧ Forall (λ e : Z * str * list Node, (L ≤ e.1.1)%Z) popped.
Proof.
  induction sp as [|e sp IH] using rev_ind.
  - by intros ?%Exists_nil.
  - intros H. destruct (Z.lt_ge_cases e.1.1 L) as [Hlt|Hge].
    + exists sp, e, []. by rewrite app_nil_r.
    + apply Exists_app in H as [H|H].
      * destruct (IH H) as (sp0 & e0 & popped & -> & He0 & Hp).
        exists sp0, e0, (popped ++ [e]). split; [by rewrite <- !(assoc_L app)|].
        split; [done|]. apply Forall_app. split; [done|]. by constructor.
      * apply Exists_cons in H as [H|H%Exists_nil]; [lia|done].
Qed.

Lemma childIds_closeSpine (sp : Spine) (j : nat) :
  sp ≠ [] → childIds (closeSpine sp) j = [j].
Proof. by destruct sp as [|[[l txt] kids] sp]. Qed.

(** A new open node below the last one. *)
Lemma spine_push (sp0 : Spine) (l : Z) (txt : str) (kids : list Node)
    (L : Z) (lab : str) :
  ∀ i acc,
    let sp := sp0 ++ [(l, txt, kids)] in
    let p := i + spineLen sp0 in
    spineStack i sp acc = (l, p) :: spineStack i sp0 acc
    ∧ spineStack i (sp ++ [(L, lab, [])]) acc
      = (L, i + spineLen sp) :: (l, p) :: spineStack i sp0 acc
    ∧ objsF (closeSpine (sp ++ [(L, lab, [])])) i
      = pushChild (spineLen sp0) (i + spineLen sp) (objsF (closeSpine sp) i)
          ++ [mkObj lab []].
Proof.
  induction sp0 as [|[[l0 txt0] kids0] sp0 IH]; intros i acc; cbv zeta.
  - cbn [app spineStack]. change (spineLen []) with 0.
    change (spineLen [(l, txt, kids)]) with (S (list_sum (map size kids)) + 0).
    rewrite !Nat.add_0_r.
    replace (i + S (list_sum (map size kids)))
      with (S i + list_sum (map size kids)) by lia.
    split; [done|]. split; [done|].
    cbn [closeSpine app objsF]. rewrite !app_nil_r, !objs_node.
    rewrite childIds_app, objsF_app. unfold pushChild.
    cbn [alter list_alter otext ochildren childIds objsF app].
    rewrite objs_node. cbn [childIds objsF app]. done.
  - cbn [app spineStack].
    destruct (IH (S i + list_sum (map size kids0)) ((l0, i) :: acc))
      as (E1 & E2 & E3).
    cbv zeta in E1, E2, E3.
    change (spineLen ((l0, txt0, kids0) :: sp0))
      with (S (list_sum (map size kids0)) + spineLen sp0).
    change (spineLen ((l0, txt0, kids0) :: sp0 ++ [(l, txt, kids)]))
      with (S (list_sum (map size kids0)) + spineLen (sp0 ++ [(l, txt, kids)])).
    replace (i + (S (list_sum (map size kids0)) + spineLen sp0))
      with (S i + list_sum (map size kids0) + spineLen sp0) by lia.
    replace (i + (S (list_sum (map size kids0))
                  + spineLen (sp0 ++ [(l, txt, kids)])))
      with (S i + list_sum (map size kids0)
            + spineLen (sp0 ++ [(l, txt, kids)])) by lia.
    split; [done|]. split; [done|].
    cbn [closeSpine app objsF]. rewrite !app_nil_r, !objs_node.
    rewrite !objsF_app, !childIds_app.
    rewrite E3. unfold pushChild.
    rewrite !childIds_closeSpine by (by destruct sp0).
    change (S (list_sum (map size kids0)) + spineLen sp0)
      with (S (list_sum (map size kids0) + spineLen sp0)).
    match goal with
    | |- context [alter ?f (S ?n) (?x :: ?l)] =>
      change (alter f (S n) (x :: l)) with (x :: alter f n l)
    end.
    replace (list_sum (map size kids0) + spineLen sp0)
      with (length (objsF kids0 (S i)) + spineLen sp0)
      by (by rewrite objsF_length).
    rewrite alter_app_r. cbn [app]. by rewrite <- (assoc_L app).
Qed.

(** One line of the input: the nodes at its level or deeper are closed,
    and its node is opened below the node that is left. *)
Lemma parseStep_spine (indentSize : nat) (s : Store * list (Z * nat))
    (raw : str) :
  spineInv s → spineInv (parseStep indentSize s raw).
Proof.
  destruct s as [st stack]. intros (kids0 & deeper & Est & Estack).
  cbn [fst snd] in *. set (sp := ((-1)%Z, ROOT_TEXT, kids0) :: deeper) in *.
  set (L := Z.of_nat (countLeadingSpaces raw / indentSize)).
  destruct (spine_split L sp) as (sp0 & [[l txt] kids] & popped & Esp & Hl & Hp).
  { apply Exists_cons. left. cbn. lia. }
  cbn [fst snd] in Hl.
  destruct (spine_push sp0 l txt kids L (trim raw) 0 []) as (Ek & _ & _).
  destruct (spine_push sp0 l txt (kids ++ closeSpine popped) L (trim raw) 0 [])
    as (_ & Estk & Eobj).
  cbv zeta in Ek, Estk, Eobj. rewrite !Nat.add_0_l in *.
  set (sp1 := sp0 ++ [(l, txt, kids ++ closeSpine popped)]) in *.
  assert (st = objsF (closeSpine sp1) 0) as Est1.
  { rewrite Est, Esp. apply f_equal2; [|done]. apply closeSpine_merge. }
  assert (length st = spineLen sp1) as Elen.
  { rewrite Est1. apply closeSpine_length. }
  assert (spineLen sp0 < length st) as Hplt.
  { rewrite Elen. unfold sp1, spineLen. rewrite map_app, list_sum_app.
    cbn [map]. 
    match goal with |- context [list_sum [?x]] =>
      change (list_sum [x]) with (x + 0) end.
    lia. }
  assert (popWhile L stack = (l, spineLen sp0) :: spineStack 0 sp0 []) as Epop.
  { rewrite Estack, Esp, (assoc_L app), spineStack_app, Ek.
    destruct (spineStack_levels (λ z, (L ≤ z)%Z) popped Hp
                (0 + spineLen (sp0 ++ [(l, txt, kids)]))
                ((l, spineLen sp0) :: spineStack 0 sp0 []))
      as (extra & -> & Hex).
    by apply popWhile_extra. }
  unfold parseStep. fold L. cbv zeta. rewrite Epop.
  assert (∃ kids' deeper',
            sp1 ++ [(L, trim raw, [])] = ((-1)%Z, ROOT_TEXT, kids') :: deeper')
    as (kids' & deeper' & Enew).
  { unfold sp1. destruct sp0 as [|e0 sp0'].
    - cbn [app] in Esp. unfold sp in Esp. injection Esp as -> -> -> _.
      by eexists _, _.
    - cbn [app] in Esp. unfold sp in Esp. injection Esp as <- _.
      by eexists _, _. }
  exists kids', deeper'. rewrite <- Enew. cbn [fst snd]. split.
  - rewrite Eobj, <- Elen, <- Est1. unfold pushChild.
    by rewrite alter_app_l.
  - by rewrite Estk, <- Elen.
Qed.

Lemma parseState_spine (input : str) (indentSize : nat) :
  spineInv (parseState input indentSize).
Proof.
  unfold parseState.
  assert (spineInv ([mkObj ROOT_TEXT []], [((-1)%Z, 0)])) as H0.
  { by exists [], []. }
  revert H0. generalize ([mkObj ROOT_TEXT []], [((-1)%Z, 0)]).
  induction (parseLines input indentSize) as [|l ls IH]; intros s Hs; [done|].
  rewrite foldl_step. by apply IH, parseStep_spine.
Qed.

Lemma pushChild_texts (p c : nat) (st : Store) :
  map otext (pushChild p c st) = map otext st.
Proof.
  unfold pushChild. revert p. induction st as [|o st IH]; intros p; [done|].
  destruct p as [|p]; [done|].
  change (alter ?f (S p) (o :: st)) with (o :: alter f p st).
  cbn [map]. by rewrite IH.
Qed.

Lemma parse_texts (indentSize : nat) (lines : list str) :
  ∀ s, map otext (foldl (parseStep indentSize) s lines).1
       = map otext s.1 ++ map trim lines.
Proof.
  induction lines as [|l ls IH]; intros s.
  - cbn. by rewrite app_nil_r.
  - rewrite foldl_step, IH. destruct s as [st stack]. unfold parseStep.
    cbn [fst snd map]. rewrite pushChild_texts, map_app. cbn [map otext].
    by rewrite <- (assoc_L app).
Qed.

(** The labels of the parsed forest, in preorder, are the trimmed lines
    that the loop visits. *)
Lemma parse_labels_preorder (input : str) (indentSize : nat) :
  ∃ roots,
    parseIndentedTree input indentSize = Some roots
    ∧ map text (nodes_of roots) = map trim (parseLines input indentSize).
Proof.
  destruct (parseState_spine input indentSize)
    as (kids & deeper & Est & _).
  set (roots := kids ++ closeSpine deeper) in *.
  cbn [closeSpine objsF] in Est. fold roots in Est.
  rewrite app_nil_r in Est. exists roots.
  pose proof (objs_reads (parseState input indentSize).1
                (mkNode ROOT_TEXT roots) [] []) as Hr.
  cbn [app length] in Hr. rewrite app_nil_r in Hr. specialize (Hr Est).
  apply reads_node in Hr as (o & E0 & Et & Hc).
  split.
  - apply (parse_from_store _ _ _ (ochildren o)).
    + rewrite E0. destruct o as [t c]. cbn in Et. by rewrite Et.
    + eapply Forall2_impl; [exact Hc|]. by intros c j [_ ?].
  - pose proof (parse_texts indentSize (parseLines input indentSize)
                  ([mkObj ROOT_TEXT []], [((-1)%Z, 0)])) as Ht.
    fold (parseState input indentSize) in Ht. rewrite Est, objs_node in Ht.
    cbn [map fst otext app] in Ht. injection Ht as Ht.
    by rewrite objsF_texts in Ht.
Qed.

(** X18.  The parser keeps every non-blank line, in order: for every
    input and every positive indent size the labels of the nodes of the
    parsed forest, in preorder, are the non-blank lines of the input
    (tabs expanded) without the white space at their ends; so the forest
    has one node for each such line. *)
Theorem parse_preorder (input : str) (indentSize : nat) :
  0 < indentSize →
  ∃ roots,
    parseIndentedTree input indentSize = Some roots
    ∧ map text (nodes_of roots) = map trim (parseLines input indentSize)
    ∧ length (nodes_of roots) = length (parseLines input indentSize).
Proof.
  intros _. destruct (parse_labels_preorder input indentSize)
    as (roots & E & Hl).
  exists roots. split; [done|]. split; [done|].
  by rewrite <- (length_map text), Hl, length_map.
Qed.

Lemma parse_preorder_witness :
  ∃ roots,
    parseIndentedTree sampleInput 2 = Some roots
    ∧ map text (nodes_of roots) = map trim (parseLines sampleInput 2)
    ∧ length (nodes_of roots) = length (parseLines sampleInput 2).
Proof. apply (parse_preorder sampleInput 2). lia. Defined.

(** ** The title of a history entry *)

Lemma splitLines_nonempty (s : str) : splitLines s ≠ [].
Proof.
  destruct s as [|c r]; [done|]. cbn [splitLines].
  destruct (c =? NL)%N; [done|]. destruct r as [|d r']; [done|].
  destruct (_ && _); [done|]. by destruct (splitLines (d :: r')).
Qed.

(** The lines of [split(/\r?\n/)] are those of [split("\n")], each
    without the carriage return at its end, if any. *)
Lemma splitLines_split (s : str) :
  Forall2 (λ a b, b = a ∨ b = a ++ [CR]) (splitLines s) (split NL s).
Proof.
  remember (length s) as n eqn:Hn. revert s Hn.
  induction n as [n IH] using lt_wf_ind. intros s ->.
  destruct s as [|c r]; [by repeat constructor|].
  cbn [splitLines split]. destruct (N.eqb_spec c NL) as [->|Hc].
  { constructor; [by left|]. eapply IH; [|done]. cbn. lia. }
  destruct r as [|d r'].
  { cbn [split]. by repeat constructor. }
  destruct ((c =? CR)%N && (d =? NL)%N) eqn:E.
  - apply andb_true_iff in E as [->%N.eqb_eq ->%N.eqb_eq].
    cbn [split]. change (NL =? NL)%N with true. cbv iota.
    constructor; [by right|]. eapply IH; [|done]. cbn. lia.
  - pose proof (IH (length (d :: r')) ltac:(cbn; lia) (d :: r') eq_refl) as H.
    destruct (splitLines (d :: r')) as [|a la] eqn:Ea;
      [by apply splitLines_nonempty in Ea|].
    destruct (split NL (d :: r')) as [|b lb] eqn:Eb;
      [by apply split_nonempty in Eb|].
    apply Forall2_cons in H as [[->| ->] H]; constructor; auto.
Qed.

Lemma trimmed_titles (text : str) :
  map trim (splitLines text) = map trim (split NL text).
Proof.
  pose proof (splitLines_split text) as H.
  induction H as [|a b la lb [->| ->] _ IH]; [done| |]; cbn [map].
  - by rewrite IH.
  - by rewrite IH, trim_snoc_space.
Qed.

(** X19.  The title is never empty, is one line and has no white space
    at its ends: it is the first non-blank line of the text, trimmed,
    and the fallback text when every line is blank. *)
Theorem title_wellformed (text : str) :
  deriveTitleFromInput text ≠ []
  ∧ (NL ∉ deriveTitleFromInput text)
  ∧ trim (deriveTitleFromInput text) = deriveTitleFromInput text
  ∧ (trim text = [] → deriveTitleFromInput text = EMPTY_TITLE).
Proof.
  unfold deriveTitleFromInput. rewrite trimmed_titles.
  destruct (filter _ (map trim (split NL text))) as [|l ls] eqn:E.
  { split; [done|]. split; [|done]. vm_compute. intros H.
    by repeat (apply elem_of_cons in H as [H|H]; [done|]);
      apply elem_of_nil in H. }
  assert (l ∈ filter (λ l, (0 <? length l) = true) (map trim (split NL text)))
    as Hin by (rewrite E; by left).
  apply list_elem_of_filter in Hin as [Hlen Hin].
  apply list_elem_of_fmap in Hin as (l0 & -> & Hin).
  split; [by destruct (trim l0)|]. split; [|split; [apply trim_idem|]].
  - intros H%trim_sublist.
    pose proof (split_no_sep NL text) as Hs. rewrite Forall_forall in Hs.
    by apply (Hs l0).
  - intros Hblank. exfalso.
    assert (trim l0 ≠ []) as Hne by (by destruct (trim l0)).
    apply trim_nonblank in Hne as (c & Hc & Hs).
    assert (trim text ≠ []) as Hne'; [|done].
    apply trim_nonblank. exists c. split; [|done].
    by eapply split_elem.
Qed.

Lemma filter_map_trim (ls : list str) :
  map trim (filter (λ l, (0 <? length (trim l)) = true) (map trimEnd ls))
  = filter (λ l, (0 <? length l) = true) (map trim ls).
Proof.
  induction ls as [|l ls IH]; [done|]. cbn [map].
  rewrite !filter_cons, trim_trimEnd.
  destruct (decide ((0 <? length (trim l)) = true)).
  - cbn [map]. by rewrite trim_trimEnd, IH.
  - exact IH.
Qed.

Lemma nodes_of_head (r : Node) (rest : list Node) :
  ∃ tl, nodes_of (r :: rest) = r :: tl.
Proof. unfold nodes_of. cbn [flat_map]. destruct r. by eexists. Qed.

(** X20.  The title of a text without tabs is the label of the first
    root of its tree, and the fallback text when the tree is empty. *)
Theorem title_is_first_root (input : str) (indentSize : nat)
    (roots : list Node) :
  0 < indentSize → TAB ∉ input →
  parseIndentedTree input indentSize = Some roots →
  deriveTitleFromInput input
  = match roots with r :: _ => text r | [] => EMPTY_TITLE end.
Proof.
  intros Hpos Htab Hparse.
  destruct (parse_labels_preorder input indentSize) as (roots' & E & Hlab).
  rewrite Hparse in E. injection E as <-.
  unfold parseLines in Hlab. rewrite expandTabs_id in Hlab by done.
  rewrite filter_map_trim in Hlab.
  unfold deriveTitleFromInput. rewrite trimmed_titles, <- Hlab.
  destruct roots as [|r rest]; [done|].
  destruct (nodes_of_head r rest) as [tl ->]. done.
Qed.

Lemma title_is_first_root_witness :
  deriveTitleFromInput (js "\r\n  Plan \r\n    step")
  = match [mkNode (js "Plan") [leaf "step"]] with
    | r :: _ => text r
    | [] => EMPTY_TITLE
    end.
Proof.
  apply (title_is_first_root (js "\r\n  Plan \r\n    step") 2).
  - lia.
  - vm_compute. intros H.
    by repeat (apply elem_of_cons in H as [H|H]; [done|]);
      apply elem_of_nil in H.
  - reflexivity.
Defined.

(** ** The history *)

(** What is stored: the new or updated entry, then entries of the old
    history, in their order, none with the new text. *)
Lemma pushToHistory_shape (now : num) (newId : str)
    (current : list HistoryEntry) (text : str) (next : list HistoryEntry) :
  pushToHistory now newId current text = Some next →
  trim text ≠ [] ∧ text ≠ DEFAULT_INPUT
  ∧ ∃ e l,
      next = e :: take 49 (filter (λ x, etext x ≠ text) l)
      ∧ etext e = text ∧ etitle e = deriveTitleFromInput text ∧ ets e = now
      ∧ ((l = current ∧ eid e = newId ∧ ecreatedTs e = now
          ∧ ∀ i x, list_find (λ x, etitle x = deriveTitleFromInput text)
                             current = Some (i, x) →
                   nlt (nsub now (ecreatedTs x)) HOUR_MS = false)
         ∨ ∃ i x, list_find (λ x, etitle x = deriveTitleFromInput text)
                            current = Some (i, x)
                  ∧ nlt (nsub now (ecreatedTs x)) HOUR_MS = true
                  ∧ l = delete i current
                  ∧ eid e = eid x ∧ ecreatedTs e = ecreatedTs x).
Proof.
  unfold pushToHistory. cbv zeta.
  destruct (Nat.eqb_spec (length (trim text)) 0) as [|Hlen]; [done|].
  destruct (bool_decide_reflect (text = DEFAULT_INPUT)) as [|Hdef]; [done|].
  intros H. split; [by destruct (trim text)|]. split; [done|].
  set (title := deriveTitleFromInput text) in *.
  assert (∀ (l : list HistoryEntry) e,
            take HISTORY_MAX (e :: l) = e :: take 49 l) as Htake by done.
  destruct (match current !! 0 with
            | Some last => bool_decide (etext last = text)
            | None => false
            end); [done|].
  rename H into H'.
  destruct (list_find _ current) as [[i x]|] eqn:Ef.
  - destruct (bool_decide (etext x = text)); [done|].
    destruct (nlt (nsub now (ecreatedTs x)) HOUR_MS) eqn:Eage.
    + rewrite Htake in H'. injection H' as <-. eexists _, _. split; [done|].
      split; [done|]. split; [done|]. split; [done|]. right.
      by exists i, x.
    + rewrite Htake in H'. injection H' as <-. eexists _, _. split; [done|].
      split; [done|]. split; [done|]. split; [done|]. left.
      split; [done|]. split; [done|]. split; [done|].
      intros i' x' [= <- <-]. done.
  - rewrite Htake in H'. injection H' as <-. eexists _, _. split; [done|].
    split; [done|]. split; [done|]. split; [done|]. left.
    split; [done|]. split; [done|]. split; [done|]. by intros i' x'.
Qed.

Lemma history_rest_sublist (text : str) (l current : list HistoryEntry) :
  l `sublist_of` current →
  take 49 (filter (λ x, etext x ≠ text) l) `sublist_of` current
  ∧ Forall (λ x, etext x ≠ text) (take 49 (filter (λ x, etext x ≠ text) l)).
Proof.
  intros Hl. split.
  - etrans; [apply sublist_take|]. etrans; [apply sublist_filter|]. done.
  - apply Forall_take, Forall_forall. by intros x [? _]%list_elem_of_filter.
Qed.

(** X21.  What [pushToHistory] stores: never a blank text and never the
    default template; when it stores, the history holds at most 50
    entries, the first one carries the new text, its title and the
    current time, and the others are entries of the old history, in
    their old order, none of them with the new text. *)
Theorem pushToHistory_stores (now : num) (newId : str)
    (current : list HistoryEntry) (text : str) (next : list HistoryEntry) :
  pushToHistory now newId current text = Some next →
  trim text ≠ [] ∧ text ≠ DEFAULT_INPUT
  ∧ length next ≤ HISTORY_MAX
  ∧ ∃ e rest,
      next = e :: rest
      ∧ etext e = text ∧ etitle e = deriveTitleFromInput text ∧ ets e = now
      ∧ rest `sublist_of` current
      ∧ Forall (λ x, etext x ≠ text) rest.
Proof.
  intros H. destruct (pushToHistory_shape _ _ _ _ _ H)
    as (Hne & Hdef & e & l & -> & Et & Eti & Ets & Hcase).
  split; [done|]. split; [done|]. split.
  { cbn [length]. rewrite length_take. unfold HISTORY_MAX. lia. }
  exists e, (take 49 (filter (λ x, etext x ≠ text) l)).
  split; [done|]. split; [done|]. split; [done|]. split; [done|].
  apply history_rest_sublist.
  destruct Hcase as [(-> & _)|(i & x & _ & _ & -> & _)]; [done|].
  apply sublist_delete.
Qed.

Lemma pushToHistory_stores_witness :
  let old := mkEntry (js "1") (Fin 0) (Fin 0) (js "A") (js "A\n  b") in
  trim (js "A\n  c") ≠ [] ∧ js "A\n  c" ≠ DEFAULT_INPUT
  ∧ length [mkEntry (js "1") (Fin 0) (Fin 5) (js "A") (js "A\n  c")]
    ≤ HISTORY_MAX
  ∧ ∃ e rest,
      [mkEntry (js "1") (Fin 0) (Fin 5) (js "A") (js "A\n  c")] = e :: rest
      ∧ etext e = js "A\n  c"
      ∧ etitle e = deriveTitleFromInput (js "A\n  c") ∧ ets e = Fin 5
      ∧ rest `sublist_of` [old]
      ∧ Forall (λ x, etext x ≠ js "A\n  c") rest.
Proof.
  apply (pushToHistory_stores (Fin 5) (js "2")
           [mkEntry (js "1") (Fin 0) (Fin 0) (js "A") (js "A\n  b")]
           (js "A\n  c")).
  by vm_compute.
Defined.

(** X22.  The texts of the history stay distinct: if no two entries of
    the stored history have the same text, this also holds of the
    history that [pushToHistory] stores. *)
Theorem pushToHistory_distinct (now : num) (newId : str)
    (current : list HistoryEntry) (text : str) (next : list HistoryEntry) :
  NoDup (etext <$> current) →
  pushToHistory now newId current text = Some next →
  NoDup (etext <$> next).
Proof.
  intros Hnd H. destruct (pushToHistory_shape _ _ _ _ _ H)
    as (_ & _ & e & l & -> & Et & _ & _ & Hcase).
  destruct (history_rest_sublist text l current) as [Hsub Hall].
  { destruct Hcase as [(-> & _)|(i & x & _ & _ & -> & _)]; [done|].
    apply sublist_delete. }
  rewrite fmap_cons. apply NoDup_cons. split.
  - rewrite Et. intros (x & Ex & Hin)%list_elem_of_fmap.
    rewrite Forall_forall in Hall. by apply (Hall x Hin).
  - apply (sublist_NoDup _ (etext <$> current)); [done|].
    by apply fmap_sublist.
Qed.

Lemma pushToHistory_distinct_witness :
  NoDup (etext <$> [mkEntry (js "1") (Fin 0) (Fin 5) (js "A") (js "A\n  c")]).
Proof.
  apply (pushToHistory_distinct (Fin 5) (js "2")
           [mkEntry (js "1") (Fin 0) (Fin 0) (js "A") (js "A\n  b")]
           (js "A\n  c")).
  - apply NoDup_singleton.
  - by vm_compute.
Defined.

(** X23.  The one-hour rule: when the first entry with the title of the
    new text was created less than an hour before, the stored history
    starts with that entry, updated (same id, same creation time), and
    is not longer than the old one; otherwise it starts with a new
    entry that has the new id and is created now. *)
Theorem pushToHistory_one_hour (now : num) (newId : str)
    (current : list HistoryEntry) (text : str) (e : HistoryEntry)
    (rest : list HistoryEntry) :
  pushToHistory now newId current text = Some (e :: rest) →
  match list_find (λ x, etitle x = deriveTitleFromInput text) current with
  | Some (i, x) =>
    if nlt (nsub now (ecreatedTs x)) HOUR_MS
    then eid e = eid x ∧ ecreatedTs e = ecreatedTs x
         ∧ length (e :: rest) ≤ length current
    else eid e = newId ∧ ecreatedTs e = now
  | None => eid e = newId ∧ ecreatedTs e = now
  end.
Proof.
  intros H. destruct (pushToHistory_shape _ _ _ _ _ H)
    as (_ & _ & e' & l & [= <- ->] & _ & _ & _ & Hcase).
  destruct Hcase as [(-> & ? & ? & Hold)|(i & x & Hf & Hage & -> & ? & ?)].
  - destruct (list_find _ current) as [[i x]|]; [|done].
    by rewrite (Hold i x eq_refl).
  - rewrite Hf, Hage. split; [done|]. split; [done|]. cbn [length].
    pose proof Hf as (Hi & _)%list_find_Some.
    pose proof (length_delete current i (mk_is_Some _ _ Hi)) as Hd.
    pose proof (length_filter (λ x0, etext x0 ≠ text) (delete i current)).
    apply lookup_lt_Some in Hi. rewrite length_take. lia.
Qed.

Lemma pushToHistory_one_hour_witness :
  let old := mkEntry (js "1") (Fin 0) (Fin 0) (js "A") (js "A\n  b") in
  match list_find (λ x, etitle x = deriveTitleFromInput (js "A\n  c")) [old]
  with
  | Some (i, x) =>
    if nlt (nsub (Fin 5) (ecreatedTs x)) HOUR_MS
    then eid (mkEntry (js "1") (Fin 0) (Fin 5) (js "A") (js "A\n  c")) = eid x
         ∧ ecreatedTs (mkEntry (js "1") (Fin 0) (Fin 5) (js "A") (js "A\n  c"))
           = ecreatedTs x
         ∧ length [mkEntry (js "1") (Fin 0) (Fin 5) (js "A") (js "A\n  c")]
           ≤ length [old]
    else eid (mkEntry (js "1") (Fin 0) (Fin 5) (js "A") (js "A\n  c")) = js "2"
         ∧ ecreatedTs (mkEntry (js "1") (Fin 0) (Fin 5) (js "A") (js "A\n  c"))
           = Fin 5
  | None => eid (mkEntry (js "1") (Fin 0) (Fin 5) (js "A") (js "A\n  c"))
            = js "2"
            ∧ ecreatedTs (mkEntry (js "1") (Fin 0) (Fin 5) (js "A")
                                  (js "A\n  c")) = Fin 5
  end.
Proof.
  apply (pushToHistory_one_hour (Fin 5) (js "2")
           [mkEntry (js "1") (Fin 0) (Fin 0) (js "A") (js "A\n  b")]
           (js "A\n  c") _ []).
  by vm_compute.
Defined.

(** ** The zoom *)

Lemma clamp_zoom (v : num) :
  v ≠ NaN → zoomOk (clamp v ZOOM_MIN ZOOM_MAX).
Proof.
  intros Hv. unfold clamp, ZOOM_MIN, ZOOM_MAX, zoomOk.
  destruct v as [x| | |]; [| | |done].
  - rewrite nmin_Fin, nmax_Fin.
    destruct (Qlt_le_dec x 5), (Qlt_le_dec (4 # 10) _); eexists;
      (split; [done|]); lra.
  - cbn. exists 5%Q. split; [done|lra].
  - cbn. exists (4 # 10)%Q. split; [done|lra].
Qed.

Lemma toFixedNumber_fin (digits : nat) (x : Q) :
  ∃ y, toFixedNumber digits (Fin x) = Fin y.
Proof.
  unfold toFixedNumber. destruct (Qle_bool _ _); by eexists.
Qed.

(** X24.  The two zoom buttons keep the zoom within its bounds: from any
    finite zoom factor, zooming in and zooming out each give a factor
    between 0.4 and 5. *)
Theorem zoom_buttons_in_bounds (q : Q) :
  zoomOk (zoomIn (Fin q)) ∧ zoomOk (zoomOut (Fin q)).
Proof.
  split.
  - unfold zoomIn. cbn [nmul].
    destruct (toFixedNumber_fin 3 (q * (115 # 100))) as [y ->].
    by apply clamp_zoom.
  - unfold zoomOut. cbn [ndiv]. change (Qeq_bool (115 # 100) 0) with false.
    cbv iota. destruct (toFixedNumber_fin 3 (q / (115 # 100))) as [y ->].
    by apply clamp_zoom.
Qed.

(** X25.  The wheel keeps the zoom within its bounds: from any finite
    zoom factor, a wheel movement that is a number, however large, gives
    a factor between 0.4 and 5. *)
Theorem zoom_wheel_in_bounds (q : Q) (deltaY : num) :
  deltaY ≠ NaN → zoomOk (onGraphWheel deltaY (Fin q)).
Proof.
  intros Hdy. unfold onGraphWheel. cbv zeta.
  assert (∃ i, nmin (Fin 1) (ndiv (nabs deltaY) (Fin 60)) = Fin i)
    as [i ->].
  { destruct deltaY as [d| | |]; [| | |done]; cbn [nabs ndiv].
    - change (Qeq_bool 60 0) with false. cbv iota. rewrite nmin_Fin.
      by eexists.
    - by exists 1%Q.
    - by exists 1%Q. }
  cbn [nmul nadd nsub nneg].
  destruct (nlt (Fin 0) deltaY); cbn [nmul nadd];
    match goal with
    | |- context [toFixedNumber 4 (Fin ?v)] =>
      destruct (toFixedNumber_fin 4 v) as [y ->]
    end; by apply clamp_zoom.
Qed.

Lemma zoom_wheel_in_bounds_witness :
  PInf ≠ NaN ∧ zoomOk (onGraphWheel PInf (Fin 5)).
Proof.
  split; [done|]. by apply (zoom_wheel_in_bounds 5 PInf).
Defined.

(** ** The frame of the exported image *)

Lemma elem_flat_pair (g h : PositionedNode → num) (P : list PositionedNode)
    (p : PositionedNode) :
  p ∈ P → g p ∈ flat_map (λ p, [g p; h p]) P
          ∧ h p ∈ flat_map (λ p, [g p; h p]) P.
Proof.
  intros Hp%list_elem_of_In.
  split; apply list_elem_of_In, in_flat_map; exists p; (split; [done|]);
    cbn; auto.
Qed.

Lemma fin_flat_pair (g h : PositionedNode → num) (P : list PositionedNode) :
  Forall (λ p, fin_num (g p) ∧ fin_num (h p)) P →
  Forall fin_num (flat_map (λ p, [g p; h p]) P).
Proof.
  induction 1 as [|p P [Hg Hh] _ IH]; [constructor|].
  cbn [flat_map app]. by repeat constructor.
Qed.

Lemma frame_axis (g h : PositionedNode → num) (P : list PositionedNode) :
  P ≠ [] → Forall (λ p, fin_num (g p) ∧ fin_num (h p)) P →
  ∃ X W : Z,
    nfloor (nsub (nminl (flat_map (λ p, [g p; h p]) P)) PAD)
    = Fin (inject_Z X)
    ∧ nceil (nadd (nsub (nmaxl (flat_map (λ p, [g p; h p]) P))
                        (nminl (flat_map (λ p, [g p; h p]) P)))
                  (nmul PAD (Fin 2)))
      = Fin (inject_Z W)
    ∧ ∀ p, p ∈ P → ∃ a b, g p = Fin a ∧ h p = Fin b
        ∧ (inject_Z X + 32 <= a ∧ a + 31 < inject_Z X + inject_Z W
           ∧ inject_Z X + 32 <= b ∧ b + 31 < inject_Z X + inject_Z W)%Q.
Proof.
  intros Hne HP. set (xs := flat_map _ P).
  assert (xs ≠ []) as Hxs.
  { destruct P as [|p P]; [done|]. done. }
  pose proof (fin_flat_pair g h P HP) as Hfin. fold xs in Hfin.
  destruct (nminl_spec xs Hxs Hfin) as (m & -> & _ & Hm).
  destruct (nmaxl_spec xs Hxs Hfin) as (M & -> & HM).
  unfold PAD. cbn [nsub nneg nadd nmul nfloor nceil].
  eexists _, _. split; [done|]. split; [done|].
  intros p Hp. destruct (elem_flat_pair g h P p Hp) as [Hg Hh].
  fold xs in Hg, Hh.
  apply Forall_forall with (x := p) in HP as [[a Ea] [b Eb]]; [|done].
  rewrite Ea in Hg. rewrite Eb in Hh. exists a, b.
  split; [done|]. split; [done|].
  pose proof (Hm a Hg). pose proof (Hm b Hh).
  pose proof (HM a Hg). pose proof (HM b Hh).
  pose proof (Qfloor_le (m + Qopp 32)) as Hf1.
  pose proof (Qlt_floor (m + Qopp 32)) as Hf2.
  rewrite inject_Z_plus in Hf2. change (inject_Z 1) with 1%Q in Hf2.
  pose proof (Qle_ceiling (M + - m + 32 * 2)) as Hc.
  lra.
Qed.

(** X26.  The exported image shows every node whole: for a drawing with
    at least one node, all boxes finite, the frame has whole-number
    position and size, and both edges of every node, in each direction,
    lie inside it with at least 32 free units before them and more than
    31 after them. *)
Theorem crop_frames_nodes (P : list PositionedNode) :
  P ≠ [] → Forall finP P →
  ∃ X Y W H : Z,
    cropBox P = Some (Fin (inject_Z X), Fin (inject_Z Y),
                      Fin (inject_Z W), Fin (inject_Z H))
    ∧ ∀ p, p ∈ P → inFrame X Y W H p.
Proof.
  intros Hne HP.
  destruct (frame_axis px (λ p, nadd (px p) (pw p)) P Hne)
    as (X & W & EX & EW & HX).
  { eapply Forall_impl; [exact HP|]. intros p ([x ->] & _ & [w ->] & _).
    split; by eexists. }
  destruct (frame_axis py (λ p, nadd (py p) (ph p)) P Hne)
    as (Y & H & EY & EH & HY).
  { eapply Forall_impl; [exact HP|]. intros p (_ & [y ->] & _ & [h ->]).
    split; by eexists. }
  exists X, Y, W, H. split.
  - unfold cropBox. destruct P as [|p0 P0]; [done|]. cbv zeta.
    by rewrite EX, EW, EY, EH.
  - intros p Hp.
    destruct (HX p Hp) as (x & xr & Ex & Exr & Hx).
    destruct (HY p Hp) as (y & yb & Ey & Eyb & Hy).
    apply Forall_forall with (x := p) in HP as (_ & _ & [w Ew] & [h Eh]);
      [|done].
    exists x, y, w, h. rewrite Ex, Ew in Exr. rewrite Ey, Eh in Eyb.
    cbn [nadd] in Exr, Eyb. injection Exr as <-. injection Eyb as <-.
    split; [done|]. split; [done|]. split; [done|]. split; [done|]. lra.
Qed.

Lemma crop_frames_nodes_witness :
  let P := [ mkPos (mkFlat 0 [] 0 None [1]) (Fin 20) (Fin 30) (Fin (2495 # 10))
                   (Fin 52) [[]];
             mkPos (mkFlat 1 [] 1 (Some 0) []) (Fin (905 # 10)) (Fin 132)
                   (Fin 220) (Fin 52) [[]] ] in
  P ≠ [] ∧ Forall finP P
  ∧ ∃ X Y W H : Z,
      cropBox P = Some (Fin (inject_Z X), Fin (inject_Z Y),
                        Fin (inject_Z W), Fin (inject_Z H))
      ∧ ∀ p, p ∈ P → inFrame X Y W H p.
Proof.
  intros P. assert (Forall finP P) as HP.
  { repeat constructor; by eexists. }
  split; [done|]. split; [exact HP|]. by apply (crop_frames_nodes P).
Defined.

(** ** The parent of a line *)

Lemma popWhile_chain (lv : nat → Z) (L : Z) (hi : nat) :
  lv 0 = (-1)%Z → (0 ≤ L)%Z →
  ∀ stk l p rest,
    stk = (l, p) :: rest →
    p < hi → l = lv p → (∀ q, p < q < hi → (L ≤ lv q)%Z) →
    match p with 0 => rest = [] | _ => chain lv p l rest end →
    chain lv hi L (popWhile L stk).
Proof.
  intros H0 HL stk. induction stk as [|[l' p'] stk IH];
    intros l p rest E Hp Hl Hq Hin; [done|].
  injection E as -> -> ->. cbn [popWhile].
  destruct (Z.leb_spec L l) as [Hle|Hlt].
  - destruct p as [|p]; [lia|].
    destruct rest as [|[l2 p2] rest2]; [done|].
    cbn [chain] in Hin. destruct Hin as (Hp2 & Hl2 & El2 & Hq2 & Hin2).
    apply (IH l2 p2 rest2); [done|lia|done| |done].
    intros q Hq'. destruct (decide (q < S p)) as [H1|H1].
    + specialize (Hq2 q). lia.
    + destruct (decide (q = S p)) as [->|H2]; [lia|]. apply Hq. lia.
  - cbn [chain]. by repeat split.
Qed.

Lemma objLevel_sign (indentSize : nat) (lines : list str) (q : nat) :
  objLevel indentSize lines 0 = (-1)%Z
  ∧ (0 < q → (0 ≤ objLevel indentSize lines q)%Z).
Proof.
  split; [done|]. intros Hq. destruct q as [|k]; [lia|]. cbn [objLevel].
  destruct (lines !! k); lia.
Qed.

Lemma parseStep_parent (indentSize : nat) (lines : list str) (n : nat)
    (raw : str) (s : Store * list (Z * nat)) :
  lines !! n = Some raw →
  parentInv (objLevel indentSize lines) n s →
  parentInv (objLevel indentSize lines) (S n) (parseStep indentSize s raw).
Proof.
  intros Hraw (Hlen & (rest & Estk & Hin) & Hpar).
  destruct s as [st stack]. cbn [fst snd] in *. subst stack.
  set (lv := objLevel indentSize lines) in *.
  assert (lv (S n) = Z.of_nat (countLeadingSpaces raw / indentSize)) as EL.
  { unfold lv. cbn [objLevel]. by rewrite Hraw. }
  unfold parseStep. rewrite <- EL.
  pose proof (popWhile_chain lv (lv (S n)) (S n)
                (proj1 (objLevel_sign indentSize lines 0))
                (proj2 (objLevel_sign indentSize lines (S n)) ltac:(lia))
                _ (lv n) n rest eq_refl ltac:(lia) eq_refl
                ltac:(intros; lia) Hin) as Hch.
  destruct (popWhile (lv (S n)) ((lv n, n) :: rest)) as [|[lp p] rest']
    eqn:Epop; [done|].
  pose proof Hch as (Hp & Hlp & Elp & Hq & _).
  rewrite Hlen. split; [|split].
  - cbn [fst]. rewrite pushChild_length, length_app, Hlen. cbn. lia.
  - cbn [snd]. by exists ((lp, p) :: rest').
  - cbn [fst]. intros p0 c Hc Hp0 Hlv Hbetween.
    destruct (decide (c = S n)) as [->|Hne].
    + assert (p0 = p) as ->.
      { destruct (decide (p0 < p)) as [H1|H1].
        - specialize (Hbetween p). lia.
        - destruct (decide (p < p0)) as [H2|H2]; [|lia].
          specialize (Hq p0). lia. }
      destruct (lookup_lt_is_Some_2 (st ++ [mkObj (trim raw) []]) p)
        as [o Ho]; [rewrite length_app, Hlen; cbn; lia|].
      eexists. split; [by apply pushChild_lookup_eq|].
      cbn [ochildren]. apply elem_of_app. right. by left.
    + destruct (Hpar p0 c) as (o & Ho & Hco); [lia|done|done|done|].
      assert ((st ++ [mkObj (trim raw) []]) !! p0 = Some o) as Ho'.
      { rewrite lookup_app_l; [done|]. by eapply lookup_lt_Some. }
      destruct (decide (p = p0)) as [->|Hpp].
      * eexists. split; [by apply pushChild_lookup_eq|].
        cbn [ochildren]. apply elem_of_app. by left.
      * exists o. split; [|done]. by rewrite pushChild_lookup_ne.
Qed.

Lemma parse_parentInv (indentSize : nat) (lines : list str) (n : nat) :
  n ≤ length lines →
  parentInv (objLevel indentSize lines) n
    (foldl (parseStep indentSize) ([mkObj ROOT_TEXT []], [((-1)%Z, 0)])
           (take n lines)).
Proof.
  induction n as [|n IH]; intros Hn.
  - rewrite take_0. cbn [foldl]. split; [done|]. split.
    + by exists [].
    + intros p c Hc Hp. lia.
  - destruct (lookup_lt_is_Some_2 lines n) as [raw Hraw]; [lia|].
    rewrite (take_S_r _ _ _ Hraw), foldl_app. cbn [foldl].
    apply parseStep_parent; [done|]. apply IH. lia.
Qed.

Lemma slist_objs (t : Node) :
  ∀ i d par c,
    map (λ e : FlatNode * Q, mkObj (ftext e.1) (fchildrenIds e.1))
        (slist t i d par c)
    = objs t i.
Proof.
  induction t as [txt cs IH] using Node_ind'. intros i d par c.
  rewrite slist_node, objs_node. cbn [map fst ftext fchildrenIds]. f_equal.
  generalize (S i) (S d) (Some i). revert c.
  induction IH as [|k cs Hk _ IHcs]; intros c j d' par'; [done|].
  cbn [sforest objsF]. by rewrite map_app, Hk, IHcs.
Qed.

Lemma sforest_objs (cs : list Node) :
  ∀ j d par c,
    map (λ e : FlatNode * Q, mkObj (ftext e.1) (fchildrenIds e.1))
        (sforest cs j d par c)
    = objsF cs j.
Proof.
  induction cs as [|k cs IH]; intros j d par c; [done|].
  cbn [sforest objsF]. by rewrite map_app, slist_objs, IH.
Qed.

(** The store after the loop is the forest in preorder, under the
    virtual root. *)
Lemma parse_store (input : str) (indentSize : nat) :
  ∃ roots,
    parseIndentedTree input indentSize = Some roots
    ∧ (parseState input indentSize).1
      = mkObj ROOT_TEXT (childIds roots 1) :: objsF roots 1.
Proof.
  destruct (parseState_spine input indentSize)
    as (kids & deeper & Est & _).
  set (roots := kids ++ closeSpine deeper) in *.
  cbn [closeSpine objsF] in Est. fold roots in Est.
  rewrite app_nil_r, objs_node in Est. exists roots. split; [|done].
  destruct (parse_labels_preorder input indentSize) as (roots' & E & _).
  rewrite E. f_equal.
  pose proof (objs_reads (parseState input indentSize).1
                (mkNode ROOT_TEXT roots) [] []) as Hr.
  cbn [app length] in Hr. rewrite app_nil_r, objs_node in Hr.
  specialize (Hr Est).
  apply reads_node in Hr as (o & E0 & Et & Hc).
  assert (parseIndentedTree input indentSize = Some roots) as E'.
  { apply (parse_from_store _ _ _ (ochildren o)).
    - rewrite E0. destruct o as [t c]. cbn in Et. by rewrite Et.
    - eapply Forall2_impl; [exact Hc|]. by intros c j [_ ?]. }
  rewrite E in E'. by injection E'.
Qed.

(** The parent of a line is the nearest line above it that is less
    indented. *)
Lemma parse_parent (input : str) (indentSize : nat) :
  ∃ roots,
    parseIndentedTree input indentSize = Some roots
    ∧ map ftext (flattenTree roots) = map trim (parseLines input indentSize)
    ∧ (∀ i j li lj,
        parseLines input indentSize !! j = Some lj →
        parseLines input indentSize !! i = Some li →
        j < i →
        lineLevel indentSize lj < lineLevel indentSize li →
        (∀ k lk, j < k < i → parseLines input indentSize !! k = Some lk →
                 lineLevel indentSize li ≤ lineLevel indentSize lk) →
        ∃ nj ni,
          flattenTree roots !! j = Some nj ∧ flattenTree roots !! i = Some ni
          ∧ fparentId ni = Some (fid nj) ∧ fdepth ni = S (fdepth nj))
    ∧ ∀ i li,
        parseLines input indentSize !! i = Some li →
        (∀ k lk, k < i → parseLines input indentSize !! k = Some lk →
                 lineLevel indentSize li ≤ lineLevel indentSize lk) →
        ∃ ni, flattenTree roots !! i = Some ni
              ∧ fparentId ni = None ∧ fdepth ni = 0.
Proof.
  destruct (parse_store input indentSize) as (roots & E & Est).
  exists roots. split; [done|].
  set (lines := parseLines input indentSize) in *.
  assert (map ftext (flattenTree roots) = map trim lines) as Etexts.
  { destruct (parse_labels_preorder input indentSize) as (roots' & E' & Ht).
    rewrite E in E'. injection E' as <-. fold lines in Ht. rewrite <- Ht.
    rewrite (flattenTree_spec roots 0). apply sforest_texts. }
  split; [done|].
  set (lv := objLevel indentSize lines).
  destruct (parse_parentInv indentSize lines (length lines) (le_n _))
    as (_ & _ & Hpar).
  rewrite firstn_all in Hpar. fold lv in Hpar.
  unfold parseState in Est. fold lines in Est. rewrite Est in Hpar.
  split.
  - intros i j li lj Hj Hi Hji Hlev Hbetween.
    destruct (Hpar (S j) (S i)) as (o & Ho & Hco).
    { apply lookup_lt_Some in Hi. lia. }
    { lia. }
    { unfold lv. cbn [objLevel]. rewrite Hj, Hi. lia. }
    { intros [|k] Hq; [lia|]. unfold lv. cbn [objLevel]. rewrite Hi.
      destruct (lookup_lt_is_Some_2 lines k) as [lk Hk].
      { apply lookup_lt_Some in Hi. lia. }
      rewrite Hk. specialize (Hbetween k lk ltac:(lia) Hk). lia. }
    cbn [lookup list_lookup] in Ho.
    change (objsF roots 1 !! j = Some o) in Ho.
    rewrite <- (sforest_objs roots 1 0 None 0) in Ho.
    fold (specList roots) in Ho.
    change (map ?f ?l) with (f <$> l) in Ho. rewrite list_lookup_fmap in Ho.
    destruct (specList roots !! j) as [[nj u]|] eqn:Enj; [|done].
    injection Ho as <-. cbn [ochildren fst] in Hco.
    pose proof (list_elem_of_lookup_2 _ _ _ Enj) as Hin.
    pose proof (specList_ids roots _ _ _ Enj) as Eid.
    destruct (linksIn_specList roots nj u Hin) as [_ Hkids].
    destruct (Hkids (S i) Hco) as (q & u' & Hq & Eq & Epar).
    destruct (linksIn_specList roots q u' Hq) as [[(_ & En & _)|Hm] _].
    { rewrite En in Epar. done. }
    destruct Hm as (m & u'' & Hm & Epm & _ & Ed & _).
    rewrite Epar in Epm. injection Epm as Emid.
    destruct (flat_lookup_id roots m u'' Hm) as [Lm _].
    destruct (flat_lookup_id roots nj u Hin) as [Lnj _].
    destruct (flat_lookup_id roots q u' Hq) as [Lq _].
    rewrite <- Emid, Lnj in Lm. injection Lm as <-.
    exists nj, q. rewrite Eid in Lnj. rewrite Eq in Lq.
    replace (S j - 1) with j in Lnj by lia.
    replace (S i - 1) with i in Lq by lia.
    by repeat split.
  - intros i li Hi Hbefore.
    destruct (Hpar 0 (S i)) as (o & Ho & Hco).
    { apply lookup_lt_Some in Hi. lia. }
    { lia. }
    { unfold lv. cbn [objLevel]. rewrite Hi. lia. }
    { intros [|k] Hq; [lia|]. unfold lv. cbn [objLevel]. rewrite Hi.
      destruct (lookup_lt_is_Some_2 lines k) as [lk Hk].
      { apply lookup_lt_Some in Hi. lia. }
      rewrite Hk. specialize (Hbefore k lk ltac:(lia) Hk). lia. }
    injection Ho as <-. cbn [ochildren] in Hco.
    destruct (forest_heads_par roots 1 0 None 0 (S i) Hco)
      as (q & u & Hq & Eq & Epar & Ed).
    destruct (flat_lookup_id roots q u Hq) as [Lq _].
    rewrite Eq in Lq. replace (S i - 1) with i in Lq by lia.
    by exists q.
Qed.

(** C7.  The input of scenario 2 parses to [A] with the single child [B].
    In general, for every input and every positive indent size, the
    nodes of the parsed forest are, in preorder, the non-blank lines of
    the input, so no node is created for a level that was skipped.  A
    line whose level is more than one above the level of its nearest
    remaining ancestor (the nearest line above it that is less indented:
    the entry that the popping leaves on top of the stack) is a direct
    child of the node of that line, at the depth of that node plus one;
    and when no line above it is less indented, so that only the virtual
    root remains, it is a root whatever its level. *)
Theorem parse_clamps_depth :
  parseIndentedTree (js "A\n    B") 2 = Some [mkNode (js "A") [leaf "B"]]
  ∧ ∀ (input : str) (indentSize : nat),
      0 < indentSize →
      ∃ roots,
        parseIndentedTree input indentSize = Some roots
        ∧ map ftext (flattenTree roots)
          = map trim (parseLines input indentSize)
        ∧ (∀ i j li lj,
            parseLines input indentSize !! j = Some lj →
            parseLines input indentSize !! i = Some li →
            j < i →
            lineLevel indentSize lj + 1 < lineLevel indentSize li →
            (∀ k lk, j < k < i →
                     parseLines input indentSize !! k = Some lk →
                     lineLevel indentSize li ≤ lineLevel indentSize lk) →
            ∃ nj ni,
              flattenTree roots !! j = Some nj
              ∧ flattenTree roots !! i = Some ni
              ∧ fparentId ni = Some (fid nj)
              ∧ fdepth ni = S (fdepth nj))
        ∧ ∀ i li,
            parseLines input indentSize !! i = Some li →
            (∀ k lk, k < i →
                     parseLines input indentSize !! k = Some lk →
                     lineLevel indentSize li ≤ lineLevel indentSize lk) →
            ∃ ni, flattenTree roots !! i = Some ni
                  ∧ fparentId ni = None ∧ fdepth ni = 0.
Proof.
  split; [done|]. intros input indentSize _.
  destruct (parse_parent input indentSize) as (roots & E & Ht & H & Hroot).
  exists roots. split; [done|]. split; [done|]. split; [|done].
  intros i j li lj Hj Hi Hji Hlev Hbetween.
  apply (H i j li lj); [done|done|done|lia|done].
Qed.

Lemma parse_clamps_depth_witness :
  ∃ roots,
    parseIndentedTree (js "  A\n        B\n      C") 2 = Some roots
    ∧ (∃ nj ni,
         flattenTree roots !! 0 = Some nj
         ∧ flattenTree roots !! 2 = Some ni
         ∧ fparentId ni = Some (fid nj)
         ∧ fdepth ni = S (fdepth nj))
    ∧ ∃ ni, flattenTree roots !! 0 = Some ni
            ∧ fparentId ni = None ∧ fdepth ni = 0.
Proof.
  destruct (proj2 parse_clamps_depth (js "  A\n        B\n      C") 2)
    as (roots & E & _ & H & Hroot); [lia|].
  exists roots. split; [exact E|]. split.
  - apply (H 2 0 (js "      C") (js "  A")).
    + reflexivity.
    + reflexivity.
    + lia.
    + vm_compute. lia.
    + intros k lk Hk. assert (k = 1) as -> by lia. intros [= <-].
      vm_compute. lia.
  - apply (Hroot 0 (js "  A")).
    + reflexivity.
    + intros k lk Hk. lia.
Defined.

(** ** The lines of the nodes that are not roots *)








